(** * conoxy: the reconciliation engine of the Connect sidecar proxy

    A shallow embedding of [Proxy] (New, Serve, runServiceProxy,
    startListener, removedProxies, removedServices, removeNotPresent, Close,
    waitSVC) together with the goroutines these functions spawn, and, in the
    last part, of the handler of the configuration watcher with the defaults
    it fills in. Line numbers in the comments are those of the file that
    declares [Proxy].

    - Go maps are [gmap]s; [range] over a map visits its entries in an
      unspecified order, which is a parameter ([RangeOrder]).
    - Pointers to collaborator objects ([*connect.Service], [*proxy.Listener])
      are [option] addresses, [None] being Go's [nil]. The runtime-state map
      holds pointers to [proxyState]s that are only ever reached through the
      map, by identifier, so it is a map to records.
    - The Consul libraries are not part of the repository: every call into
      them goes through the record [Library], which also says what a method
      does on a nil receiver. A theorem that does not fix a library holds for
      all of them.
    - A function is a state transformer over [World] that either returns or
      panics; every call into a collaborator and every write to the two
      shared maps is recorded in the world's trace. A panic is never
      recovered: it ends the run.
    - Goroutines are kept in a pool; a schedule ([list action]) decides when
      a snapshot is received, when the host calls Close and when a pending
      goroutine runs. One pass over a snapshot, one call of Close and one
      goroutine body are each one step of a schedule; a receive on the
      readiness channel of a service is taken to return. *)

From stdpp Require Import gmap strings list fin_maps pretty.
From Stdlib Require Import Lia.

Open Scope string_scope.
Open Scope list_scope.

(** ** Data *)

(** Address of a [connect.Service] and of a [proxy.Listener] object. *)
Definition sid := nat.
Definition lid := nat.

Record UpstreamConfig := mkUpstream {
  DestinationType : string;
  DestinationNamespace : string;
  DestinationName : string;
  LocalBindAddress : string;
  LocalBindPort : N
}.

Record PublicListenerConfig := mkPublic {
  BindAddress : string;
  BindPort : N;
  LocalServiceAddress : string;
  LocalConnectTimeoutMs : N;
  HandshakeTimeoutMs : N
}.

(** [proxy.Config], with the fields the watcher fills in. *)
Record Config := mkConfig {
  ProxiedServiceName : string;
  ProxiedServiceNamespace : string;
  PublicListener : PublicListenerConfig;
  Upstreams : list UpstreamConfig
}.

(** [proxyState]: the listener field stays nil until the public-listener
    goroutine has run. *)
Record proxyState := mkProxyState {
  config : Config;
  listener : option lid;
  upstreams : gmap string lid
}.

(** What the code reads of a [tls.Config], a [tls.Certificate] and an
    [x509.Certificate]. *)
Definition DER := list Byte.byte.

Record tlsCertificate := mkTlsCertificate { Certificate : list DER }.

Record x509Certificate := mkX509 { URIs : list string }.

(** Outcome of a call into a collaborator: it returns, or it panics. *)
Inductive call (A : Type) : Type :=
| Returns (a : A)
| Panics.
Arguments Returns {A} a.
Arguments Panics {A}.

Record tlsConfig := mkTlsConfig {
  (** the function field: [None] is a nil func, otherwise the outcome of
      calling it with a nil hello *)
  GetCertificate : option (call (option tlsCertificate));
  RootCAs : list DER
}.

(** The collaborators (Consul's connect, proxy and lib packages, and
    [x509.ParseCertificate]). *)
Record Library := mkLibrary {
  (** [cfg.Service(client, logger)]: does the [n]-th creation succeed *)
  Config_Service : Config -> nat -> bool;
  (** [lib.InitTelemetry(cfg.Telemetry)]: does it succeed *)
  InitTelemetry : Config -> bool;
  (** [svc.ReadyWait()]: [Returns true] is a channel to wait on,
      [Returns false] the nil channel of a service that is ready *)
  ReadyWait : option sid -> call bool;
  ServerTLSConfig : option sid -> call (option tlsConfig);
  Service_Close : option sid -> call unit;
  ParseCertificate : DER -> option x509Certificate;
  CommonNamesFromCertPool : list DER -> call (option (list string));
  BindAddr : lid -> string;
  (** [l.Serve()]: the error it returns with, if any *)
  Listener_Serve : lid -> call (option string);
  Listener_Close : option lid -> call unit;
  (** [uc.String()] *)
  UpstreamConfig_String : UpstreamConfig -> string
}.

(** The order in which [range] visits a map. *)
Record RangeOrder := mkRangeOrder {
  range : forall A : Type, gmap string A -> list (string * A);
  range_perm : forall (A : Type) (m : gmap string A), range A m ≡ₚ map_to_list m
}.
Arguments range _ {A} _.

(** ** Goroutines, log lines and the trace *)

Inductive task :=
| GoPublic (id : string) (cfg : Config) (svc : option sid)
| GoServe (name : string) (l : lid)
| GoStopWatch (l : lid).

Inductive log_msg :=
| DebugGotNewConfig
| ErrorCannotCreateService
| ErrTelemetryConfig
| InfoReadyToServe
| InfoTLSIdentity (uri : string)
| ErrRootSubjects
| InfoTLSRoots (roots : list string)
| ErrStartPublicListener
| ErrStartUpstream (name : string)
| InfoStarting (name addr : string)
| ErrStoppedWithError (name err : string)
| InfoStopped (name : string)
| InfoListenerRemoved (id : string)
| InfoServiceRemoved (name : string).

(** Where a listener's Close is called from. *)
Inductive site := Decommission | StopWatcher.

Inductive event :=
| Log (m : log_msg)
| StatePut (id : string)
| StateDelete (id : string)
| ServiceNew (name : string) (svc : option sid)
| ServicePut (name : string) (svc : option sid)
| ServiceDelete (name : string)
| CallReadyWait (svc : option sid)
| CallServerTLSConfig (svc : option sid)
| CallServiceClose (name : string) (svc : option sid)
| CallListenerClose (from : site) (l : option lid)
| Go (t : task)
| CloseStopChan.

(** ** The proxy and the world around it *)

Record Proxy := mkProxy {
  stopChan : bool;                         (* true once the channel is closed *)
  services : gmap string (option sid);
  proxyStates : gmap string proxyState
}.

Record World := mkWorld {
  proxy : Proxy;
  serving : bool;                          (* Serve has not returned *)
  goroutines : list task;
  trace : list event;
  listeners_made : nat;
  services_asked : nat
}.

Definition New : Proxy :=
  {| stopChan := false; services := ∅; proxyStates := ∅ |}.

Definition boot : World :=
  {| proxy := New; serving := true; goroutines := []; trace := [];
     listeners_made := 0; services_asked := 0 |}.

Definition with_proxy (f : Proxy -> Proxy) (w : World) : World :=
  {| proxy := f (proxy w); serving := serving w; goroutines := goroutines w;
     trace := trace w; listeners_made := listeners_made w;
     services_asked := services_asked w |}.

Definition with_goroutines (f : list task -> list task) (w : World) : World :=
  {| proxy := proxy w; serving := serving w; goroutines := f (goroutines w);
     trace := trace w; listeners_made := listeners_made w;
     services_asked := services_asked w |}.

Definition with_trace (f : list event -> list event) (w : World) : World :=
  {| proxy := proxy w; serving := serving w; goroutines := goroutines w;
     trace := f (trace w); listeners_made := listeners_made w;
     services_asked := services_asked w |}.

Definition set_stopChan (b : bool) (p : Proxy) : Proxy :=
  {| stopChan := b; services := services p; proxyStates := proxyStates p |}.

Definition set_services (m : gmap string (option sid)) (p : Proxy) : Proxy :=
  {| stopChan := stopChan p; services := m; proxyStates := proxyStates p |}.

Definition set_proxyStates (m : gmap string proxyState) (p : Proxy) : Proxy :=
  {| stopChan := stopChan p; services := services p; proxyStates := m |}.

(** ** Returning or panicking *)

Inductive outcome (A : Type) : Type :=
| Done (a : A) (w : World)
| Panic (w : World).
Arguments Done {A} a w.
Arguments Panic {A} w.

Definition M (A : Type) : Type := World -> outcome A.

Definition ret {A} (a : A) : M A := fun w => Done a w.

Definition bind {A B} (m : M A) (k : A -> M B) : M B :=
  fun w => match m w with
           | Done a w' => k a w'
           | Panic w' => Panic w'
           end.

Definition panic {A} : M A := fun w => Panic w.

Notation "'let*' x ':=' m 'in' k" := (bind m (fun x => k))
  (at level 10, x pattern, m at level 100, k at level 200).
Notation "m ';;' k" := (bind m (fun _ => k))
  (at level 100, k at level 200, right associativity).

Definition gets {A} (f : World -> A) : M A := fun w => Done (f w) w.
Definition modify (f : World -> World) : M unit := fun w => Done tt (f w).

Definition emit (e : event) : M unit := modify (with_trace (fun t => t ++ [e])).
Definition log (m : log_msg) : M unit := emit (Log m).

(** [go f]: the goroutine joins the pool. *)
Definition go (t : task) : M unit :=
  emit (Go t) ;; modify (with_goroutines (fun g => g ++ [t])).

Definition lift {A} (c : call A) : M A :=
  match c with
  | Returns a => ret a
  | Panics => panic
  end.

(** A nil pointer dereference. *)
Definition deref {A} (p : option A) : M A :=
  match p with
  | Some a => ret a
  | None => panic
  end.

Fixpoint forM {A} (l : list A) (f : A -> M unit) : M unit :=
  match l with
  | [] => ret tt
  | a :: l' => f a ;; forM l' f
  end.

Definition world_of {A} (o : outcome A) : World :=
  match o with
  | Done _ w => w
  | Panic w => w
  end.

Definition returned {A} (o : outcome A) : bool :=
  match o with
  | Done _ _ => true
  | Panic _ => false
  end.

Definition bump_listeners (w : World) : World :=
  {| proxy := proxy w; serving := serving w; goroutines := goroutines w;
     trace := trace w; listeners_made := S (listeners_made w);
     services_asked := services_asked w |}.

Definition bump_services (w : World) : World :=
  {| proxy := proxy w; serving := serving w; goroutines := goroutines w;
     trace := trace w; listeners_made := listeners_made w;
     services_asked := S (services_asked w) |}.

Definition set_serving (b : bool) (w : World) : World :=
  {| proxy := proxy w; serving := b; goroutines := goroutines w;
     trace := trace w; listeners_made := listeners_made w;
     services_asked := services_asked w |}.

(** ** The engine *)

Section Engine.

Variable lib : Library.
Variable ro : RangeOrder.

(** [waitSVC]: a nil channel returns at once; the receive on a channel
    returns when the collaborator closes it, which it is taken to do. *)
Definition waitSVC (svc : option sid) : M unit :=
  emit (CallReadyWait svc) ;;
  let* ch := lift (ReadyWait lib svc) in
  if ch then ret tt else ret tt.

(** [startListener]: the result is the error it returns (nil is [None]). *)
Definition startListener (name : string) (l : lid) : M (option string) :=
  log (InfoStarting name (BindAddr lib l)) ;;
  go (GoServe name l) ;;
  go (GoStopWatch l) ;;
  ret None.

(** [proxy.NewPublicListener] and [proxy.NewUpstreamListener] return the
    address of a new object. *)
Definition NewListener : M lid :=
  let* l := gets listeners_made in
  modify bump_listeners ;;
  ret l.

(** [cfg.Service(p.client, p.logger)]: a fresh handle and no error, or nil
    and an error. *)
Definition Service (cfg : Config) : M (option sid * bool) :=
  let* n := gets services_asked in
  modify bump_services ;;
  let r := if Config_Service lib cfg n then (Some n, false) else (None, true) in
  emit (ServiceNew (ProxiedServiceName cfg) r.1) ;;
  ret r.

Definition put_state (id : string) (st : proxyState) : M unit :=
  modify (with_proxy (fun p => set_proxyStates (<[id := st]> (proxyStates p)) p)).

Definition put_service (name : string) (svc : option sid) : M unit :=
  emit (ServicePut name svc) ;;
  modify (with_proxy (fun p => set_services (<[name := svc]> (services p)) p)).

(** [p.proxyStates[id].upstreams[key] = l] *)
Definition write_upstream (id key : string) (l : lid) : M unit :=
  let* st := gets (fun w => proxyStates (proxy w) !! id) in
  let* st := deref st in
  put_state id {| config := config st; listener := listener st;
                  upstreams := <[key := l]> (upstreams st) |}.

(** [p.proxyStates[id].listener = l] *)
Definition write_listener (id : string) (l : lid) : M unit :=
  let* st := gets (fun w => proxyStates (proxy w) !! id) in
  let* st := deref st in
  put_state id {| config := config st; listener := Some l;
                  upstreams := upstreams st |}.

(** Lines 65-69: the handle is asked for and stored under the service
    name, whether or not there was an error. *)
Definition createService (cfg : Config) : M (option sid) :=
  let* (svc, err) := Service cfg in
  (if err then log ErrorCannotCreateService else ret tt) ;;
  put_service (ProxiedServiceName cfg) svc ;;
  ret svc.

(** Lines 71-86: telemetry, the wait for readiness, and the log lines about
    the TLS identity. [cert.Certificate[0]] and [leaf.URIs[0]] panic on a nil
    pointer and on an empty slice alike. *)
Definition announce (cfg : Config) (svc : option sid) : M unit :=
  (if InitTelemetry lib cfg then ret tt else log ErrTelemetryConfig) ;;
  waitSVC svc ;;
  log InfoReadyToServe ;;
  emit (CallServerTLSConfig svc) ;;
  let* tcfg := lift (ServerTLSConfig lib svc) in
  let* tcfg := deref tcfg in
  let* getCertificate := deref (GetCertificate tcfg) in
  let* cert := lift getCertificate in
  let* cert := deref cert in
  let* der := deref (head (Certificate cert)) in
  let* leaf := deref (ParseCertificate lib der) in
  let* uri := deref (head (URIs leaf)) in
  log (InfoTLSIdentity uri) ;;
  let* roots := lift (CommonNamesFromCertPool lib (RootCAs tcfg)) in
  match roots with
  | None => log ErrRootSubjects
  | Some names => log (InfoTLSRoots names)
  end.

(** Lines 63-87: the handle of the service name, created on first use. *)
Definition resolve (cfg : Config) : M (option sid) :=
  let* found := gets (fun w => services (proxy w) !! ProxiedServiceName cfg) in
  match found with
  | Some svc => ret svc
  | None =>
      let* svc := createService cfg in
      announce cfg svc ;;
      ret svc
  end.

(** The body of the loop of lines 99-106. *)
Definition startUpstream (id : string) (svc : option sid) (uc : UpstreamConfig)
  : M unit :=
  let* l := NewListener in
  let* err := startListener (UpstreamConfig_String lib uc) l in
  match err with
  | Some _ => log (ErrStartUpstream (UpstreamConfig_String lib uc))
  | None => ret tt
  end ;;
  write_upstream id (UpstreamConfig_String lib uc) l.

(** Lines 89-106: the public-listener goroutine is launched, the upstream
    listeners are started. *)
Definition launch (id : string) (cfg : Config) (svc : option sid) : M unit :=
  go (GoPublic id cfg svc) ;;
  forM (Upstreams cfg) (startUpstream id svc).

Definition runServiceProxy (id : string) (cfg : Config) : M unit :=
  let* st := gets (fun w => proxyStates (proxy w) !! id) in
  match st with
  | Some _ => ret tt
  | None =>
      emit (StatePut id) ;;
      put_state id {| config := cfg; listener := None; upstreams := ∅ |} ;;
      let* svc := resolve cfg in
      launch id cfg svc
  end.

(** The goroutine of lines 89-97. *)
Definition publicListener (id : string) (cfg : Config) (svc : option sid)
  : M unit :=
  waitSVC svc ;;
  let* l := NewListener in
  let* err := startListener "public listener" l in
  match err with
  | Some _ => log ErrStartPublicListener
  | None => ret tt
  end ;;
  write_listener id l.

Definition removedProxies (p : Proxy) (new : gmap string Config)
  : gmap string proxyState :=
  let sc := foldl (fun sc kv => <[kv.1 := kv.2]> sc) ∅ (range ro (proxyStates p)) in
  foldl (fun sc kv => delete kv.1 sc) sc (range ro new).

Definition removedServices (p : Proxy) (new : gmap string Config)
  : gmap string (option sid) :=
  let sc := foldl (fun sc kv => <[kv.1 := kv.2]> sc) ∅ (range ro (services p)) in
  foldl (fun sc kv => delete (ProxiedServiceName kv.2) sc) sc (range ro new).

Definition closeListener (from : site) (l : option lid) : M unit :=
  emit (CallListenerClose from l) ;;
  lift (Listener_Close lib l).

Definition closeService (name : string) (svc : option sid) : M unit :=
  emit (CallServiceClose name svc) ;;
  lift (Service_Close lib svc).

Definition decommission (kv : string * proxyState) : M unit :=
  log (InfoListenerRemoved kv.1) ;;
  closeListener Decommission (listener kv.2) ;;
  forM (range ro (upstreams kv.2))
       (fun u => closeListener Decommission (Some u.2)) ;;
  emit (StateDelete kv.1) ;;
  modify (with_proxy (fun p => set_proxyStates (delete kv.1 (proxyStates p)) p)).

Definition retire (kv : string * option sid) : M unit :=
  log (InfoServiceRemoved kv.1) ;;
  closeService kv.1 kv.2 ;;
  emit (ServiceDelete kv.1) ;;
  modify (with_proxy (fun p => set_services (delete kv.1 (services p)) p)).

Definition removeNotPresent (new : gmap string Config) : M unit :=
  let* gone := gets (fun w => removedProxies (proxy w) new) in
  forM (range ro gone) decommission ;;
  let* unused := gets (fun w => removedServices (proxy w) new) in
  forM (range ro unused) retire.

(** [Close]: closing a closed channel panics. *)
Definition Close : M unit :=
  let* closed := gets (fun w => stopChan (proxy w)) in
  if closed : bool then panic
  else
    emit CloseStopChan ;;
    modify (with_proxy (set_stopChan true)) ;;
    let* svcs := gets (fun w => services (proxy w)) in
    forM (range ro svcs) (fun kv => closeService kv.1 kv.2).

(** The body of Serve's [case cfg := <-p.cfgWatcher.Watch()]. *)
Definition Serve_config (proxyConfigs : gmap string Config) : M unit :=
  log DebugGotNewConfig ;;
  forM (range ro proxyConfigs) (fun kv => runServiceProxy kv.1 kv.2) ;;
  removeNotPresent proxyConfigs.

(** The goroutines. *)
Definition run_task (t : task) : M unit :=
  match t with
  | GoPublic id cfg svc => publicListener id cfg svc
  | GoServe name l =>
      let* err := lift (Listener_Serve lib l) in
      match err with
      | Some e => log (ErrStoppedWithError name e)
      | None => log (InfoStopped name)
      end
  | GoStopWatch l => closeListener StopWatcher (Some l)
  end.

(** A stop watcher is blocked on [<-p.stopChan] until the channel is closed. *)
Definition runnable (t : task) (w : World) : bool :=
  match t with
  | GoStopWatch _ => stopChan (proxy w)
  | _ => true
  end.

(** ** Schedules *)

Inductive action :=
| RecvConfig (proxyConfigs : gmap string Config)
| RecvStop
| HostClose
| Sched (n : nat).

Definition step (a : action) : M unit :=
  match a with
  | RecvConfig cfg =>
      let* s := gets serving in
      if s : bool then Serve_config cfg else ret tt
  | RecvStop =>
      let* closed := gets (fun w => stopChan (proxy w)) in
      if closed : bool then modify (set_serving false) else ret tt
  | HostClose => Close
  | Sched n =>
      let* t := gets (fun w => goroutines w !! n) in
      match t with
      | None => ret tt
      | Some t =>
          let* ok := gets (runnable t) in
          if ok : bool
          then modify (with_goroutines (delete n)) ;; run_task t
          else ret tt
      end
  end.

Definition run (sched : list action) : M unit := forM sched step.

End Engine.

(** ** A concrete collaborator and a concrete range order *)

(** The order of [map_to_list]. *)
Definition in_order : RangeOrder :=
  {| range := fun A m => map_to_list m;
     range_perm := fun A m => reflexivity (map_to_list m) |}.

Definition some_identity : tlsConfig :=
  {| GetCertificate := Some (Returns (Some {| Certificate := [[]] |}));
     RootCAs := [] |}.

(** A collaborator whose identity service refuses the names in [refused],
    and whose methods, called on a nil receiver, panic when [strict] and
    return otherwise. *)
Definition collaborator (strict : bool) (refused : list string) : Library :=
  {| Config_Service := fun cfg _ =>
       negb (bool_decide (ProxiedServiceName cfg ∈ refused));
     InitTelemetry := fun _ => true;
     ReadyWait := fun svc =>
       match svc with
       | Some _ => Returns false
       | None => if strict then Panics else Returns false
       end;
     ServerTLSConfig := fun svc =>
       match svc with
       | Some _ => Returns (Some some_identity)
       | None => if strict then Panics else Returns (Some some_identity)
       end;
     Service_Close := fun svc =>
       match svc with
       | Some _ => Returns tt
       | None => if strict then Panics else Returns tt
       end;
     ParseCertificate := fun _ => Some {| URIs := ["spiffe://dc1/svc"] |};
     CommonNamesFromCertPool := fun _ => Returns (Some []);
     BindAddr := fun _ => "0.0.0.0:0";
     Listener_Serve := fun _ => Returns None;
     Listener_Close := fun l =>
       match l with
       | Some _ => Returns tt
       | None => if strict then Panics else Returns tt
       end;
     UpstreamConfig_String := fun uc =>
       LocalBindAddress uc +:+ "->" +:+ DestinationName uc |}.

Definition upstream (name : string) : UpstreamConfig :=
  {| DestinationType := "service"; DestinationNamespace := "default";
     DestinationName := name; LocalBindAddress := "0.0.0.0";
     LocalBindPort := 0%N |}.

Definition cfg_for (service : string) (ups : list string) : Config :=
  {| ProxiedServiceName := service; ProxiedServiceNamespace := "default";
     PublicListener := {| BindAddress := "0.0.0.0"; BindPort := 0%N;
                          LocalServiceAddress := "127.0.0.1:0";
                          LocalConnectTimeoutMs := 1000%N;
                          HandshakeTimeoutMs := 10000%N |};
     Upstreams := upstream <$> ups |}.

Definition snapA : gmap string Config := {[ "A" := cfg_for "serviceX" ["u1"] ]}.
Definition snapAB : gmap string Config :=
  {[ "A" := cfg_for "serviceX" ["u1"]; "B" := cfg_for "serviceX" ["u2"] ]}.
Definition snapB : gmap string Config := {[ "B" := cfg_for "serviceX" ["u2"] ]}.


(** ** Reasoning about computations *)

(** Number of events of a trace that satisfy [φ]. *)
Fixpoint count (φ : event -> bool) (t : list event) : nat :=
  match t with
  | [] => 0
  | e :: t' => (if φ e then 1 else 0) + count φ t'
  end.

Lemma count_app φ t1 t2 : count φ (t1 ++ t2) = count φ t1 + count φ t2.
Proof. induction t1 as [|e t1 IH]; simpl; [done|]. rewrite IH. lia. Qed.

Lemma count_snoc φ t e :
  count φ (t ++ [e]) = count φ t + (if φ e then 1 else 0).
Proof. rewrite count_app. simpl. lia. Qed.

Lemma bind_done {A B} (m : M A) (k : A -> M B) w a w' :
  m w = Done a w' -> bind m k w = k a w'.
Proof. unfold bind. by intros ->. Qed.

Lemma bind_panic {A B} (m : M A) (k : A -> M B) w w' :
  m w = Panic w' -> bind m k w = Panic w'.
Proof. unfold bind. by intros ->. Qed.

Lemma bind_inv {A B} (m : M A) (k : A -> M B) w b w2 :
  bind m k w = Done b w2 -> exists a w1, m w = Done a w1 /\ k a w1 = Done b w2.
Proof. unfold bind. destruct (m w) as [a w1|]; [eauto|done]. Qed.

(** [steps R m]: running [m] moves the world along [R], whether [m]
    returns or panics. *)
Definition steps {A} (R : relation World) (m : M A) : Prop :=
  forall w, R w (world_of (m w)).

(** [same f]: the observation [f] of the world does not change. *)
Definition same {X} (f : World -> X) : relation World :=
  fun w w' => f w' = f w.

Global Instance same_preorder {X} (f : World -> X) : PreOrder (same f).
Proof. split; unfold same; [by intros ?|intros ??? -> ->; done]. Qed.

Section Steps.

Context (R : relation World) `{!PreOrder R}.

Lemma steps_ret {A} (a : A) : steps R (ret a).
Proof. intros w. reflexivity. Qed.

Lemma steps_panic {A} : steps R (@panic A).
Proof. intros w. reflexivity. Qed.

Lemma steps_gets {A} (f : World -> A) : steps R (gets f).
Proof. intros w. reflexivity. Qed.

Lemma steps_lift {A} (c : call A) : steps R (lift c).
Proof. destruct c; [apply steps_ret|apply steps_panic]. Qed.

Lemma steps_deref {A} (p : option A) : steps R (deref p).
Proof. destruct p; [apply steps_ret|apply steps_panic]. Qed.

Lemma steps_modify (g : World -> World) :
  (forall w, R w (g w)) -> steps R (modify g).
Proof. intros H w. apply H. Qed.

Lemma steps_bind {A B} (m : M A) (k : A -> M B) :
  steps R m -> (forall a, steps R (k a)) -> steps R (bind m k).
Proof.
  intros Hm Hk w. unfold bind. specialize (Hm w).
  destruct (m w) as [a w1|w1]; simpl in *; [|done].
  etrans; [exact Hm|apply Hk].
Qed.

Lemma steps_forM {A} (l : list A) (f : A -> M unit) :
  (forall a, a ∈ l -> steps R (f a)) -> steps R (forM l f).
Proof.
  induction l as [|a l IH]; intros H; simpl; [apply steps_ret|].
  apply steps_bind; [apply H; left|intros _; apply IH].
  intros b Hb. apply H. by right.
Qed.

End Steps.

(** What [startListener] does to the world. *)
Definition started (lib : Library) (name : string) (l : lid) (w : World) : World :=
  with_goroutines (fun g => g ++ [GoStopWatch l])
    (with_trace (fun t => t ++ [Go (GoStopWatch l)])
      (with_goroutines (fun g => g ++ [GoServe name l])
        (with_trace (fun t => t ++ [Go (GoServe name l)])
          (with_trace (fun t => t ++ [Log (InfoStarting name (BindAddr lib l))])
             w)))).

Lemma startListener_eq lib name l w :
  startListener lib name l w = Done None (started lib name l w).
Proof. reflexivity. Qed.

Lemma steps_bind_startListener {B} R `{!PreOrder R} lib name l
    (k : option string -> M B) :
  steps R (startListener lib name l) -> steps R (k None) ->
  steps R (bind (startListener lib name l) k).
Proof.
  intros H1 H2 w. unfold bind. rewrite startListener_eq.
  specialize (H1 w). rewrite startListener_eq in H1. simpl in H1.
  etrans; [exact H1|apply H2].
Qed.

(** Observations that do not read the trace survive [emit]; a count
    survives the events it does not count. *)
Lemma emit_same_count φ e :
  φ e = false -> steps (same (fun w => count φ (trace w))) (emit e).
Proof. intros H w. unfold same. simpl. rewrite count_snoc, H. lia. Qed.

Ltac order := try match goal with |- PreOrder _ => apply _ end.

Ltac head_of t :=
  match t with
  | ?f _ => head_of f
  | _ => t
  end.

(** Opens the definition of the engine function a computation starts with. *)
Ltac open_head :=
  match goal with
  | |- steps _ ?m =>
      let h := head_of m in
      lazymatch h with
      | @emit => fail
      | @modify => fail
      | _ => unfold h
      end
  end.

(** Walks through a computation, leaving the events it emits and the
    changes it makes to the world to [leaf]. *)
Ltac walk leaf :=
  repeat first
    [ leaf
    | apply steps_ret; order | apply steps_panic; order
    | apply steps_gets; order | apply steps_lift; order
    | apply steps_deref; order
    | match goal with
      | |- steps _ (bind (startListener _ _ _) _) =>
          apply steps_bind_startListener; order
      | |- steps _ (bind _ _) => apply steps_bind; order; [|intros ?]
      | |- steps _ (forM _ _) => apply steps_forM; order; intros ? _
      | |- steps _ (match ?x with _ => _ end) => destruct x
      end
    | open_head ].

(** Leaves of a count: the event is not counted, or the trace is untouched. *)
Ltac quiet :=
  first [ apply emit_same_count; reflexivity
        | apply steps_modify; intros ?; reflexivity ].

Definition is_start_error (e : event) : bool :=
  match e with
  | Log ErrStartPublicListener | Log (ErrStartUpstream _) => true
  | _ => false
  end.

Definition is_serve_error (e : event) : bool :=
  match e with
  | Log (ErrStoppedWithError _ _) => true
  | _ => false
  end.

Section Facts.

Variable lib : Library.
Variable ro : RangeOrder.

Lemma run_no_start_error sched :
  steps (same (fun w => count is_start_error (trace w))) (run lib ro sched).
Proof. walk quiet. Qed.

Lemma Serve_config_no_serve_error cfg :
  steps (same (fun w => count is_serve_error (trace w))) (Serve_config lib ro cfg).
Proof. walk quiet. Qed.

Lemma Close_no_serve_error :
  steps (same (fun w => count is_serve_error (trace w))) (Close lib ro).
Proof. walk quiet. Qed.

Lemma publicListener_no_serve_error id cfg svc :
  steps (same (fun w => count is_serve_error (trace w)))
        (publicListener lib id cfg svc).
Proof. walk quiet. Qed.

Lemma closeListener_no_serve_error from l :
  steps (same (fun w => count is_serve_error (trace w))) (closeListener lib from l).
Proof. walk quiet. Qed.

(** C9. [startListener] returns nil for every name and listener, in every
    world; over any schedule the lines that log a failed start of a public
    or upstream listener are never run; and a step that logs a serve
    failure is the serving goroutine of a listener whose [Serve] returned
    an error. *)
Theorem startListener_returns_nil :
  (forall name l w, exists w', startListener lib name l w = Done None w') /\
  (forall sched w,
     count is_start_error (trace (world_of (run lib ro sched w)))
     = count is_start_error (trace w)) /\
  (forall a w,
     count is_serve_error (trace (world_of (step lib ro a w)))
     <> count is_serve_error (trace w) ->
     exists n name l err,
       a = Sched n /\ goroutines w !! n = Some (GoServe name l) /\
       Listener_Serve lib l = Returns (Some err)).
Proof.
  split; [|split].
  - intros name l w. eexists. apply startListener_eq.
  - intros sched w. apply run_no_start_error.
  - intros a w Hne. destruct a as [cfg| | |n].
    + exfalso. apply Hne. simpl. unfold bind, gets.
      destruct (serving w); [|done]. apply Serve_config_no_serve_error.
    + exfalso. apply Hne. simpl. unfold bind, gets.
      by destruct (stopChan (proxy w)).
    + exfalso. apply Hne. apply Close_no_serve_error.
    + simpl in Hne. unfold bind, gets in Hne.
      destruct (goroutines w !! n) as [t|] eqn:Ht; [|done].
      destruct (runnable t w); [|done]. simpl in Hne.
      destruct t as [id cfg svc|name l|l].
      * exfalso. apply Hne.
        apply (publicListener_no_serve_error id cfg svc
                 (with_goroutines (delete n) w)).
      * exists n, name, l. simpl in Hne. unfold bind in Hne.
        destruct (Listener_Serve lib l) as [[err|]|] eqn:Hs; simpl in Hne.
        -- by exists err.
        -- exfalso. apply Hne. rewrite count_snoc. simpl. lia.
        -- done.
      * exfalso. apply Hne.
        apply (closeListener_no_serve_error StopWatcher (Some l)
                 (with_goroutines (delete n) w)).
Qed.

(** *** Close *)

Definition is_chan_close (e : event) : bool :=
  match e with
  | CloseStopChan => true
  | _ => false
  end.

(** The world once [Close] has closed the channel, before it visits the
    registry. *)
Definition stop_signalled (w : World) : World :=
  with_proxy (set_stopChan true) (with_trace (fun t => t ++ [CloseStopChan]) w).

Lemma Close_open w :
  stopChan (proxy w) = false ->
  Close lib ro w
  = forM (range ro (services (proxy w))) (fun kv => closeService lib kv.1 kv.2)
         (stop_signalled w).
Proof. intros H. unfold Close, bind, gets. rewrite H. reflexivity. Qed.

Lemma closeService_same_stopChan name svc :
  steps (same (fun w => stopChan (proxy w))) (closeService lib name svc).
Proof. walk ltac:(apply steps_modify; intros ?; reflexivity). Qed.

Lemma closeService_no_chan_close name svc :
  steps (same (fun w => count is_chan_close (trace w))) (closeService lib name svc).
Proof. walk quiet. Qed.

(** C5 (as amended). [Close] closes the stop channel without a guard. Called
    while the channel is open it closes it, once; called on a proxy whose
    channel is closed, and so in particular a second time, it panics. *)
Theorem Close_must_be_called_once w :
  stopChan (proxy w) = false ->
  let w1 := world_of (Close lib ro w) in
  stopChan (proxy w1) = true /\
  count is_chan_close (trace w1) = count is_chan_close (trace w) + 1 /\
  Close lib ro w1 = Panic w1.
Proof.
  intros Hopen w1. subst w1. rewrite Close_open by done.
  set (l := range ro (services (proxy w))).
  set (f := fun kv : string * option sid => closeService lib kv.1 kv.2).
  assert (Hs : stopChan (proxy (world_of (forM l f (stop_signalled w)))) = true).
  { apply (steps_forM (same (fun w => stopChan (proxy w))) l f).
    intros kv _. apply closeService_same_stopChan. }
  split; [done|]. split.
  - etrans; [apply (steps_forM (same (fun w => count is_chan_close (trace w))) l f)|].
    + intros kv _. apply closeService_no_chan_close.
    + simpl. rewrite count_snoc. reflexivity.
  - unfold Close, bind, gets. by rewrite Hs.
Qed.

(** *** What a goroutine changes *)

(** [touches who w w']: between [w] and [w'] the stop channel and the
    registry of handles are the same, the runtime-state map has the same
    identifiers, and a runtime state differs at most in its listener field,
    and then only for an identifier in [who]. *)
Definition touches (who : string -> Prop) (w w' : World) : Prop :=
  stopChan (proxy w') = stopChan (proxy w) /\
  services (proxy w') = services (proxy w) /\
  forall id,
    option_Forall2
      (fun st st' =>
         config st' = config st /\ upstreams st' = upstreams st /\
         (listener st' = listener st \/ who id))
      (proxyStates (proxy w) !! id) (proxyStates (proxy w') !! id).

Global Instance touches_preorder who : PreOrder (touches who).
Proof.
  split.
  - intros w. repeat split. intros id.
    destruct (proxyStates (proxy w) !! id); constructor. auto.
  - intros w1 w2 w3 (Hc1 & Hs1 & H1) (Hc2 & Hs2 & H2).
    split; [congruence|]. split; [congruence|]. intros id.
    specialize (H1 id). specialize (H2 id).
    destruct H1 as [st1 st2 (Ha & Hb & Hl)|]; inversion H2 as [? st3 (Ha' & Hb' & Hl')|];
      subst; constructor.
    split; [congruence|]. split; [congruence|].
    destruct Hl as [Hl|]; [|by right]. destruct Hl' as [Hl'|]; [|by right].
    left. congruence.
Qed.

Lemma touches_same_proxy who w w' : proxy w' = proxy w -> touches who w w'.
Proof.
  intros H. unfold touches. rewrite H. repeat split. intros id.
  destruct (proxyStates (proxy w) !! id); constructor. auto.
Qed.

Lemma write_listener_touches id l :
  steps (touches (fun id' => id' = id)) (write_listener id l).
Proof.
  intros w. unfold write_listener, bind, gets, put_state.
  destruct (proxyStates (proxy w) !! id) as [st|] eqn:Hst; simpl.
  - repeat split. intros id'. simpl. destruct (decide (id' = id)) as [->|Hne].
    + rewrite lookup_insert_eq, Hst. constructor. simpl. auto.
    + rewrite lookup_insert_ne by done.
      destruct (proxyStates (proxy w) !! id'); constructor. auto.
  - reflexivity.
Qed.

Ltac untouched :=
  first [ apply steps_modify; intros ?; apply touches_same_proxy; reflexivity ].

Definition public_of (t : task) (id : string) : Prop :=
  match t with
  | GoPublic id' _ _ => id = id'
  | _ => False
  end.

Lemma run_task_touches t : steps (touches (public_of t)) (run_task lib t).
Proof.
  destruct t as [id cfg svc|name l|l].
  - walk ltac:(first [apply write_listener_touches | untouched]).
  - walk untouched.
  - walk untouched.
Qed.

(** C8 (as amended). A goroutine never changes the stop channel, the
    registry of handles, or which identifiers have a runtime state, nor the
    configuration and upstream listeners of a runtime state. The
    public-listener goroutine of an instance does write the listener field
    of that instance's runtime state; no goroutine writes any other. *)
Theorem goroutines_write_only_the_listener_field t w :
  touches (public_of t) w (world_of (run_task lib t w)).
Proof. apply run_task_touches. Qed.

(** *** Ranging over a map *)

Lemma range_NoDup {A} (m : gmap string A) : NoDup (range ro m).*1.
Proof. rewrite (range_perm ro). apply NoDup_fst_map_to_list. Qed.

Lemma elem_of_range {A} (m : gmap string A) k v :
  (k, v) ∈ range ro m <-> m !! k = Some v.
Proof. rewrite (range_perm ro). apply elem_of_map_to_list. Qed.

Lemma elem_of_range_keys {A} (m : gmap string A) k :
  k ∈ (range ro m).*1 <-> is_Some (m !! k).
Proof.
  rewrite list_elem_of_fmap. split.
  - intros ([k' v] & -> & H). apply elem_of_range in H. eauto.
  - intros [v H]. exists (k, v). split; [done|]. by apply elem_of_range.
Qed.

Lemma foldl_insert_union {A} (l : list (string * A)) (m0 : gmap string A) :
  NoDup l.*1 ->
  foldl (fun sc kv => <[kv.1 := kv.2]> sc) m0 l = list_to_map l ∪ m0.
Proof.
  revert m0. induction l as [|[k0 v0] l IH]; intros m0 Hnd; simpl.
  - by rewrite (left_id_L ∅ (∪)).
  - inversion Hnd as [|?? Hk0 Hnd']; subst. rewrite IH by done.
    apply map_eq. intros k. rewrite !lookup_union.
    destruct (decide (k = k0)) as [->|Hne].
    + rewrite !lookup_insert_eq.
      assert (list_to_map (M := gmap string A) l !! k0 = None) as ->
        by (by apply not_elem_of_list_to_map_1).
      by destruct (m0 !! k0).
    + by rewrite !lookup_insert_ne.
Qed.

Lemma foldl_delete_lookup {A B} (g : string * B -> string)
    (l : list (string * B)) (m0 : gmap string A) k :
  foldl (fun sc kv => delete (g kv) sc) m0 l !! k
  = if decide (k ∈ g <$> l) then None else m0 !! k.
Proof.
  revert m0. induction l as [|kv l IH]; intros m0.
  - done.
  - cbn [foldl]. rewrite IH. rewrite fmap_cons. destruct (decide (k = g kv)) as [->|Hne].
    + rewrite lookup_delete_eq. rewrite (decide_True (P := _ ∈ _ :: _)) by left.
      by destruct (decide _).
    + rewrite lookup_delete_ne by done.
      destruct (decide (k ∈ g <$> l)) as [H1|H1].
      * rewrite decide_True; [done|]. by right.
      * rewrite decide_False; [done|]. intros [?|?]%elem_of_cons; done.
Qed.

Lemma range_copy {A} (m : gmap string A) :
  foldl (fun sc kv => <[kv.1 := kv.2]> sc) ∅ (range ro m) = m.
Proof.
  rewrite foldl_insert_union by apply range_NoDup.
  rewrite (right_id_L ∅ (∪)).
  rewrite (list_to_map_proper (range ro m) (map_to_list m));
    [apply list_to_map_to_list|apply range_NoDup|apply range_perm].
Qed.

(** [references new N]: an instance of the snapshot proxies for service [N]. *)
Definition references (new : gmap string Config) (N : string) : Prop :=
  exists id cfg, new !! id = Some cfg /\ ProxiedServiceName cfg = N.

Lemma references_range new N :
  references new N
  <-> N ∈ (fun kv : string * Config => ProxiedServiceName kv.2) <$> range ro new.
Proof.
  rewrite list_elem_of_fmap. split.
  - intros (id & cfg & H & <-). exists (id, cfg). split; [done|].
    by apply elem_of_range.
  - intros ([id cfg] & -> & H). exists id, cfg. split; [|done].
    by apply elem_of_range.
Qed.

Lemma removedProxies_lookup p new k :
  removedProxies ro p new !! k
  = if decide (is_Some (new !! k)) then None else proxyStates p !! k.
Proof.
  unfold removedProxies. rewrite range_copy.
  rewrite (foldl_delete_lookup (fun kv : string * Config => kv.1)).
  change ((fun kv : string * Config => kv.1) <$> range ro new)
    with ((range ro new).*1).
  case_decide as H1; case_decide as H2; try done.
  - exfalso. apply H2. by apply elem_of_range_keys.
  - exfalso. apply H1. by apply elem_of_range_keys.
Qed.

Lemma removedServices_referenced p new N :
  references new N -> removedServices ro p new !! N = None.
Proof.
  intros H. unfold removedServices. rewrite range_copy.
  rewrite (foldl_delete_lookup (fun kv : string * Config => ProxiedServiceName kv.2)).
  rewrite decide_True; [done|]. by apply references_range.
Qed.

Lemma removedServices_unreferenced p new N :
  ~ references new N -> removedServices ro p new !! N = services p !! N.
Proof.
  intros H. unfold removedServices. rewrite range_copy.
  rewrite (foldl_delete_lookup (fun kv : string * Config => ProxiedServiceName kv.2)).
  rewrite decide_False; [done|]. by rewrite <- references_range.
Qed.

(** *** Counting what reconciliation does *)

Definition is_put (id : string) (e : event) : bool :=
  match e with
  | StatePut id' => bool_decide (id' = id)
  | _ => false
  end.

Definition is_del (id : string) (e : event) : bool :=
  match e with
  | StateDelete id' => bool_decide (id' = id)
  | _ => false
  end.

Definition is_new (N : string) (e : event) : bool :=
  match e with
  | ServiceNew N' _ => bool_decide (N' = N)
  | _ => false
  end.

Definition is_svc_close (N : string) (e : event) : bool :=
  match e with
  | CallServiceClose N' _ => bool_decide (N' = N)
  | _ => false
  end.

(** 1 when [P] holds, 0 otherwise. *)
Definition ind (P : Prop) `{!Decision P} : nat := if decide P then 1 else 0.

Lemma ind_True (P : Prop) `{!Decision P} : P -> ind P = 1.
Proof. intros H. unfold ind. by rewrite decide_True. Qed.

Lemma ind_False (P : Prop) `{!Decision P} : ~ P -> ind P = 0.
Proof. intros H. unfold ind. by rewrite decide_False. Qed.

Lemma ind_bool_decide (P : Prop) `{!Decision P} :
  (if bool_decide P then 1 else 0) = ind P.
Proof. unfold ind. by case_bool_decide; [rewrite decide_True|rewrite decide_False]. Qed.

Definition states (w : World) : gmap string proxyState := proxyStates (proxy w).
Definition registry (w : World) : gmap string (option sid) := services (proxy w).
Definition puts (id : string) (w : World) : nat := count (is_put id) (trace w).
Definition dels (id : string) (w : World) : nat := count (is_del id) (trace w).
Definition news (N : string) (w : World) : nat := count (is_new N) (trace w).
Definition svc_closes (N : string) (w : World) : nat :=
  count (is_svc_close N) (trace w).

(** Leaves of an observation [same f]: an event that [f] does not count, a
    change of the world that [f] does not read. *)
Ltac unseen :=
  idtac;
  match goal with
  | |- steps (same _) (emit _) =>
      intros ?; unfold same, puts, dels, news, svc_closes, states, registry;
      simpl; rewrite ?count_snoc; simpl; rewrite ?Nat.add_0_r; reflexivity
  | |- steps (same _) (modify _) => intros ?; reflexivity
  end.

Lemma runServiceProxy_present id cfg w :
  is_Some (states w !! id) -> runServiceProxy lib id cfg w = Done tt w.
Proof.
  intros [st H]. unfold runServiceProxy, bind, gets.
  unfold states in H. by rewrite H.
Qed.

Lemma runServiceProxy_dels id cfg id' :
  steps (same (dels id')) (runServiceProxy lib id cfg).
Proof. walk unseen. Qed.

Lemma runServiceProxy_svc_closes id cfg N :
  steps (same (svc_closes N)) (runServiceProxy lib id cfg).
Proof. walk unseen. Qed.

(** The world on entry to the provisioning of a new identifier: the write
    of line 58 is done. *)
Definition entered (id : string) (cfg : Config) (w : World) : World :=
  with_proxy
    (fun p => set_proxyStates
       (<[id := {| config := cfg; listener := None; upstreams := ∅ |}]>
          (proxyStates p)) p)
    (with_trace (fun t => t ++ [StatePut id]) w).

Lemma runServiceProxy_absent id cfg w :
  states w !! id = None ->
  runServiceProxy lib id cfg w
  = bind (resolve lib cfg) (launch lib id cfg) (entered id cfg w).
Proof.
  intros H. unfold runServiceProxy, bind at 1, gets.
  unfold states in H. by rewrite H.
Qed.

Lemma after_entry_puts id cfg id' :
  steps (same (puts id')) (bind (resolve lib cfg) (launch lib id cfg)).
Proof. walk unseen. Qed.

Lemma runServiceProxy_puts id cfg id' w :
  puts id' (world_of (runServiceProxy lib id cfg w))
  = puts id' w + ind (id' = id /\ states w !! id = None).
Proof.
  destruct (states w !! id) as [st|] eqn:Hst.
  - rewrite runServiceProxy_present by (rewrite Hst; eauto). simpl.
    rewrite ind_False; [lia|]. by intros [_ ?].
  - rewrite runServiceProxy_absent by done.
    rewrite after_entry_puts. unfold puts, entered. simpl.
    rewrite count_snoc. simpl. rewrite ind_bool_decide. f_equal.
    unfold ind. destruct (decide (id = id')) as [->|Hne].
    + by rewrite decide_True.
    + rewrite decide_False; [done|]. intros [? _]. congruence.
Qed.

Lemma write_upstream_dom id key l :
  steps (same (fun w => dom (states w))) (write_upstream id key l).
Proof.
  intros w. unfold write_upstream, bind, gets, put_state, same, states.
  destruct (proxyStates (proxy w) !! id) as [st|] eqn:Hst; simpl; [|done].
  rewrite dom_insert_L. apply (elem_of_dom_2 (D := gset string)) in Hst.
  set_solver.
Qed.

Lemma after_entry_dom id cfg :
  steps (same (fun w => dom (states w)))
        (bind (resolve lib cfg) (launch lib id cfg)).
Proof. walk ltac:(first [apply write_upstream_dom | unseen]). Qed.

Lemma runServiceProxy_dom id cfg w :
  dom (states (world_of (runServiceProxy lib id cfg w))) = {[id]} ∪ dom (states w).
Proof.
  destruct (states w !! id) as [st|] eqn:Hst.
  - rewrite runServiceProxy_present by (rewrite Hst; eauto). simpl.
    apply (elem_of_dom_2 (D := gset string)) in Hst. set_solver.
  - rewrite runServiceProxy_absent by done.
    rewrite after_entry_dom. unfold states, entered. simpl.
    by rewrite dom_insert_L.
Qed.

(** Leaves of the observation of another identifier's runtime state. *)
Ltac elsewhere :=
  idtac;
  match goal with
  | |- steps (same _) (emit _) => intros ?; reflexivity
  | |- steps (same _) (modify _) =>
      intros ?; unfold same, states; simpl;
      first [reflexivity | by rewrite lookup_insert_ne | by rewrite lookup_delete_ne]
  end.

Lemma runServiceProxy_others id cfg id' :
  id' <> id -> steps (same (fun w => states w !! id')) (runServiceProxy lib id cfg).
Proof. intros Hne. walk elsewhere. Qed.

(** [kept id]: a runtime state that exists is left as it is. *)
Definition kept (id : string) : relation World :=
  fun w w' => is_Some (states w !! id) -> states w' !! id = states w !! id.

Global Instance kept_preorder id : PreOrder (kept id).
Proof.
  split; [by intros w _|].
  intros w1 w2 w3 H1 H2 Hs. unfold kept in *.
  rewrite H2; [by apply H1|]. by rewrite H1.
Qed.

Lemma runServiceProxy_kept id cfg id' :
  steps (kept id') (runServiceProxy lib id cfg).
Proof.
  intros w Hs. destruct (decide (id' = id)) as [->|Hne].
  - by rewrite runServiceProxy_present.
  - by apply runServiceProxy_others.
Qed.

(** *** The registry of handles *)

(** [registers names N w w']: between [w] and [w'] either the entry of [N]
    and the number of handles created for [N] are unchanged, or [N] had no
    entry, has one now, is one of [names], and one handle was asked for. *)
Definition registers (names : string -> Prop) (N : string) : relation World :=
  fun w w' =>
    (registry w' !! N = registry w !! N /\ news N w' = news N w) \/
    (registry w !! N = None /\ is_Some (registry w' !! N) /\ names N /\
     news N w' = news N w + 1).

Global Instance registers_preorder names N : PreOrder (registers names N).
Proof.
  split; [intros w; by left|].
  intros w1 w2 w3 [[Ha Hb]|(Ha & Hb & Hc & Hd)] [[Ha' Hb']|(Ha' & Hb' & Hc' & Hd')].
  - left. split; congruence.
  - right. repeat split; try done; [congruence|lia].
  - right. repeat split; try done; [congruence|lia].
  - exfalso. rewrite Ha' in Hb. by destruct Hb.
Qed.

Lemma registers_same names N w w' :
  same (fun w => (registry w, news N w)) w w' -> registers names N w w'.
Proof. unfold same. intros [= H1 H2]. left. by rewrite H1, H2. Qed.

Lemma announce_registry cfg svc N :
  steps (same (fun w => (registry w, news N w))) (announce lib cfg svc).
Proof. walk unseen. Qed.

Lemma launch_registry id cfg svc N :
  steps (same (fun w => (registry w, news N w))) (launch lib id cfg svc).
Proof. walk unseen. Qed.

(** The handle [cfg.Service] returns on its [n]-th call. *)
Definition handle_of (cfg : Config) (n : nat) : option sid :=
  if Config_Service lib cfg n then Some n else None.

(** The world once lines 65-69 have run. *)
Definition created (cfg : Config) (w : World) : World :=
  let svc := handle_of cfg (services_asked w) in
  let name := ProxiedServiceName cfg in
  with_proxy (fun p => set_services (<[name := svc]> (services p)) p)
    (with_trace
       (fun t => t ++ [ServiceNew name svc]
                   ++ (if Config_Service lib cfg (services_asked w) then []
                       else [Log ErrorCannotCreateService])
                   ++ [ServicePut name svc])
       (bump_services w)).

Lemma createService_eq cfg w :
  createService lib cfg w = Done (handle_of cfg (services_asked w)) (created cfg w).
Proof.
  unfold createService, created, handle_of, Service, bind, gets. simpl.
  destruct (Config_Service lib cfg (services_asked w)); simpl;
    unfold with_trace, with_proxy; simpl; rewrite <- ?app_assoc; reflexivity.
Qed.

Lemma created_news cfg w N :
  news N (created cfg w) = news N w + ind (ProxiedServiceName cfg = N).
Proof.
  unfold news, created. simpl. rewrite !count_app. simpl.
  rewrite ind_bool_decide.
  destruct (Config_Service lib cfg (services_asked w)); simpl; lia.
Qed.

Lemma resolve_registers cfg N :
  steps (registers (fun N' => N' = ProxiedServiceName cfg) N) (resolve lib cfg).
Proof.
  intros w. unfold resolve, bind at 1, gets.
  destruct (services (proxy w) !! ProxiedServiceName cfg) as [svc|] eqn:Hf.
  - reflexivity.
  - unfold bind at 1. rewrite createService_eq.
    etrans; [|apply (steps_bind (registers _ N)); [|intros ?; apply steps_ret, _]].
    + destruct (decide (ProxiedServiceName cfg = N)) as [<-|Hne].
      * right. repeat split; [done| |].
        -- unfold registry, created. simpl. rewrite lookup_insert_eq. eauto.
        -- rewrite created_news. by rewrite ind_True.
      * left. split.
        -- unfold registry, created. simpl. by rewrite lookup_insert_ne.
        -- rewrite created_news. rewrite ind_False by done. lia.
    + intros w'. apply registers_same, announce_registry.
Qed.

Lemma runServiceProxy_registers id cfg N :
  steps (registers (fun N' => N' = ProxiedServiceName cfg) N)
        (runServiceProxy lib id cfg).
Proof.
  intros w. destruct (states w !! id) as [st|] eqn:Hst.
  - rewrite runServiceProxy_present by (rewrite Hst; eauto). reflexivity.
  - rewrite runServiceProxy_absent by done.
    etrans; [|apply (steps_bind (registers _ N))].
    + left. unfold registry, news, entered. simpl. rewrite count_snoc. simpl.
      split; [done|lia].
    + apply resolve_registers.
    + intros svc w'. apply registers_same, launch_registry.
Qed.

(** *** One pass over a snapshot *)

Lemma steps_done {A} (R : relation World) (m : M A) w a w' :
  steps R m -> m w = Done a w' -> R w w'.
Proof. intros H E. specialize (H w). by rewrite E in H. Qed.

Lemma references_list new N :
  references new N
  <-> N ∈ (fun kv : string * Config => ProxiedServiceName kv.2) <$> map_to_list new.
Proof.
  rewrite list_elem_of_fmap. split.
  - intros (id & cfg & H & <-). exists (id, cfg). split; [done|].
    by apply elem_of_map_to_list.
  - intros ([id cfg] & -> & H). exists id, cfg. split; [|done].
    by apply elem_of_map_to_list.
Qed.

Global Instance references_dec new N : Decision (references new N).
Proof.
  refine (cast_if (decide (N ∈ (fun kv : string * Config => ProxiedServiceName kv.2)
                               <$> map_to_list new)));
    by rewrite references_list.
Defined.

(** The provisioning loop of Serve, when it runs to its end. *)
Lemma provision_loop (l : list (string * Config)) w w1 :
  NoDup l.*1 ->
  forM l (fun kv => runServiceProxy lib kv.1 kv.2) w = Done tt w1 ->
  dom (states w1) = dom (states w) ∪ list_to_set l.*1 /\
  forall id', puts id' w1 = puts id' w + ind (id' ∈ l.*1 /\ id' ∉ dom (states w)).
Proof.
  revert w. induction l as [|[id cfg] l IH]; intros w Hnd H.
  - injection H as <-. split; [set_solver|]. intros id'.
    rewrite ind_False; [lia|]. intros [?%elem_of_nil _]. done.
  - simpl in H. apply bind_inv in H as ([] & w0 & H0 & H).
    inversion Hnd as [|?? Hid Hnd']; subst.
    destruct (IH w0 Hnd' H) as [Hdom Hputs].
    pose proof (runServiceProxy_dom id cfg w) as Hd0. rewrite H0 in Hd0.
    simpl in Hd0. split.
    + rewrite Hdom, Hd0. simpl. set_solver.
    + intros id'. rewrite Hputs.
      pose proof (runServiceProxy_puts id cfg id' w) as Hp0. rewrite H0 in Hp0.
      simpl in Hp0. rewrite Hp0, Hd0. rewrite <- Nat.add_assoc. f_equal.
      simpl. unfold ind.
      assert (states w !! id = None <-> id ∉ dom (states w)) as Hnone
        by (by rewrite not_elem_of_dom).
      repeat case_decide; try lia; exfalso; set_solver.
Qed.

Lemma decommission_puts kv id' : steps (same (puts id')) (decommission lib ro kv).
Proof. walk unseen. Qed.

Lemma decommission_registry kv N :
  steps (same (fun w => (registry w, news N w, svc_closes N w)))
        (decommission lib ro kv).
Proof. walk unseen. Qed.

Lemma closing_listeners_quiet (kv : string * proxyState) id' :
  steps (same (fun w => (states w, dels id' w)))
    (log (InfoListenerRemoved kv.1) ;;
     closeListener lib Decommission (listener kv.2) ;;
     forM (range ro (upstreams kv.2))
          (fun u => closeListener lib Decommission (Some u.2))).
Proof. walk unseen. Qed.

Lemma decommission_done kv w w1 :
  decommission lib ro kv w = Done tt w1 ->
  states w1 = delete kv.1 (states w) /\
  forall id', dels id' w1 = dels id' w + ind (id' = kv.1).
Proof.
  intros H. unfold decommission in H.
  apply bind_inv in H as ([] & wa & Ha & H).
  apply bind_inv in H as ([] & wb & Hb & H).
  apply bind_inv in H as ([] & wc & Hc & H).
  simpl in H. injection H as <-.
  assert (forall id', states wc = states w /\ dels id' wc = dels id' w) as Hq.
  { intros id'.
    pose proof (closing_listeners_quiet kv id' w) as Hq. unfold same in Hq.
    unfold bind in Hq. rewrite Ha, Hb, Hc in Hq. simpl in Hq.
    by injection Hq. }
  split.
  - destruct (Hq "") as [Hs _]. unfold states in *. simpl. by rewrite Hs.
  - intros id'. unfold dels. simpl. rewrite count_snoc. simpl.
    rewrite ind_bool_decide. fold (dels id' wc). rewrite (proj2 (Hq id')).
    f_equal. unfold ind. by repeat case_decide.
Qed.

Lemma decommission_loop (l : list (string * proxyState)) w w1 :
  NoDup l.*1 ->
  forM l (decommission lib ro) w = Done tt w1 ->
  (forall k, states w1 !! k = if decide (k ∈ l.*1) then None else states w !! k) /\
  forall id', dels id' w1 = dels id' w + ind (id' ∈ l.*1).
Proof.
  revert w. induction l as [|kv l IH]; intros w Hnd H.
  - injection H as <-. split.
    + intros k. rewrite decide_False; [done|]. apply not_elem_of_nil.
    + intros id'. rewrite ind_False; [lia|]. apply not_elem_of_nil.
  - simpl in H. apply bind_inv in H as ([] & w0 & H0 & H).
    inversion Hnd as [|?? Hid Hnd']; subst.
    destruct (IH w0 Hnd' H) as [Hst Hdels].
    destruct (decommission_done kv w w0 H0) as [Hst0 Hdels0]. split.
    + intros k. rewrite Hst, Hst0. rewrite fmap_cons.
      destruct (decide (k = kv.1)) as [->|Hne].
      * rewrite lookup_delete_eq. rewrite (decide_True (P := _ ∈ _ :: _)) by left.
        by destruct (decide _).
      * rewrite lookup_delete_ne by done.
        destruct (decide (k ∈ l.*1)) as [H1|H1].
        -- rewrite decide_True; [done|]. by right.
        -- rewrite decide_False; [done|]. intros [?|?]%elem_of_cons; done.
    + intros id'. rewrite Hdels, Hdels0. rewrite <- Nat.add_assoc. f_equal.
      rewrite fmap_cons. unfold ind.
      repeat case_decide; try lia; exfalso; set_solver.
Qed.

Lemma retire_quiet kv id N :
  steps (same (fun w => (states w, puts id w, dels id w, news N w)))
        (retire lib kv).
Proof. walk unseen. Qed.

Lemma retire_done kv w w1 :
  retire lib kv w = Done tt w1 ->
  registry w1 = delete kv.1 (registry w) /\
  forall N, svc_closes N w1 = svc_closes N w + ind (N = kv.1).
Proof.
  intros H. unfold retire, closeService, bind in H. simpl in H.
  destruct (Service_Close lib kv.2); simpl in H; [|done].
  injection H as <-. split; [done|]. intros N.
  unfold svc_closes. simpl. rewrite !count_snoc. simpl.
  rewrite ind_bool_decide. rewrite !Nat.add_0_r. f_equal.
  unfold ind. by repeat case_decide.
Qed.

Lemma retire_loop (l : list (string * option sid)) w w1 :
  NoDup l.*1 ->
  forM l (retire lib) w = Done tt w1 ->
  (forall N, registry w1 !! N = if decide (N ∈ l.*1) then None else registry w !! N) /\
  forall N, svc_closes N w1 = svc_closes N w + ind (N ∈ l.*1).
Proof.
  revert w. induction l as [|kv l IH]; intros w Hnd H.
  - injection H as <-. split.
    + intros k. rewrite decide_False; [done|]. apply not_elem_of_nil.
    + intros N. rewrite ind_False; [lia|]. apply not_elem_of_nil.
  - simpl in H. apply bind_inv in H as ([] & w0 & H0 & H).
    inversion Hnd as [|?? Hid Hnd']; subst.
    destruct (IH w0 Hnd' H) as [Hreg Hcl].
    destruct (retire_done kv w w0 H0) as [Hreg0 Hcl0]. split.
    + intros k. rewrite Hreg, Hreg0. rewrite fmap_cons.
      destruct (decide (k = kv.1)) as [->|Hne].
      * rewrite lookup_delete_eq. rewrite (decide_True (P := _ ∈ _ :: _)) by left.
        by destruct (decide _).
      * rewrite lookup_delete_ne by done.
        destruct (decide (k ∈ l.*1)) as [H1|H1].
        -- rewrite decide_True; [done|]. by right.
        -- rewrite decide_False; [done|]. intros [?|?]%elem_of_cons; done.
    + intros N. rewrite Hcl, Hcl0. rewrite <- Nat.add_assoc. f_equal.
      rewrite fmap_cons. unfold ind.
      repeat case_decide; try lia; exfalso; set_solver.
Qed.

(** [removeNotPresent], when it runs to its end: the runtime states of the
    identifiers missing from the snapshot are deleted, each once, and the
    handles of the names no instance of the snapshot refers to are closed
    and deleted, each once. *)
Lemma removeNotPresent_done S w w' :
  removeNotPresent lib ro S w = Done tt w' ->
  (forall k, states w' !! k = if decide (is_Some (S !! k)) then states w !! k else None) /\
  (forall N, registry w' !! N = if decide (references S N) then registry w !! N else None) /\
  (forall id, dels id w' = dels id w + ind (is_Some (states w !! id) /\ S !! id = None)) /\
  (forall N, svc_closes N w'
             = svc_closes N w + ind (is_Some (registry w !! N) /\ ~ references S N)) /\
  (forall id, puts id w' = puts id w) /\
  (forall N, news N w' = news N w).
Proof.
  intros H. unfold removeNotPresent, bind at 1, gets in H.
  apply bind_inv in H as ([] & wd & Hd & H).
  unfold bind, gets in H.
  set (gone := removedProxies ro (proxy w) S) in *.
  set (unused := removedServices ro (proxy wd) S) in *.
  destruct (decommission_loop _ _ _ (range_NoDup gone) Hd) as [Hst Hdels].
  destruct (retire_loop _ _ _ (range_NoDup unused) H) as [Hreg Hcl].
  assert (forall id N, (registry wd, news N wd, svc_closes N wd, puts id wd)
                       = (registry w, news N w, svc_closes N w, puts id w)) as Hqd.
  { intros id N.
    pose proof (steps_done _ _ _ _ _
      (steps_forM (same (fun w => (registry w, news N w, svc_closes N w)))
         (range ro gone) (decommission lib ro)
         (fun kv _ => decommission_registry kv N)) Hd) as E1.
    pose proof (steps_done _ _ _ _ _
      (steps_forM (same (puts id)) (range ro gone) (decommission lib ro)
         (fun kv _ => decommission_puts kv id)) Hd) as E2.
    unfold same in E1, E2. by rewrite E1, E2. }
  assert (forall id N, (states w', puts id w', dels id w', news N w')
                       = (states wd, puts id wd, dels id wd, news N wd)) as Hqr.
  { intros id N.
    exact (steps_done _ _ _ _ _
      (steps_forM (same (fun w => (states w, puts id w, dels id w, news N w)))
         (range ro unused) (retire lib)
         (fun kv _ => retire_quiet kv id N)) H). }
  assert (forall k, k ∈ (range ro gone).*1 <-> is_Some (states w !! k) /\ S !! k = None)
    as Hgone.
  { intros k. rewrite elem_of_range_keys. unfold gone.
    rewrite removedProxies_lookup. fold (states w).
    case_decide as HS.
    - split; [by intros []|]. intros [_ E]. rewrite E in HS. by destruct HS.
    - split; [|by intros []]. intros Hs. split; [done|].
      destruct (S !! k); [|done]. exfalso. apply HS. eauto. }
  assert (forall N, N ∈ (range ro unused).*1
                    <-> is_Some (registry w !! N) /\ ~ references S N) as Hunused.
  { intros N. rewrite elem_of_range_keys. unfold unused.
    destruct (decide (references S N)) as [Hr|Hr].
    - rewrite removedServices_referenced by done.
      split; [by intros []|]. by intros [_ ?].
    - rewrite removedServices_unreferenced by done. fold (registry wd).
      pose proof (Hqd "" N) as [= -> _ _ _]. tauto. }
  repeat split.
  - intros k. pose proof (Hqr "" "") as [= -> _ _ _]. rewrite Hst.
    destruct (decide (k ∈ (range ro gone).*1)) as [Hin|Hin].
    + apply Hgone in Hin as [_ E]. rewrite decide_False; [done|].
      rewrite E. by intros [].
    + case_decide as HS; [done|]. symmetry.
      destruct (states w !! k) eqn:E; [|done]. exfalso. apply Hin, Hgone.
      split; [eauto|]. destruct (S !! k); [|done]. exfalso. apply HS. eauto.
  - intros N. rewrite Hreg. pose proof (Hqd "" N) as [= -> _ _ _].
    destruct (decide (N ∈ (range ro unused).*1)) as [Hin|Hin].
    + apply Hunused in Hin as [_ E]. by rewrite decide_False.
    + case_decide as Hr; [done|]. symmetry.
      destruct (registry w !! N) eqn:E; [|done]. exfalso. apply Hin, Hunused.
      split; [eauto|done].
  - intros id. pose proof (Hqr id "") as [= _ _ -> _]. rewrite Hdels. f_equal.
    unfold ind. specialize (Hgone id). repeat case_decide; tauto.
  - intros N. rewrite Hcl. pose proof (Hqd "" N) as [= _ _ -> _]. f_equal.
    unfold ind. specialize (Hunused N). repeat case_decide; tauto.
  - intros id. pose proof (Hqr id "") as [= _ -> _ _].
    by pose proof (Hqd id "") as [= _ _ _ ->].
  - intros N. pose proof (Hqr "" N) as [= _ _ _ ->].
    by pose proof (Hqd "" N) as [= _ -> _ _].
Qed.

Lemma registers_mono (names names' : string -> Prop) N w w' :
  (names N -> names' N) -> registers names N w w' -> registers names' N w w'.
Proof. intros Hn [H|(Ha & Hb & Hc & Hd)]; [by left|right; auto]. Qed.

Lemma range_keys_dom {A} (m : gmap string A) :
  list_to_set (range ro m).*1 = dom m.
Proof.
  apply set_eq. intros k. rewrite elem_of_list_to_set, elem_of_range_keys.
  by rewrite elem_of_dom.
Qed.

(** The provisioning loop over a snapshot, when it runs to its end. *)
Lemma provisioning_done S w w1 :
  forM (range ro S) (fun kv => runServiceProxy lib kv.1 kv.2) w = Done tt w1 ->
  dom (states w1) = dom (states w) ∪ dom S /\
  (forall id, puts id w1 = puts id w + ind (id ∈ dom S /\ id ∉ dom (states w))) /\
  (forall id, dels id w1 = dels id w) /\
  (forall N, svc_closes N w1 = svc_closes N w) /\
  (forall id, kept id w w1) /\
  (forall N, registers (references S) N w w1).
Proof.
  intros H.
  destruct (provision_loop _ _ _ (range_NoDup S) H) as [Hdom Hputs].
  rewrite range_keys_dom in Hdom. repeat split.
  - done.
  - intros id. rewrite Hputs. f_equal. unfold ind.
    pose proof (elem_of_range_keys S id) as Hk. rewrite <- elem_of_dom in Hk.
    repeat case_decide; tauto.
  - intros id. refine (steps_done _ _ _ _ _ (steps_forM (same (dels id)) _ _ _) H).
    intros kv _. apply runServiceProxy_dels.
  - intros N. refine (steps_done _ _ _ _ _ (steps_forM (same (svc_closes N)) _ _ _) H).
    intros kv _. apply runServiceProxy_svc_closes.
  - intros id. refine (steps_done _ _ _ _ _ (steps_forM (kept id) _ _ _) H).
    intros kv _. apply runServiceProxy_kept.
  - intros N.
    refine (steps_done _ _ _ _ _ (steps_forM (registers (references S) N) _ _ _) H).
    intros [id cfg] Hin w0. eapply registers_mono; [|apply runServiceProxy_registers].
    simpl. intros ->. exists id, cfg. split; [|done]. by apply elem_of_range.
Qed.

(** One snapshot, applied to its end: what it provisions, decommissions,
    keeps, closes and registers. *)
Lemma Serve_config_done S w w' :
  Serve_config lib ro S w = Done tt w' ->
  dom (states w') = dom S /\
  (forall id, puts id w' = puts id w + ind (id ∈ dom S /\ id ∉ dom (states w))) /\
  (forall id, dels id w' = dels id w + ind (id ∈ dom (states w) /\ id ∉ dom S)) /\
  (forall id, id ∈ dom S -> kept id w w') /\
  (forall N, svc_closes N w'
             = svc_closes N w + ind (is_Some (registry w !! N) /\ ~ references S N)) /\
  (forall N, is_Some (registry w' !! N) -> references S N) /\
  (forall N, references S N -> registers (references S) N w w').
Proof.
  intros H. unfold Serve_config in H.
  apply bind_inv in H as ([] & wl & Hl & H). injection Hl as <-.
  apply bind_inv in H as ([] & wp & Hp & H).
  set (wl := with_trace (fun t => t ++ [Log DebugGotNewConfig]) w) in *.
  assert (states wl = states w) as Es by done.
  assert (registry wl = registry w) as Er by done.
  assert (forall id, puts id wl = puts id w) as Epu
    by (intros; unfold puts, wl; simpl; rewrite count_snoc; simpl; lia).
  assert (forall id, dels id wl = dels id w) as Ede
    by (intros; unfold dels, wl; simpl; rewrite count_snoc; simpl; lia).
  assert (forall N, news N wl = news N w) as Ene
    by (intros; unfold news, wl; simpl; rewrite count_snoc; simpl; lia).
  assert (forall N, svc_closes N wl = svc_closes N w) as Ecl
    by (intros; unfold svc_closes, wl; simpl; rewrite count_snoc; simpl; lia).
  destruct (provisioning_done S wl wp Hp) as (Pdom & Pputs & Pdels & Pcl & Pkept & Preg).
  destruct (removeNotPresent_done S wp w' H) as (Rst & Rreg & Rdels & Rcl & Rputs & Rnews).
  rewrite Es in Pdom.
  assert (forall k, k ∈ dom S <-> is_Some (S !! k)) as HS by (intros; apply elem_of_dom).
  assert (forall k, S !! k = None <-> k ∉ dom S) as HS'
    by (intros; by rewrite not_elem_of_dom).
  repeat split.
  - apply set_eq. intros k. rewrite (elem_of_dom (states w')), Rst.
    case_decide as Hk.
    + rewrite <- (elem_of_dom (states wp)), Pdom. apply HS in Hk. set_solver.
    + rewrite <- HS in Hk. split; [by intros []|done].
  - intros id. by rewrite Rputs, Pputs, Epu, Es.
  - intros id. rewrite Rdels, Pdels, Ede. f_equal.
    unfold ind. specialize (HS' id).
    assert (is_Some (states wp !! id) <-> id ∈ dom (states w) ∪ dom S) as Hwp
      by (by rewrite <- Pdom, elem_of_dom).
    repeat case_decide; try done; exfalso; set_solver.
  - intros id Hid Hs. rewrite Rst. rewrite decide_True by (by apply HS).
    rewrite <- Es. apply Pkept. by rewrite Es.
  - intros N. rewrite Rcl, Pcl, Ecl. f_equal.
    unfold ind. destruct (Preg N) as [[E _]|(_ & _ & Hr & _)].
    + rewrite E, Er. by repeat case_decide.
    + repeat case_decide; tauto.
  - intros N Hs. rewrite Rreg in Hs. case_decide; [done|by destruct Hs].
  - intros N Hr.
    assert (registers (references S) N w wl) as H1.
    { left. by rewrite Er, Ene. }
    assert (registers (references S) N wp w') as H2.
    { left. rewrite Rreg, Rnews. by rewrite decide_True. }
    etrans; [exact H1|]. etrans; [apply Preg|exact H2].
Qed.

(** *** What happens between two snapshots *)

(** The actions that are not Serve's own: a goroutine runs, the host calls
    Close. *)
Definition background (a : action) : Prop :=
  match a with
  | Sched _ | HostClose => True
  | _ => False
  end.

Lemma touches_mono (who who' : string -> Prop) w w' :
  (forall id, who id -> who' id) -> touches who w w' -> touches who' w w'.
Proof.
  intros Hw (Hc & Hs & H). split; [done|]. split; [done|]. intros id.
  destruct (H id) as [st st' (Ha & Hb & Hl)|]; constructor.
  split; [done|]. split; [done|]. destruct Hl; auto.
Qed.

Lemma touches_dom who w w' : touches who w w' -> dom (states w') = dom (states w).
Proof.
  intros (_ & _ & H). apply set_eq. intros id. rewrite !elem_of_dom.
  unfold states. destruct (H id); split; intros [? ?]; eauto; done.
Qed.

Lemma run_task_anywhere t : steps (touches (fun _ => True)) (run_task lib t).
Proof. intros w. eapply touches_mono; [|apply run_task_touches]. done. Qed.

Lemma run_task_dom t : steps (same (fun w => dom (states w))) (run_task lib t).
Proof. intros w. eapply touches_dom, run_task_anywhere. Qed.

Lemma background_dom a :
  background a -> steps (same (fun w => dom (states w))) (step lib ro a).
Proof.
  destruct a as [S| | |n]; intros Hb; try done.
  - walk unseen.
  - walk ltac:(first [apply run_task_dom | unseen]).
Qed.

Lemma step_serving a :
  a <> RecvStop -> steps (same serving) (step lib ro a).
Proof. destruct a as [S| | |n]; intros Hb; try done; walk unseen. Qed.

Lemma background_run sched w w' :
  Forall background sched ->
  run lib ro sched w = Done tt w' ->
  dom (states w') = dom (states w) /\ serving w' = serving w.
Proof.
  intros Hb H. split.
  - refine (steps_done _ _ _ _ _ (steps_forM (same (fun w => dom (states w))) _ _ _) H).
    intros a Ha. apply background_dom. by eapply (proj1 (Forall_forall _ _)).
  - refine (steps_done _ _ _ _ _ (steps_forM (same serving) _ _ _) H).
    intros a Ha. apply step_serving. intros ->.
    by apply (proj1 (Forall_forall _ _) Hb) in Ha.
Qed.

Lemma step_RecvConfig S w :
  serving w = true -> step lib ro (RecvConfig S) w = Serve_config lib ro S w.
Proof. intros H. unfold step, bind, gets. by rewrite H. Qed.

(** X16. Snapshot [S1] is applied, goroutines run and the host may call
    Close, then snapshot [S2] is applied, each to its end. While [S2] is
    applied, an identifier of [S2] that is not in [S1] gets its runtime
    state created once, an identifier of [S1] that is not in [S2] gets its
    runtime state deleted once, and for an identifier of both neither
    happens and its runtime state is left as it was. Provisioning an
    identifier that has a runtime state changes nothing at all. *)
Theorem snapshots_provision_and_decommission_once S1 S2 between w0 w1 w1' w2 :
  serving w0 = true ->
  step lib ro (RecvConfig S1) w0 = Done tt w1 ->
  Forall background between ->
  run lib ro between w1 = Done tt w1' ->
  step lib ro (RecvConfig S2) w1' = Done tt w2 ->
  forall id,
    puts id w2 = puts id w1' + ind (id ∈ dom S2 /\ id ∉ dom S1) /\
    dels id w2 = dels id w1' + ind (id ∈ dom S1 /\ id ∉ dom S2) /\
    (id ∈ dom S1 -> id ∈ dom S2 -> states w2 !! id = states w1' !! id) /\
    (forall cfg w, is_Some (states w !! id) ->
                   runServiceProxy lib id cfg w = Done tt w).
Proof.
  intros Hs0 H1 Hb Hrun H2 id.
  rewrite step_RecvConfig in H1 by done.
  assert (serving w1 = true) as Hs1.
  { rewrite <- Hs0. symmetry.
    rewrite <- (step_serving (RecvConfig S1) ltac:(done) w0).
    by rewrite step_RecvConfig, H1. }
  destruct (background_run _ _ _ Hb Hrun) as [Hdom Hs1'].
  rewrite step_RecvConfig in H2 by congruence.
  destruct (Serve_config_done S1 w0 w1 H1) as (D1 & _).
  destruct (Serve_config_done S2 w1' w2 H2) as (_ & P2 & X2 & K2 & _).
  rewrite Hdom, D1 in P2, X2. repeat split.
  - apply P2.
  - apply X2.
  - intros Hi1 Hi2. apply K2; [done|]. apply elem_of_dom. by rewrite Hdom, D1.
  - intros cfg w. apply runServiceProxy_present.
Qed.

(** X17. A snapshot is applied to its end. The handle registered for a
    service name is closed during the pass, once, exactly when no instance
    of the snapshot refers to the name, and not at all otherwise; after the
    pass the registry holds entries only for names the snapshot refers to;
    and the entry of a name the snapshot refers to is the one it was. *)
Theorem handle_closed_iff_unreferenced S w w' :
  serving w = true ->
  step lib ro (RecvConfig S) w = Done tt w' ->
  forall N,
    svc_closes N w'
    = svc_closes N w + ind (is_Some (registry w !! N) /\ ~ references S N) /\
    (is_Some (registry w' !! N) -> references S N) /\
    (references S N -> is_Some (registry w !! N) ->
     registry w' !! N = registry w !! N).
Proof.
  intros Hs H N. rewrite step_RecvConfig in H by done.
  destruct (Serve_config_done S w w' H) as (_ & _ & _ & _ & C & R & G).
  repeat split; [apply C|apply R|].
  intros Hr Hin. destruct (G N Hr) as [[E _]|(E & _)]; [done|].
  rewrite E in Hin. by destruct Hin.
Qed.

(** *** Handles are created once *)

Ltac as_steps :=
  match goal with
  | |- ?R ?w (world_of (?m ?w)) =>
      let H := fresh in assert (steps R m) as H; [|exact (H w)]
  end.

Lemma registers_entry names N w w' :
  same (fun w => (registry w !! N, news N w)) w w' -> registers names N w w'.
Proof. unfold same. intros [= H1 H2]. left. by rewrite H1, H2. Qed.

Lemma retire_other kv N :
  kv.1 <> N -> steps (same (fun w => (registry w !! N, news N w))) (retire lib kv).
Proof.
  intros Hne.
  walk ltac:(first
    [ unseen
    | apply steps_modify; intros ?; unfold same, registry; simpl;
      by rewrite lookup_delete_ne ]).
Qed.

Lemma removeNotPresent_registers S N :
  references S N -> steps (registers (fun _ => True) N) (removeNotPresent lib ro S).
Proof.
  intros Hr w. unfold removeNotPresent, bind at 1, gets.
  apply (steps_bind (registers _ N)).
  - intros w0. apply registers_same.
    apply (steps_forM (same (fun w => (registry w, news N w)))).
    intros kv _ w1. pose proof (decommission_registry kv N w1) as H.
    unfold same in *. congruence.
  - intros [] w0. unfold bind, gets. apply (steps_forM (registers _ N)).
    intros kv Hin. intros w1. apply registers_entry, retire_other.
    intros <-. destruct kv as [k v]. apply elem_of_range in Hin.
    rewrite removedServices_referenced in Hin by done. done.
Qed.

Lemma Serve_config_registers S N :
  references S N -> steps (registers (fun _ => True) N) (Serve_config lib ro S).
Proof.
  intros Hr. unfold Serve_config.
  apply steps_bind; [apply _| |intros _; apply steps_bind; [apply _| |intros _]].
  - intros w. apply registers_same. as_steps. walk unseen.
  - apply steps_forM; [apply _|]. intros kv _ w.
    eapply registers_mono; [|apply runServiceProxy_registers]. done.
  - by apply removeNotPresent_registers.
Qed.

Lemma step_registers a N :
  (forall S, a = RecvConfig S -> references S N) ->
  steps (registers (fun _ => True) N) (step lib ro a).
Proof.
  intros Ha. destruct a as [S| | |n].
  - intros w. unfold step, bind, gets. destruct (serving w); [|reflexivity].
    apply Serve_config_registers. by apply Ha.
  - intros w. apply registers_same. as_steps. walk unseen.
  - intros w. apply registers_same. as_steps. walk unseen.
  - intros w. apply registers_same. as_steps. walk unseen.
Qed.

(** C4. Over any schedule whose snapshots all refer to the service name
    [N], whether it runs to its end or panics on the way, a handle for [N]
    is asked for at most once; and when the registry has an entry for [N]
    at the start, no handle is asked for and the entry stays the one it
    was. The registry is a map: it has at most one entry for [N]. *)
Theorem handle_created_at_most_once sched N w :
  Forall (fun a => forall S, a = RecvConfig S -> references S N) sched ->
  let w' := world_of (run lib ro sched w) in
  news N w' <= news N w + 1 /\
  (is_Some (registry w !! N) ->
   news N w' = news N w /\ registry w' !! N = registry w !! N).
Proof.
  intros Hall w'.
  assert (registers (fun _ => True) N w w') as H.
  { apply (steps_forM (registers _ N)). intros a Ha. apply step_registers.
    by apply (proj1 (Forall_forall _ _) Hall). }
  destruct H as [[E1 E2]|(E1 & E2 & _ & E3)].
  - split; [lia|done].
  - split; [lia|]. intros Hin. rewrite E1 in Hin. by destruct Hin.
Qed.

(** C10. When the identity service refuses the handle of a new instance's
    service name, which has no entry yet, nil is stored in the registry
    under that name, whether the rest of the provisioning then returns or
    panics. And provisioning any instance whose service name has an entry,
    nil or not, asks for no handle and leaves the entry as it is. *)
Theorem failed_handle_is_registered id cfg w :
  states w !! id = None ->
  registry w !! ProxiedServiceName cfg = None ->
  Config_Service lib cfg (services_asked w) = false ->
  registry (world_of (runServiceProxy lib id cfg w)) !! ProxiedServiceName cfg
  = Some None /\
  forall id2 cfg2 w2,
    is_Some (registry w2 !! ProxiedServiceName cfg2) ->
    let w3 := world_of (runServiceProxy lib id2 cfg2 w2) in
    news (ProxiedServiceName cfg2) w3 = news (ProxiedServiceName cfg2) w2 /\
    registry w3 !! ProxiedServiceName cfg2 = registry w2 !! ProxiedServiceName cfg2.
Proof.
  intros Hid Hreg Hfail. split.
  - rewrite runServiceProxy_absent by done.
    unfold bind at 1, resolve, bind at 1, gets.
    change (services (proxy (entered id cfg w))) with (registry w).
    rewrite Hreg. unfold bind at 1. rewrite createService_eq.
    set (w1 := created cfg (entered id cfg w)).
    assert (registry w1 !! ProxiedServiceName cfg = Some None) as H1.
    { unfold w1, registry, created, handle_of. simpl. rewrite Hfail.
      apply lookup_insert_eq. }
    rewrite <- H1. f_equal.
    set (k := fun svc => bind (announce lib cfg svc) (fun _ => ret svc)).
    assert (forall svc, steps (same (fun w => (registry w, news "" w)))
              (bind (k svc) (launch lib id cfg))) as Hq.
    { intros svc. unfold k. walk unseen. }
    specialize (Hq (handle_of cfg (services_asked (entered id cfg w))) w1).
    unfold same in Hq. by injection Hq.
  - intros id2 cfg2 w2 Hin w3.
    destruct (runServiceProxy_registers id2 cfg2 (ProxiedServiceName cfg2) w2)
      as [[E1 E2]|(E1 & _)]; [done|].
    rewrite E1 in Hin. by destruct Hin.
Qed.

(** *** Listeners and their stop watchers *)

Definition is_start (l : lid) (e : event) : bool :=
  match e with
  | Go (GoServe _ l') => bool_decide (l' = l)
  | _ => false
  end.

Definition is_watch_close (l : lid) (e : event) : bool :=
  match e with
  | CallListenerClose StopWatcher (Some l') => bool_decide (l' = l)
  | _ => false
  end.

Definition is_sync_close (l : lid) (e : event) : bool :=
  match e with
  | CallListenerClose Decommission (Some l') => bool_decide (l' = l)
  | _ => false
  end.

Definition is_watcher (l : lid) (t : task) : bool :=
  match t with
  | GoStopWatch l' => bool_decide (l' = l)
  | _ => false
  end.

(** Times [startListener] was called on [l]; times the stop watcher of [l],
    and the decommission path, called [l.Close()]; stop watchers of [l]
    that are pending. *)
Definition starts (l : lid) (w : World) : nat := count (is_start l) (trace w).
Definition watch_closes (l : lid) (w : World) : nat :=
  count (is_watch_close l) (trace w).
Definition sync_closes (l : lid) (w : World) : nat :=
  count (is_sync_close l) (trace w).
Definition watchers (l : lid) (w : World) : nat :=
  length (List.filter (is_watcher l) (goroutines w)).

(** Every start is matched by a pending stop watcher or by a close that a
    stop watcher made. *)
Definition balance (l : lid) (w : World) : Z :=
  (Z.of_nat (starts l w) - Z.of_nat (watchers l w) - Z.of_nat (watch_closes l w))%Z.

Lemma startListener_balance name l' l :
  steps (same (balance l)) (startListener lib name l').
Proof.
  intros w. rewrite startListener_eq. unfold same, balance, starts, watchers,
    watch_closes, started. simpl.
  rewrite !count_snoc, List.filter_app, !length_app. simpl.
  rewrite List.filter_app, !length_app. simpl.
  destruct (bool_decide (l' = l)); simpl; lia.
Qed.

Ltac balanced :=
  idtac;
  match goal with
  | |- steps (same _) (startListener _ _ _) => apply startListener_balance
  | |- steps (same _) (emit _) =>
      intros ?; unfold same, balance, starts, watchers, watch_closes;
      simpl; rewrite ?count_snoc; simpl; rewrite ?Nat.add_0_r; reflexivity
  | |- steps (same _) (modify _) =>
      intros ?; unfold same, balance, starts, watchers, watch_closes;
      simpl; rewrite ?List.filter_app, ?length_app; simpl;
      rewrite ?Nat.add_0_r; reflexivity
  end.

Lemma publicListener_balance id cfg svc l :
  steps (same (balance l)) (publicListener lib id cfg svc).
Proof. walk balanced. Qed.

Lemma filter_delete_length {A} (φ : A -> bool) (g : list A) n t :
  g !! n = Some t ->
  length (List.filter φ g)
  = length (List.filter φ (delete n g)) + (if φ t then 1 else 0).
Proof.
  revert n. induction g as [|a g IH]; intros n H; [done|].
  destruct n as [|n]; simpl in *.
  - injection H as ->. destruct (φ t); simpl; lia.
  - specialize (IH n H). destruct (φ a); simpl; lia.
Qed.

Lemma step_balance a l : steps (same (balance l)) (step lib ro a).
Proof.
  destruct a as [S| | |n]; [walk balanced|walk balanced|walk balanced|].
  intros w. unfold step, bind at 1, gets.
  destruct (goroutines w !! n) as [t|] eqn:Ht; [|reflexivity].
  unfold bind at 1, gets. destruct (runnable t w); [|reflexivity].
  unfold bind at 1. simpl.
  set (w1 := with_goroutines (delete n) w).
  assert (watchers l w = watchers l w1 + (if is_watcher l t then 1 else 0)) as Hw
    by (by apply filter_delete_length).
  assert (starts l w1 = starts l w /\ watch_closes l w1 = watch_closes l w)
    as [Hs Hc] by done.
  assert (is_watcher l t = false -> same (balance l) w w1) as Hsame.
  { intros E. unfold same, balance. rewrite Hs, Hc, Hw, E. lia. }
  destruct t as [id cfg svc|name l'|l'].
  - trans w1; [by apply Hsame|apply publicListener_balance].
  - trans w1; [by apply Hsame|]. simpl. as_steps. walk balanced.
  - simpl. unfold closeListener, bind, emit, modify.
    assert (forall c : call unit,
              balance l (world_of (lift c
                (with_trace (fun t => t ++ [CallListenerClose StopWatcher (Some l')]) w1)))
              = balance l w) as Hb.
    { intros c. destruct c; simpl; unfold balance, starts, watchers, watch_closes in *;
        simpl; rewrite !count_snoc; simpl in *; rewrite Hw;
        destruct (bool_decide (l' = l)); simpl; lia. }
    unfold same. specialize (Hb (Listener_Close lib (Some l'))).
    destruct (Listener_Close lib (Some l')); exact Hb.
Qed.

(** A listener is started at most once, and not before it is made. *)
Definition once_each (w : World) : Prop :=
  forall l, starts l w <= 1 /\ (listeners_made w <= l -> starts l w = 0).

Definition keeps_once : relation World := fun w w' => once_each w -> once_each w'.

Global Instance keeps_once_preorder : PreOrder keeps_once.
Proof.
  split; [intros w H; exact H|].
  intros w1 w2 w3 H1 H2 Hf. apply H2, H1, Hf.
Qed.

Lemma once_new_start {B} name (k : lid -> option string -> M B) :
  (forall l err, steps keeps_once (k l err)) ->
  steps keeps_once
    (let* l := NewListener in
     let* err := startListener lib name l in
     k l err).
Proof.
  intros Hk w. unfold bind at 1, NewListener, bind at 1, gets. simpl.
  unfold bind at 1. rewrite startListener_eq.
  etrans; [|apply Hk]. intros Hf l. specialize (Hf l).
  unfold starts, started in *. simpl. rewrite !count_snoc. simpl.
  case_bool_decide as E; [subst|]; lia.
Qed.

Ltac singly :=
  idtac;
  match goal with
  | |- steps keeps_once (bind NewListener _) =>
      apply once_new_start; intros ? ?
  | |- steps keeps_once (emit _) =>
      let l := fresh "l" in
      let Hf := fresh "Hf" in
      intros ? Hf l; specialize (Hf l); unfold starts in *; simpl;
      rewrite ?count_snoc; simpl; rewrite ?Nat.add_0_r; exact Hf
  | |- steps keeps_once (modify _) =>
      let Hf := fresh "Hf" in intros ? Hf; exact Hf
  end.

Lemma step_once a : steps keeps_once (step lib ro a).
Proof. destruct a; walk singly. Qed.

Lemma run_balance sched l : steps (same (balance l)) (run lib ro sched).
Proof. apply steps_forM; [apply _|]. intros a _. apply step_balance. Qed.

Lemma run_once sched : steps keeps_once (run lib ro sched).
Proof. apply steps_forM; [apply _|]. intros a _. apply step_once. Qed.

Lemma boot_once : once_each boot.
Proof. intros l. split; [unfold starts; simpl; lia|done]. Qed.

Lemma listeners_closed_by_watchers sched w l :
  w = world_of (run lib ro sched boot) ->
  starts l w <= 1 /\
  starts l w = watchers l w + watch_closes l w.
Proof.
  intros ->. split.
  - apply (run_once sched boot boot_once l).
  - pose proof (run_balance sched l boot) as H. unfold same, balance in H.
    change (starts l boot) with 0 in H. change (watchers l boot) with 0 in H.
    change (watch_closes l boot) with 0 in H. lia.
Qed.

(** *** The decommission path closes a listener at most once *)

(** [ensures R m]: when [m] returns, it has moved the world along [R]. *)
Definition ensures {A} (R : relation World) (m : M A) : Prop :=
  forall w a w', m w = Done a w' -> R w w'.

Lemma ensures_bind {A B} R `{!PreOrder R} (m : M A) (k : A -> M B) :
  ensures R m -> (forall a, ensures R (k a)) -> ensures R (bind m k).
Proof.
  intros Hm Hk w b w2 H. apply bind_inv in H as (a & w1 & H1 & H2).
  etrans; [by eapply Hm|by eapply Hk].
Qed.

Lemma ensures_forM {A} R `{!PreOrder R} (l : list A) (f : A -> M unit) :
  (forall a, a ∈ l -> ensures R (f a)) -> ensures R (forM l f).
Proof.
  induction l as [|a l IH]; intros H; simpl.
  - intros w [] w' [= <-]. reflexivity.
  - apply ensures_bind; [apply _|apply H; left|intros _; apply IH].
    intros b Hb. apply H. by right.
Qed.

(** [holds st l]: the runtime state records listener [l]. *)
Definition holds (st : proxyState) (l : lid) : Prop :=
  listener st = Some l \/ exists key, upstreams st !! key = Some l.

(** No listener is recorded twice in a runtime state. *)
Definition tidy (st : proxyState) : Prop :=
  (forall k1 k2 l, upstreams st !! k1 = Some l -> upstreams st !! k2 = Some l ->
                   k1 = k2) /\
  (forall k l, listener st = Some l -> upstreams st !! k = Some l -> False).

(** A recorded listener was made and has not been closed by the
    decommission path; no listener is recorded in two places; the
    decommission path has closed no listener twice, and none that was not
    made. *)
Record recorded_once (w : World) : Prop := {
  held_open : forall id st l,
    states w !! id = Some st -> holds st l ->
    l < listeners_made w /\ sync_closes l w = 0;
  held_apart : forall id1 id2 st1 st2 l,
    states w !! id1 = Some st1 -> states w !! id2 = Some st2 ->
    holds st1 l -> holds st2 l -> id1 = id2;
  held_tidy : forall id st, states w !! id = Some st -> tidy st;
  closed_once : forall l,
    sync_closes l w <= 1 /\ (listeners_made w <= l -> sync_closes l w = 0)
}.

Definition keeps_recorded : relation World :=
  fun w w' => recorded_once w -> recorded_once w'.

Global Instance keeps_recorded_preorder : PreOrder keeps_recorded.
Proof.
  split; [intros w H; exact H|].
  intros w1 w2 w3 H1 H2 Hf. apply H2, H1, Hf.
Qed.

Lemma recorded_quiet w w' :
  (forall l, same (fun w => (states w, listeners_made w, sync_closes l w)) w w') ->
  keeps_recorded w w'.
Proof.
  intros Hq [H1 H2 H3 H4].
  assert (states w' = states w) as Es by (specialize (Hq 0); unfold same in Hq; congruence).
  assert (listeners_made w' = listeners_made w) as El
    by (specialize (Hq 0); unfold same in Hq; congruence).
  assert (forall l, sync_closes l w' = sync_closes l w) as Ec
    by (intros l; specialize (Hq l); unfold same in Hq; congruence).
  split.
  - intros id st l. rewrite Es, El, Ec. apply H1.
  - intros id1 id2 st1 st2 l. rewrite Es. apply H2.
  - intros id st. rewrite Es. apply H3.
  - intros l. rewrite El, Ec. apply H4.
Qed.

Lemma boot_recorded : recorded_once boot.
Proof.
  assert (forall id, states boot !! id = None) as E by (intros; apply lookup_empty).
  split.
  - intros id st l H. by rewrite E in H.
  - intros id1 id2 st1 st2 l H. by rewrite E in H.
  - intros id st H. by rewrite E in H.
  - intros l. split; [unfold sync_closes; simpl; lia|done].
Qed.

(** A listener that was just made is recorded in an existing runtime state. *)
Lemma recorded_fresh w w' id st st' :
  recorded_once w ->
  states w !! id = Some st ->
  states w' = <[id := st']> (states w) ->
  listeners_made w' = S (listeners_made w) ->
  (forall l, sync_closes l w' = sync_closes l w) ->
  (forall l, holds st' l -> l = listeners_made w \/ holds st l) ->
  tidy st' ->
  recorded_once w'.
Proof.
  intros [H1 H2 H3 H4] Hst Es El Ec Hh Ht.
  assert (forall id' s l, states w' !! id' = Some s -> holds s l ->
            (id' = id /\ l = listeners_made w) \/
            (exists s0, states w !! id' = Some s0 /\ holds s0 l)) as Hold.
  { intros id' s l Hs Hl. rewrite Es in Hs.
    destruct (decide (id' = id)) as [->|Hne].
    - rewrite lookup_insert_eq in Hs. injection Hs as <-.
      destruct (Hh l Hl) as [->|Hl']; [by left|]. right. eauto.
    - rewrite lookup_insert_ne in Hs by done. right. eauto. }
  split.
  - intros id' s l Hs Hl. rewrite El, Ec.
    destruct (Hold id' s l Hs Hl) as [[-> ->]|(s0 & Hs0 & Hl0)].
    + split; [lia|]. by apply H4.
    + destruct (H1 id' s0 l Hs0 Hl0). split; [lia|done].
  - intros id1 id2 s1 s2 l Hs1 Hs2 Hl1 Hl2.
    destruct (Hold id1 s1 l Hs1 Hl1) as [[E1 E1']|(s0 & Hs0 & Hl0)];
      destruct (Hold id2 s2 l Hs2 Hl2) as [[E2 E2']|(s0' & Hs0' & Hl0')].
    + congruence.
    + destruct (H1 id2 s0' _ Hs0' Hl0'). lia.
    + destruct (H1 id1 s0 _ Hs0 Hl0). lia.
    + by eapply H2.
  - intros id' s Hs. rewrite Es in Hs.
    destruct (decide (id' = id)) as [->|Hne].
    + rewrite lookup_insert_eq in Hs. by injection Hs as <-.
    + rewrite lookup_insert_ne in Hs by done. by eapply H3.
  - intros l. rewrite El, Ec. destruct (H4 l). split; [done|]. intros. auto with lia.
Qed.

Lemma recorded_enter id cfg w :
  states w !! id = None -> keeps_recorded w (entered id cfg w).
Proof.
  intros Hid [H1 H2 H3 H4].
  assert (forall l, sync_closes l (entered id cfg w) = sync_closes l w) as Ec.
  { intros l. unfold sync_closes, entered. simpl. rewrite count_snoc. simpl. lia. }
  assert (forall id' s, states (entered id cfg w) !! id' = Some s ->
            (forall l, ~ holds s l) \/ states w !! id' = Some s) as Hold.
  { intros id' s Hs. unfold states, entered in Hs. simpl in Hs.
    destruct (decide (id' = id)) as [->|Hne].
    - rewrite lookup_insert_eq in Hs. injection Hs as <-. left.
      intros l [Hl|[k Hl]]; [done|]. simpl in Hl. by rewrite lookup_empty in Hl.
    - rewrite lookup_insert_ne in Hs by done. by right. }
  split.
  - intros id' s l Hs Hl. rewrite Ec.
    destruct (Hold id' s Hs) as [Hn|Hs0]; [by destruct (Hn l)|]. by eapply H1.
  - intros id1 id2 s1 s2 l Hs1 Hs2 Hl1 Hl2.
    destruct (Hold id1 s1 Hs1) as [Hn|Hs1']; [by destruct (Hn l)|].
    destruct (Hold id2 s2 Hs2) as [Hn|Hs2']; [by destruct (Hn l)|].
    by eapply H2.
  - intros id' s Hs. destruct (Hold id' s Hs) as [Hn|Hs0]; [|by eapply H3].
    split.
    + intros k1 k2 l Hl. destruct (Hn l). right. eauto.
    + intros k l Hl. destruct (Hn l). by left.
  - intros l. rewrite Ec. apply H4.
Qed.

Lemma startUpstream_done id svc uc w w' :
  startUpstream lib id svc uc w = Done tt w' ->
  exists st,
    states w !! id = Some st /\
    states w'
    = <[id := {| config := config st; listener := listener st;
                 upstreams := <[UpstreamConfig_String lib uc := listeners_made w]>
                                (upstreams st) |}]> (states w) /\
    listeners_made w' = S (listeners_made w) /\
    forall l, sync_closes l w' = sync_closes l w.
Proof.
  unfold startUpstream, NewListener, write_upstream, put_state, bind, gets. simpl.
  fold (states w). destruct (states w !! id) as [st|]; simpl; [|done].
  intros [= <-]. exists st. repeat split.
  intros l. unfold sync_closes. simpl. rewrite !count_snoc. simpl. lia.
Qed.

Lemma publicListener_done id cfg svc w w' :
  publicListener lib id cfg svc w = Done tt w' ->
  exists st,
    states w !! id = Some st /\
    states w'
    = <[id := {| config := config st; listener := Some (listeners_made w);
                 upstreams := upstreams st |}]> (states w) /\
    listeners_made w' = S (listeners_made w) /\
    forall l, sync_closes l w' = sync_closes l w.
Proof.
  unfold publicListener, waitSVC, NewListener, write_listener, put_state, bind,
    gets. simpl.
  destruct (ReadyWait lib svc) as [[]|]; simpl; [| |done];
    fold (states w); (destruct (states w !! id) as [st|]; simpl; [|done]);
    intros [= <-]; exists st; repeat split;
    intros l; unfold sync_closes; simpl; rewrite !count_snoc; simpl; lia.
Qed.

Lemma startUpstream_recorded id svc uc :
  ensures keeps_recorded (startUpstream lib id svc uc).
Proof.
  intros w [] w' H Hinv.
  destruct (startUpstream_done _ _ _ _ _ H) as (st & Hst & Es & El & Ec).
  eapply recorded_fresh; try done.
  - intros l [Hl|[k Hl]]; simpl in Hl.
    + right. by left.
    + destruct (decide (k = UpstreamConfig_String lib uc)) as [->|Hne].
      * rewrite lookup_insert_eq in Hl. left. congruence.
      * rewrite lookup_insert_ne in Hl by done. right. right. eauto.
  - assert (forall k, upstreams st !! k = Some (listeners_made w) -> False) as Hnew.
    { intros k Hk. destruct (held_open w Hinv id st (listeners_made w) Hst); [|lia].
      right. eauto. }
    destruct (held_tidy w Hinv id st Hst) as [T1 T2]. split; simpl.
    + intros k1 k2 l Hk1 Hk2.
      destruct (decide (k1 = UpstreamConfig_String lib uc)) as [->|Hn1];
        destruct (decide (k2 = UpstreamConfig_String lib uc)) as [->|Hn2]; [done| | |].
      * rewrite lookup_insert_eq in Hk1. rewrite lookup_insert_ne in Hk2 by done.
        injection Hk1 as <-. by destruct (Hnew k2).
      * rewrite lookup_insert_eq in Hk2. rewrite lookup_insert_ne in Hk1 by done.
        injection Hk2 as <-. by destruct (Hnew k1).
      * rewrite lookup_insert_ne in Hk1, Hk2 by done. by eapply T1.
    + intros k l Hl Hk.
      destruct (decide (k = UpstreamConfig_String lib uc)) as [->|Hne].
      * rewrite lookup_insert_eq in Hk. injection Hk as <-.
        destruct (held_open w Hinv id st (listeners_made w) Hst); [by left|lia].
      * rewrite lookup_insert_ne in Hk by done. by eapply T2.
Qed.

Lemma publicListener_recorded id cfg svc :
  ensures keeps_recorded (publicListener lib id cfg svc).
Proof.
  intros w [] w' H Hinv.
  destruct (publicListener_done _ _ _ _ _ H) as (st & Hst & Es & El & Ec).
  eapply recorded_fresh; try done.
  - intros l [Hl|[k Hl]]; simpl in Hl.
    + left. congruence.
    + right. right. eauto.
  - destruct (held_tidy w Hinv id st Hst) as [T1 T2]. split; simpl; [done|].
    intros k l [= <-] Hk.
    destruct (held_open w Hinv id st (listeners_made w) Hst); [|lia].
    right. eauto.
Qed.

(** Occurrences of a listener in a list. *)
Definition occ (l : lid) (vs : list lid) : nat :=
  length (List.filter (fun x => bool_decide (x = l)) vs).

Lemma occ_absent l vs : l ∉ vs -> occ l vs = 0.
Proof.
  induction vs as [|v vs IH]; intros H; [done|].
  unfold occ in *. simpl. rewrite bool_decide_eq_false_2.
  - apply IH. intros ?. apply H. by right.
  - intros ->. apply H. left.
Qed.

Lemma occ_NoDup l vs : NoDup vs -> l ∈ vs -> occ l vs = 1.
Proof.
  induction vs as [|v vs IH]; intros Hnd H; [by apply elem_of_nil in H|].
  inversion Hnd as [|?? Hv Hnd']; subst. unfold occ in *. simpl.
  destruct (decide (v = l)) as [->|Hne].
  - rewrite bool_decide_eq_true_2 by done. simpl. f_equal. by apply occ_absent.
  - rewrite bool_decide_eq_false_2 by done. apply IH; [done|].
    apply elem_of_cons in H as [?|?]; [congruence|done].
Qed.

Lemma closing_upstreams_done (us : list (string * lid)) w w' :
  forM us (fun u => closeListener lib Decommission (Some u.2)) w = Done tt w' ->
  states w' = states w /\ listeners_made w' = listeners_made w /\
  forall l, sync_closes l w' = sync_closes l w + occ l us.*2.
Proof.
  revert w. induction us as [|u us IH]; intros w H.
  - injection H as <-. repeat split. intros l. unfold occ. simpl. lia.
  - simpl in H. apply bind_inv in H as ([] & w0 & H0 & H).
    destruct (IH w0 H) as (Es & El & Ec).
    unfold closeListener, bind in H0. simpl in H0.
    destruct (Listener_Close lib (Some u.2)) as [[]|]; simpl in H0; [|done].
    injection H0 as <-. repeat split; [done..|].
    intros l. rewrite Ec. unfold sync_closes, occ. simpl. rewrite count_snoc.
    simpl. change (list_fmap (string * lid)%type lid snd us) with (us.*2).
    destruct (bool_decide (u.2 = l)); simpl; lia.
Qed.

Lemma decommission_sync_closes kv w w' :
  decommission lib ro kv w = Done tt w' ->
  listeners_made w' = listeners_made w /\
  forall l, sync_closes l w'
            = sync_closes l w + ind (listener kv.2 = Some l)
              + occ l (range ro (upstreams kv.2)).*2.
Proof.
  intros H. unfold decommission in H.
  apply bind_inv in H as ([] & wa & Ha & H). injection Ha as <-.
  apply bind_inv in H as ([] & wb & Hb & H).
  apply bind_inv in H as ([] & wc & Hc & H).
  simpl in H. injection H as <-.
  destruct (closing_upstreams_done _ _ _ Hc) as (_ & El & Ec).
  unfold closeListener, bind in Hb. simpl in Hb.
  destruct (Listener_Close lib (listener kv.2)) as [[]|]; simpl in Hb; [|done].
  injection Hb as <-. split; [simpl; by rewrite El|].
  intros l. unfold sync_closes in *. simpl. rewrite count_snoc. simpl.
  rewrite Nat.add_0_r. rewrite Ec. simpl. rewrite !count_snoc. simpl.
  rewrite Nat.add_0_r. f_equal. f_equal.
  destruct (listener kv.2) as [l'|]; simpl.
  - rewrite ind_bool_decide. unfold ind.
    repeat case_decide; congruence.
  - rewrite ind_False; done.
Qed.

Lemma upstream_values st l :
  l ∈ (range ro (upstreams st)).*2 <-> exists k, upstreams st !! k = Some l.
Proof.
  rewrite list_elem_of_fmap. split.
  - intros ([k v] & -> & H). apply elem_of_range in H. eauto.
  - intros [k H]. exists (k, l). split; [done|]. by apply elem_of_range.
Qed.

Lemma upstream_values_NoDup st : tidy st -> NoDup (range ro (upstreams st)).*2.
Proof.
  intros [T1 _]. apply NoDup_fmap_2_strong.
  - intros [k1 v1] [k2 v2] H1 H2 E. simpl in E. subst v2.
    apply elem_of_range in H1, H2. f_equal. by eapply T1.
  - eapply NoDup_fmap_1, range_NoDup.
Qed.

Lemma decommission_recorded id st w w' :
  decommission lib ro (id, st) w = Done tt w' ->
  states w !! id = Some st ->
  keeps_recorded w w'.
Proof.
  intros H Hst Hinv. destruct Hinv as [H1 H2 H3 H4].
  destruct (decommission_done _ _ _ H) as [Es _].
  destruct (decommission_sync_closes _ _ _ H) as [El Ec]. simpl in *.
  pose proof (H3 id st Hst) as Ht.
  assert (forall l, holds st l -> sync_closes l w' = 1) as Hheld.
  { intros l Hl. rewrite Ec. destruct (H1 id st l Hst Hl) as [_ ->].
    destruct Hl as [Hl|Hl].
    - rewrite ind_True by done. rewrite occ_absent; [done|].
      rewrite upstream_values. intros [k Hk]. by eapply (proj2 Ht).
    - rewrite ind_False.
      + rewrite occ_NoDup; [done|by apply upstream_values_NoDup|].
        by apply upstream_values.
      + intros Hp. destruct Hl as [k Hk]. by eapply (proj2 Ht). }
  assert (forall l, ~ holds st l -> sync_closes l w' = sync_closes l w) as Hfree.
  { intros l Hl. rewrite Ec. rewrite ind_False by (intros ?; apply Hl; by left).
    rewrite occ_absent; [lia|]. rewrite upstream_values. intros ?. apply Hl.
    by right. }
  assert (forall l, holds st l \/ ~ holds st l) as Hdec.
  { intros l. destruct (decide (listener st = Some l)) as [?|Hn1]; [left; by left|].
    destruct (decide (l ∈ (range ro (upstreams st)).*2)) as [Hin|Hn2].
    - left. right. by apply upstream_values.
    - right. intros [?|?]; [done|]. by apply Hn2, upstream_values. }
  assert (forall id' s, states w' !! id' = Some s ->
                        id' <> id /\ states w !! id' = Some s) as Hold.
  { intros id' s Hs. rewrite Es in Hs.
    destruct (decide (id' = id)) as [->|Hne].
    - by rewrite lookup_delete_eq in Hs.
    - by rewrite lookup_delete_ne in Hs. }
  split.
  - intros id' s l Hs Hl. destruct (Hold _ _ Hs) as [Hne Hs0].
    destruct (H1 id' s l Hs0 Hl) as [? E]. rewrite El. split; [done|].
    rewrite Hfree; [done|]. intros Hl'. apply Hne. by eapply H2.
  - intros id1 id2 s1 s2 l Hs1 Hs2.
    destruct (Hold _ _ Hs1) as [_ ?]. destruct (Hold _ _ Hs2) as [_ ?].
    by eapply H2.
  - intros id' s Hs. destruct (Hold _ _ Hs) as [_ ?]. by eapply H3.
  - intros l. rewrite El. destruct (H4 l) as [Hle Hz].
    destruct (Hdec l) as [Hl|Hl].
    + rewrite (Hheld l Hl). split; [lia|]. intros Hge.
      destruct (H1 id st l Hst Hl). lia.
    + by rewrite (Hfree l Hl).
Qed.

Lemma decommission_loop_recorded (l : list (string * proxyState)) w w' :
  NoDup l.*1 ->
  (forall kv, kv ∈ l -> states w !! kv.1 = Some kv.2) ->
  forM l (decommission lib ro) w = Done tt w' ->
  keeps_recorded w w'.
Proof.
  revert w. induction l as [|[id st] l IH]; intros w Hnd Hin H.
  - injection H as <-. reflexivity.
  - simpl in H. apply bind_inv in H as ([] & w0 & H0 & H).
    inversion Hnd as [|?? Hid Hnd']; subst.
    trans w0.
    + eapply decommission_recorded; [done|]. apply (Hin (id, st)). left.
    + apply IH; [done| |done]. intros kv Hkv.
      destruct (decommission_done _ _ _ H0) as [Es _]. rewrite Es. simpl.
      rewrite lookup_delete_ne; [apply Hin; by right|].
      intros ->. apply Hid. apply list_elem_of_fmap. by exists kv.
Qed.

Definition at_rest (l : lid) (w : World) : gmap string proxyState * nat * nat :=
  (states w, listeners_made w, sync_closes l w).

(** Leaves that leave the runtime states, the listeners made and the
    closes of the decommission path alone. *)
Ltac hushed :=
  idtac;
  match goal with
  | |- steps (same _) (emit _) =>
      intros ?; unfold same, at_rest, states, sync_closes;
      simpl; rewrite ?count_snoc; simpl; rewrite ?Nat.add_0_r; reflexivity
  | |- steps (same _) (modify _) => intros ?; reflexivity
  end.

Lemma at_rest_recorded {A} (m : M A) :
  (forall l, steps (same (at_rest l)) m) -> ensures keeps_recorded m.
Proof.
  intros H w a w' E. apply recorded_quiet. intros l.
  by eapply (steps_done _ _ _ _ _ (H l)).
Qed.

Lemma resolve_at_rest cfg l : steps (same (at_rest l)) (resolve lib cfg).
Proof. walk hushed. Qed.

Lemma retire_at_rest kv l : steps (same (at_rest l)) (retire lib kv).
Proof. walk hushed. Qed.

Lemma Close_at_rest l : steps (same (at_rest l)) (Close lib ro).
Proof. walk hushed. Qed.

Lemma runServiceProxy_recorded id cfg :
  ensures keeps_recorded (runServiceProxy lib id cfg).
Proof.
  intros w [] w' H. destruct (states w !! id) as [st|] eqn:Hst.
  - rewrite runServiceProxy_present in H by (rewrite Hst; eauto).
    injection H as <-. reflexivity.
  - rewrite runServiceProxy_absent in H by done.
    trans (entered id cfg w); [by apply recorded_enter|].
    revert H. apply ensures_bind; [apply _| |].
    + apply at_rest_recorded. intros l. apply resolve_at_rest.
    + intros svc. unfold launch. apply ensures_bind; [apply _| |].
      * apply at_rest_recorded. intros l. walk hushed.
      * intros _. apply ensures_forM; [apply _|]. intros uc _.
        apply startUpstream_recorded.
Qed.

Lemma removeNotPresent_recorded S :
  ensures keeps_recorded (removeNotPresent lib ro S).
Proof.
  intros w [] w' H. unfold removeNotPresent, bind at 1, gets in H.
  apply bind_inv in H as ([] & wd & Hd & H). unfold bind, gets in H.
  trans wd.
  - eapply decommission_loop_recorded; [apply range_NoDup| |done].
    intros [k v] Hin. apply elem_of_range in Hin.
    rewrite removedProxies_lookup in Hin. by case_decide.
  - revert H. apply ensures_forM; [apply _|]. intros kv _.
    apply at_rest_recorded. intros l. apply retire_at_rest.
Qed.

Lemma Serve_config_recorded S : ensures keeps_recorded (Serve_config lib ro S).
Proof.
  unfold Serve_config. apply ensures_bind; [apply _| |intros _].
  - apply at_rest_recorded. intros l. walk hushed.
  - apply ensures_bind; [apply _| |intros _].
    + apply ensures_forM; [apply _|]. intros kv _. apply runServiceProxy_recorded.
    + apply removeNotPresent_recorded.
Qed.

Lemma step_recorded a : ensures keeps_recorded (step lib ro a).
Proof.
  destruct a as [S| | |n].
  - intros w [] w' H. unfold step, bind, gets in H.
    destruct (serving w); [exact (Serve_config_recorded S w tt w' H)|].
    injection H as <-. reflexivity.
  - apply at_rest_recorded. intros l. walk hushed.
  - apply at_rest_recorded. intros l. apply Close_at_rest.
  - intros w [] w' H. unfold step, bind at 1, gets in H.
    destruct (goroutines w !! n) as [t|]; [|injection H as <-; reflexivity].
    unfold bind at 1, gets in H.
    destruct (runnable t w); [|injection H as <-; reflexivity].
    unfold bind at 1 in H. simpl in H.
    trans (with_goroutines (delete n) w); [by apply recorded_quiet|].
    destruct t as [id cfg svc|name l|l].
    + exact (publicListener_recorded id cfg svc _ tt w' H).
    + refine (at_rest_recorded _ _ _ tt w' H). intros l'. walk hushed.
    + refine (at_rest_recorded _ _ _ tt w' H). intros l'. walk hushed.
Qed.

Lemma run_recorded sched : ensures keeps_recorded (run lib ro sched).
Proof. apply ensures_forM; [apply _|]. intros a _. apply step_recorded. Qed.

(** *** Nil receivers *)

(** [extends w w']: the trace of [w'] continues the trace of [w]. *)
Definition extends : relation World :=
  fun w w' => exists t, trace w' = trace w ++ t.

Global Instance extends_preorder : PreOrder extends.
Proof.
  split.
  - intros w. exists []. by rewrite app_nil_r.
  - intros w1 w2 w3 [t1 H1] [t2 H2]. exists (t1 ++ t2).
    by rewrite H2, H1, app_assoc.
Qed.

Ltac extending :=
  idtac;
  match goal with
  | |- steps extends (emit ?e) => intros ?; by exists [e]
  | |- steps extends (modify _) => intros ?; exists []; by rewrite app_nil_r
  end.

(** The decommission path calls [Close] on the listener field whatever it
    holds: for a runtime state whose public listener is not recorded yet,
    the call is made on nil. *)
Lemma decommission_closes_whatever_is_recorded id st w :
  CallListenerClose Decommission (listener st)
  ∈ trace (world_of (decommission lib ro (id, st) w)).
Proof.
  set (e := CallListenerClose Decommission (listener st)).
  set (wa := with_trace (fun t => t ++ [Log (InfoListenerRemoved id)]) w).
  set (wb := with_trace (fun t => t ++ [e]) wa).
  assert (e ∈ trace wb) as Hin.
  { unfold wb. simpl. apply elem_of_app. right. left. }
  unfold decommission. rewrite (bind_done _ _ w tt wa) by reflexivity.
  destruct (Listener_Close lib (listener st)) as [[]|] eqn:Hc.
  - rewrite (bind_done _ _ wa tt wb)
      by (unfold closeListener, bind; simpl; by rewrite Hc).
    match goal with
    | |- _ ∈ trace (world_of (?k wb)) =>
        assert (steps extends k) as Hk by walk extending
    end.
    destruct (Hk wb) as [t Ht]. rewrite Ht. apply elem_of_app. by left.
  - rewrite (bind_panic _ _ wa wb)
      by (unfold closeListener, bind; simpl; by rewrite Hc).
    done.
Qed.

(** Provisioning goes on after a failed creation only if the collaborator
    answers for the nil handle: [ReadyWait] and [ServerTLSConfig] return on a
    nil receiver, and the latter with a configuration that is not nil. *)
Lemma announce_nil_returns cfg w w' :
  announce lib cfg None w = Done tt w' ->
  (exists ch, ReadyWait lib None = Returns ch) /\
  (exists tcfg, ServerTLSConfig lib None = Returns (Some tcfg)).
Proof.
  unfold announce, waitSVC, bind. intros H.
  destruct (InitTelemetry lib cfg); simpl in H;
    (destruct (ReadyWait lib None) as [ch|]; simpl in H; [|done]);
    (split; [by exists ch|]);
    destruct ch; simpl in H;
    (destruct (ServerTLSConfig lib None) as [[tcfg|]|]; simpl in H; [|done|done]);
    by exists tcfg.
Qed.

(** *** After the stop signal every goroutine can run *)

(** A public-listener goroutine leaves two goroutines behind, the others
    none. *)
Definition weight (t : task) : nat :=
  match t with
  | GoPublic _ _ _ => 3
  | _ => 1
  end.

Definition load (w : World) : nat := sum_list_with weight (goroutines w).

Lemma publicListener_pool id cfg svc w w' :
  publicListener lib id cfg svc w = Done tt w' ->
  goroutines w'
  = goroutines w ++ [GoServe "public listener" (listeners_made w);
                     GoStopWatch (listeners_made w)].
Proof.
  unfold publicListener, waitSVC, NewListener, write_listener, put_state, bind,
    gets. simpl.
  destruct (ReadyWait lib svc) as [[]|]; simpl; [| |done];
    (destruct (proxyStates (proxy w) !! id) as [st|]; simpl; [|done]);
    intros [= <-]; simpl; by rewrite <- app_assoc.
Qed.

Lemma run_task_load t w w' :
  run_task lib t w = Done tt w' -> load w' < load w + weight t.
Proof.
  destruct t as [id cfg svc|name l|l]; intros H.
  - apply (publicListener_pool id cfg svc) in H. unfold load.
    rewrite H, sum_list_with_app. simpl. lia.
  - assert (steps (same goroutines) (run_task lib (GoServe name l))) as Hs
      by (walk ltac:(idtac; intros ?; reflexivity)).
    unfold load. rewrite (steps_done _ _ _ _ _ Hs H). simpl. lia.
  - assert (steps (same goroutines) (run_task lib (GoStopWatch l))) as Hs
      by (walk ltac:(idtac; intros ?; reflexivity)).
    unfold load. rewrite (steps_done _ _ _ _ _ Hs H). simpl. lia.
Qed.

Lemma step_first_goroutine w w' :
  stopChan (proxy w) = true ->
  step lib ro (Sched 0) w = Done tt w' ->
  stopChan (proxy w') = true /\
  (goroutines w = [] /\ w' = w \/ load w' < load w).
Proof.
  intros Hstop H. unfold step, bind at 1, gets in H.
  destruct (goroutines w) as [|t g] eqn:Hg; simpl in H.
  - injection H as <-. split; [done|]. by left.
  - unfold bind at 1, gets in H.
    assert (runnable t w = true) as Hr by (by destruct t). rewrite Hr in H.
    unfold bind at 1 in H. simpl in H.
    set (w1 := with_goroutines (delete 0) w) in *.
    destruct (run_task_touches t w1) as (Hc & _). rewrite H in Hc. simpl in Hc.
    split; [by rewrite Hc|]. right.
    apply run_task_load in H.
    assert (load w = load w1 + weight t) as ->.
    { unfold load, w1. simpl. rewrite Hg. simpl. lia. }
    done.
Qed.

(** Once the stop channel is closed no goroutine is blocked: scheduling the
    head of the pool often enough empties it, unless a goroutine panics. *)
Lemma pending_goroutines_drain n w w' :
  stopChan (proxy w) = true ->
  load w <= n ->
  run lib ro (replicate n (Sched 0)) w = Done tt w' ->
  goroutines w' = [].
Proof.
  revert w. induction n as [|n IH]; intros w Hstop Hload H.
  - injection H as <-. unfold load in Hload.
    destruct (goroutines w) as [|t g]; [done|].
    simpl in Hload. destruct t; simpl in Hload; lia.
  - simpl in H. apply bind_inv in H as ([] & w0 & H0 & H).
    destruct (step_first_goroutine w w0 Hstop H0) as [Hs [[Hg ->]|Hlt]].
    + apply (IH w); [done| |done]. unfold load. rewrite Hg. simpl. lia.
    + apply (IH w0); [done|lia|done].
Qed.

Lemma load_bound w : load w <= 3 * length (goroutines w).
Proof.
  unfold load. induction (goroutines w) as [|t g IH]; simpl; [lia|].
  destruct t; simpl; lia.
Qed.

Lemma stop_lets_goroutines_finish w w' :
  stopChan (proxy w) = true ->
  run lib ro (replicate (3 * length (goroutines w)) (Sched 0)) w = Done tt w' ->
  goroutines w' = [].
Proof. intros Hs. apply pending_goroutines_drain; [done|apply load_bound]. Qed.

(** *** Two properties of a pass *)

(** X1. An empty snapshot, applied to its end, leaves no runtime state and
    no registered handle, and every handle that was registered has had its
    [Close] called during the pass. *)
Theorem empty_snapshot_clears_both_maps w w' :
  serving w = true ->
  step lib ro (RecvConfig ∅) w = Done tt w' ->
  states w' = ∅ /\ registry w' = ∅ /\
  forall N, is_Some (registry w !! N) -> svc_closes N w' = svc_closes N w + 1.
Proof.
  intros Hs H. rewrite step_RecvConfig in H by done.
  destruct (Serve_config_done ∅ w w' H) as (D & _ & _ & _ & C & R & _).
  assert (forall N, ~ references ∅ N) as Hno.
  { intros N (id & cfg & E & _). by rewrite lookup_empty in E. }
  split; [|split].
  - apply (dom_empty_iff_L (D := gset string)). by rewrite D, dom_empty_L.
  - apply map_empty. intros N. destruct (registry w' !! N) eqn:E; [|done].
    destruct (Hno N). apply R. rewrite E. eauto.
  - intros N HN. rewrite C. by rewrite ind_True.
Qed.

(** X2. In a schedule from the start of the proxy that runs to its end, a
    listener recorded in a runtime state that exists has never been closed
    by the decommission path: decommissioning an instance closes none of
    the listeners of an instance that survives. *)
Theorem surviving_listeners_are_not_decommissioned sched w id st l :
  run lib ro sched boot = Done tt w ->
  states w !! id = Some st ->
  holds st l ->
  sync_closes l w = 0.
Proof.
  intros H Hst Hl.
  pose proof (run_recorded sched boot tt w H boot_recorded) as Hinv.
  by destruct (held_open w Hinv id st l Hst Hl).
Qed.

End Facts.

(** ** Runs of the engine *)

(** A collaborator whose methods panic on a nil receiver, and one whose
    identity service refuses [serviceX]. *)
Definition consul : Library := collaborator true [].
Definition consul_refusing : Library := collaborator true ["serviceX"].
Definition forgiving : Library := collaborator false [].

Definition cfgA : Config := cfg_for "serviceX" ["u1"].

(** Instance A comes, its public listener starts, A goes, the host stops
    the proxy, and every pending goroutine runs. *)
Definition come_and_go : list action :=
  [RecvConfig snapA; Sched 0; RecvConfig ∅; HostClose;
   Sched 0; Sched 0; Sched 0; Sched 0].

(** C2, counterexample: the upstream listener of A (listener 0) is started
    once and closed twice, by the decommission path and by its stop
    watcher. *)
Lemma decommissioned_listener_closed_twice :
  let o := run consul in_order come_and_go boot in
  returned o = true /\
  goroutines (world_of o) = [] /\
  starts 0 (world_of o) = 1 /\
  sync_closes 0 (world_of o) = 1 /\
  watch_closes 0 (world_of o) = 1.
Proof. vm_compute. repeat split. Qed.

(** C5, counterexample: the first Close returns, the second panics. *)
Lemma Close_twice_panics :
  returned (run consul in_order [HostClose] boot) = true /\
  returned (run consul in_order [HostClose; HostClose] boot) = false.
Proof. vm_compute. split; reflexivity. Qed.

Lemma Close_must_be_called_once_witness :
  stopChan (proxy boot) = false /\
  Close consul in_order (world_of (Close consul in_order boot))
  = Panic (world_of (Close consul in_order boot)).
Proof.
  split; [reflexivity|].
  exact (proj2 (proj2 (Close_must_be_called_once consul in_order boot eq_refl))).
Defined.

(** C6: the identity service refuses the handle of A's service. Nil is
    stored in the registry, [ReadyWait] is called on it, and the pass
    panics: Serve is over although the stop channel is open. *)
Theorem failed_identity_ends_Serve :
  let o := run consul_refusing in_order [RecvConfig snapA] boot in
  returned o = false /\
  stopChan (proxy (world_of o)) = false /\
  serving (world_of o) = true /\
  registry (world_of o) !! "serviceX" = Some None /\
  last (trace (world_of o)) = Some (CallReadyWait None).
Proof. vm_compute. repeat split. Qed.

(** C7: A is provisioned and, before its public-listener goroutine has run,
    leaves the snapshot. The decommission path calls [Close] on the nil
    listener and panics; the runtime state of A is still there. *)
Theorem decommission_closes_unset_listener :
  let o := run consul in_order [RecvConfig snapA; RecvConfig ∅] boot in
  returned o = false /\
  listener <$> states (world_of o) !! "A" = Some None /\
  last (trace (world_of o)) = Some (CallListenerClose Decommission None).
Proof. vm_compute. repeat split. Qed.

(** With a collaborator that returns on a nil receiver the decommission
    returns, and the public-listener goroutine of A, when it runs, panics
    on the runtime state that is gone. *)
Lemma late_public_listener_panics :
  returned (run forgiving in_order [RecvConfig snapA; RecvConfig ∅] boot) = true /\
  returned (run forgiving in_order [RecvConfig snapA; RecvConfig ∅; Sched 0] boot)
  = false.
Proof. vm_compute. split; reflexivity. Qed.

(** C8, counterexample: the public-listener goroutine of A writes the
    listener field of A's runtime state. *)
Lemma goroutine_writes_runtime_state :
  let w := world_of (run consul in_order [RecvConfig snapA] boot) in
  let w' := world_of (step consul in_order (Sched 0) w) in
  goroutines w !! 0 = Some (GoPublic "A" cfgA (Some 0)) /\
  listener <$> states w !! "A" = Some None /\
  listener <$> states w' !! "A" = Some (Some 1).
Proof. vm_compute. repeat split. Qed.

(** Instance A is provisioned and its public listener recorded; then the
    snapshot holds B only. *)
Definition world_A : World :=
  world_of (step consul in_order (RecvConfig snapA) boot).
Definition world_A_listening : World :=
  world_of (run consul in_order [Sched 0] world_A).
Definition world_B : World :=
  world_of (step consul in_order (RecvConfig snapB) world_A_listening).
Definition world_empty : World :=
  world_of (step consul in_order (RecvConfig ∅) world_A_listening).

Lemma snapshots_provision_and_decommission_once_witness :
  (serving boot = true /\
   step consul in_order (RecvConfig snapA) boot = Done tt world_A /\
   Forall background [Sched 0] /\
   run consul in_order [Sched 0] world_A = Done tt world_A_listening /\
   step consul in_order (RecvConfig snapB) world_A_listening = Done tt world_B) /\
  puts "B" world_B
  = puts "B" world_A_listening + ind ("B" ∈ dom snapB /\ "B" ∉ dom snapA) /\
  dels "A" world_B
  = dels "A" world_A_listening + ind ("A" ∈ dom snapA /\ "A" ∉ dom snapB).
Proof.
  assert (serving boot = true) as H0 by reflexivity.
  assert (step consul in_order (RecvConfig snapA) boot = Done tt world_A) as H1
    by (vm_compute; reflexivity).
  assert (Forall background [Sched 0]) as H2 by (repeat constructor).
  assert (run consul in_order [Sched 0] world_A = Done tt world_A_listening) as H3
    by (vm_compute; reflexivity).
  assert (step consul in_order (RecvConfig snapB) world_A_listening = Done tt world_B)
    as H4 by (vm_compute; reflexivity).
  split; [exact (conj H0 (conj H1 (conj H2 (conj H3 H4))))|]. split.
  - exact (proj1 (snapshots_provision_and_decommission_once consul in_order
                    snapA snapB [Sched 0] boot world_A world_A_listening world_B
                    H0 H1 H2 H3 H4 "B")).
  - exact (proj1 (proj2 (snapshots_provision_and_decommission_once consul in_order
                    snapA snapB [Sched 0] boot world_A world_A_listening world_B
                    H0 H1 H2 H3 H4 "A"))).
Defined.

Lemma handle_closed_iff_unreferenced_witness :
  (serving world_A_listening = true /\
   step consul in_order (RecvConfig ∅) world_A_listening = Done tt world_empty) /\
  svc_closes "serviceX" world_empty
  = svc_closes "serviceX" world_A_listening
    + ind (is_Some (registry world_A_listening !! "serviceX")
           /\ ~ references ∅ "serviceX").
Proof.
  assert (serving world_A_listening = true) as H0 by (vm_compute; reflexivity).
  assert (step consul in_order (RecvConfig ∅) world_A_listening = Done tt world_empty)
    as H1 by (vm_compute; reflexivity).
  split; [exact (conj H0 H1)|].
  exact (proj1 (handle_closed_iff_unreferenced consul in_order ∅
                  world_A_listening world_empty H0 H1 "serviceX")).
Defined.

Lemma handle_created_at_most_once_witness :
  Forall (fun a => forall S, a = RecvConfig S -> references S "serviceX")
         [RecvConfig snapA; Sched 0; RecvConfig snapAB; RecvConfig snapB] /\
  news "serviceX"
    (world_of (run consul in_order
                 [RecvConfig snapA; Sched 0; RecvConfig snapAB; RecvConfig snapB]
                 boot))
  <= news "serviceX" boot + 1.
Proof.
  assert (Forall (fun a => forall S, a = RecvConfig S -> references S "serviceX")
            [RecvConfig snapA; Sched 0; RecvConfig snapAB; RecvConfig snapB]) as H.
  { repeat constructor; intros S E; try discriminate E; injection E as <-.
    - exists "A", cfgA. split; vm_compute; reflexivity.
    - exists "A", cfgA. split; vm_compute; reflexivity.
    - exists "B", (cfg_for "serviceX" ["u2"]). split; vm_compute; reflexivity. }
  split; [exact H|].
  exact (proj1 (handle_created_at_most_once consul in_order _ "serviceX" boot H)).
Defined.

Lemma failed_handle_is_registered_witness :
  (states boot !! "A" = None /\
   registry boot !! ProxiedServiceName cfgA = None /\
   Config_Service consul_refusing cfgA (services_asked boot) = false) /\
  registry (world_of (runServiceProxy consul_refusing "A" cfgA boot))
    !! ProxiedServiceName cfgA
  = Some None.
Proof.
  assert (states boot !! "A" = None) as H0 by reflexivity.
  assert (registry boot !! ProxiedServiceName cfgA = None) as H1 by reflexivity.
  assert (Config_Service consul_refusing cfgA (services_asked boot) = false) as H2
    by (vm_compute; reflexivity).
  split; [exact (conj H0 (conj H1 H2))|].
  exact (proj1 (failed_handle_is_registered consul_refusing "A" cfgA boot H0 H1 H2)).
Defined.

Lemma empty_snapshot_clears_both_maps_witness :
  (serving world_A_listening = true /\
   step consul in_order (RecvConfig ∅) world_A_listening = Done tt world_empty) /\
  states world_empty = ∅ /\ registry world_empty = ∅.
Proof.
  assert (serving world_A_listening = true) as H0 by (vm_compute; reflexivity).
  assert (step consul in_order (RecvConfig ∅) world_A_listening = Done tt world_empty)
    as H1 by (vm_compute; reflexivity).
  split; [exact (conj H0 H1)|].
  pose proof (empty_snapshot_clears_both_maps consul in_order
                world_A_listening world_empty H0 H1) as T.
  exact (conj (proj1 T) (proj1 (proj2 T))).
Defined.

(** A comes, B joins, A goes: B survives with its upstream listener 2. *)
Definition A_then_B : list action :=
  [RecvConfig snapA; Sched 0; RecvConfig snapAB; RecvConfig snapB].
Definition world_after_A : World := world_of (run consul in_order A_then_B boot).
Definition state_B : proxyState :=
  {| config := cfg_for "serviceX" ["u2"]; listener := None;
     upstreams := {[ "0.0.0.0->u2" := 2 ]} |}.

Lemma surviving_listeners_are_not_decommissioned_witness :
  (run consul in_order A_then_B boot = Done tt world_after_A /\
   states world_after_A !! "B" = Some state_B /\
   holds state_B 2) /\
  sync_closes 2 world_after_A = 0.
Proof.
  assert (run consul in_order A_then_B boot = Done tt world_after_A) as H0
    by (vm_compute; reflexivity).
  assert (states world_after_A !! "B" = Some state_B) as H1
    by (vm_compute; reflexivity).
  assert (holds state_B 2) as H2
    by (right; exists "0.0.0.0->u2"; vm_compute; reflexivity).
  split; [exact (conj H0 (conj H1 H2))|].
  exact (surviving_listeners_are_not_decommissioned consul in_order
           A_then_B world_after_A "B" state_B 2 H0 H1 H2).
Defined.

(** After [come_and_go] without its last four steps, four goroutines are
    pending; scheduling the head of the pool twelve times empties it. *)
Lemma stopped_proxy_drains :
  let w := world_of (run consul in_order
                       [RecvConfig snapA; Sched 0; RecvConfig ∅; HostClose] boot) in
  length (goroutines w) = 4 /\
  goroutines (world_of (run consul in_order (replicate 12 (Sched 0)) w)) = [].
Proof. vm_compute. split; reflexivity. Qed.

(** ** What the decommission path closes, and what a nil listener costs *)

(** Leaves that leave a count of the trace alone. *)
Ltac muted :=
  idtac;
  match goal with
  | |- steps (same _) (emit _) =>
      intros ?; unfold same, at_rest, states, registry, sync_closes, dels,
        svc_closes;
      simpl; rewrite ?count_snoc; simpl; rewrite ?Nat.add_0_r; reflexivity
  | |- steps (same _) (modify _) => intros ?; reflexivity
  end.

Ltac growing :=
  idtac;
  match goal with
  | |- steps extends (emit ?e) => intros ?; by exists [e]
  | |- steps extends (modify _) => intros ?; exists []; by rewrite app_nil_r
  end.

Section Closes.

Variable lib : Library.
Variable ro : RangeOrder.

(** [removes a w l]: step [a] is a pass, in world [w], over a snapshot that
    lacks the identifier of a runtime state which records listener [l]. *)
Definition removes (a : action) (w : World) (l : lid) : Prop :=
  exists S id st, a = RecvConfig S /\ serving w = true /\
    states w !! id = Some st /\ S !! id = None /\ holds st l.

(** [decommissioned_holding sched l]: at some step of the schedule, run
    from the start, listener [l] is recorded in a runtime state that the
    step removes. *)
Definition decommissioned_holding (sched : list action) (l : lid) : Prop :=
  exists pre a post,
    sched = pre ++ a :: post /\ removes a (world_of (run lib ro pre boot)) l.

Lemma holds_or_not st l : holds st l \/ ~ holds st l.
Proof.
  destruct (decide (listener st = Some l)) as [?|Hn1]; [left; by left|].
  destruct (decide (l ∈ (range ro (upstreams st)).*2)) as [Hin|Hn2].
  - left. right. by apply (upstream_values ro).
  - right. intros [?|?]; [done|]. by apply Hn2, upstream_values.
Qed.

Lemma decommission_closes_held id st w w' l :
  recorded_once w ->
  states w !! id = Some st ->
  decommission lib ro (id, st) w = Done tt w' ->
  (holds st l -> sync_closes l w' = sync_closes l w + 1) /\
  (~ holds st l -> sync_closes l w' = sync_closes l w).
Proof.
  intros Hinv Hst H.
  destruct (decommission_sync_closes _ _ _ _ _ H) as [_ Ec]. simpl in Ec.
  pose proof (held_tidy w Hinv id st Hst) as Ht. split.
  - intros Hl. rewrite Ec. destruct Hl as [Hl|Hl].
    + rewrite ind_True by done. rewrite occ_absent; [lia|].
      rewrite upstream_values. intros [k Hk]. by eapply (proj2 Ht).
    + rewrite ind_False.
      * rewrite occ_NoDup; [lia|by apply upstream_values_NoDup|].
        by apply upstream_values.
      * intros Hp. destruct Hl as [k Hk]. by eapply (proj2 Ht).
  - intros Hl. rewrite Ec. rewrite ind_False by (intros ?; apply Hl; by left).
    rewrite occ_absent; [lia|]. rewrite upstream_values. intros ?. apply Hl.
    by right.
Qed.

Lemma decommission_loop_closes (kvs : list (string * proxyState)) w w' l :
  NoDup kvs.*1 ->
  (forall kv, kv ∈ kvs -> states w !! kv.1 = Some kv.2) ->
  recorded_once w ->
  forM kvs (decommission lib ro) w = Done tt w' ->
  ((exists kv, kv ∈ kvs /\ holds kv.2 l) -> sync_closes l w' = sync_closes l w + 1) /\
  ((~ exists kv, kv ∈ kvs /\ holds kv.2 l) -> sync_closes l w' = sync_closes l w).
Proof.
  revert w. induction kvs as [|[id st] kvs IH]; intros w Hnd Hin Hinv H.
  - injection H as <-. split; [|done]. intros (kv & Hkv%elem_of_nil & _). done.
  - simpl in H. apply bind_inv in H as ([] & w0 & H0 & H).
    inversion Hnd as [|?? Hid Hnd']; subst.
    assert (states w !! id = Some st) as Hst by (apply (Hin (id, st)); left).
    destruct (decommission_closes_held id st w w0 l Hinv Hst H0) as [K1 K0].
    assert (recorded_once w0) as Hinv0
      by (by apply (decommission_recorded lib ro id st w w0)).
    assert (forall kv, kv ∈ kvs -> states w0 !! kv.1 = Some kv.2) as Hin0.
    { intros kv Hkv. destruct (decommission_done _ _ _ _ _ H0) as [Es _].
      rewrite Es. simpl. rewrite lookup_delete_ne; [apply Hin; by right|].
      intros ->. apply Hid. apply list_elem_of_fmap. by exists kv. }
    destruct (IH w0 Hnd' Hin0 Hinv0 H) as [I1 I0].
    assert (holds st l -> ~ exists kv, kv ∈ kvs /\ holds kv.2 l) as Hapart.
    { intros Hl (kv & Hkv & Hl'). apply Hid. apply list_elem_of_fmap.
      exists kv. split; [|done].
      eapply (held_apart w Hinv id kv.1 st kv.2 l); try done.
      apply Hin. by right. }
    split.
    + intros (kv & Hkv & Hl). apply elem_of_cons in Hkv as [->|Hkv].
      * simpl in Hl. rewrite I0 by (by apply Hapart). by apply K1.
      * rewrite I1 by eauto. rewrite K0; [done|].
        intros Hl'. apply (Hapart Hl'). eauto.
    + intros Hno. rewrite I0, K0; [done| |].
      * intros Hl. apply Hno. exists (id, st). split; [left|done].
      * intros (kv & Hkv & Hl). apply Hno. exists kv. split; [by right|done].
Qed.

Lemma runServiceProxy_sync_closes id cfg l :
  steps (same (sync_closes l)) (runServiceProxy lib id cfg).
Proof. walk muted. Qed.

(** One pass, applied to its end in a world of a run: the decommission path
    closes a listener once when a runtime state that the pass removes
    records it, and not at all otherwise. *)
Lemma Serve_config_closes S w w' l :
  recorded_once w ->
  Serve_config lib ro S w = Done tt w' ->
  ((exists id st, states w !! id = Some st /\ S !! id = None /\ holds st l) ->
   sync_closes l w' = sync_closes l w + 1) /\
  ((~ exists id st, states w !! id = Some st /\ S !! id = None /\ holds st l) ->
   sync_closes l w' = sync_closes l w).
Proof.
  intros Hinv H. unfold Serve_config in H.
  apply bind_inv in H as ([] & wl & Hl & H). injection Hl as <-.
  apply bind_inv in H as ([] & wp & Hp & H).
  set (wl := with_trace (fun t => t ++ [Log DebugGotNewConfig]) w) in *.
  assert (recorded_once wl) as Hinvl.
  { apply (recorded_quiet w wl); [|done]. intros l'. unfold same, sync_closes.
    simpl. rewrite count_snoc. simpl. by rewrite Nat.add_0_r. }
  assert (recorded_once wp) as Hinvp.
  { refine (ensures_forM keeps_recorded _ _ _ wl tt wp Hp Hinvl).
    intros kv _. apply runServiceProxy_recorded. }
  assert (sync_closes l wp = sync_closes l w) as Ep.
  { trans (sync_closes l wl).
    - refine (steps_done _ _ _ _ _ (steps_forM (same (sync_closes l)) _ _ _) Hp).
      intros kv _. apply runServiceProxy_sync_closes.
    - unfold sync_closes. simpl. rewrite count_snoc. simpl. lia. }
  assert (forall id, S !! id = None -> states wp !! id = states w !! id) as Ekeep.
  { intros id Hid.
    refine (steps_done _ _ _ _ _
              (steps_forM (same (fun w => states w !! id)) _ _ _) Hp).
    intros [id' cfg'] Hin. apply runServiceProxy_others. simpl. intros ->.
    apply (elem_of_range ro) in Hin. congruence. }
  unfold removeNotPresent, bind at 1, gets in H.
  apply bind_inv in H as ([] & wd & Hd & H). unfold bind, gets in H.
  set (gone := removedProxies ro (proxy wp) S) in *.
  assert (forall k v, (k, v) ∈ range ro gone
                      <-> states w !! k = Some v /\ S !! k = None) as Hgone.
  { intros k v. rewrite (elem_of_range ro). unfold gone.
    rewrite removedProxies_lookup. fold (states wp). case_decide as HS.
    - split; [done|]. intros [_ E]. rewrite E in HS. by destruct HS.
    - assert (S !! k = None) as E
        by (destruct (S !! k) eqn:E; [destruct HS; eauto|done]).
      rewrite (Ekeep k E). split; [done|by intros []]. }
  destruct (decommission_loop_closes (range ro gone) wp wd l) as [D1 D0];
    [apply range_NoDup| |done..|].
  { intros [k v] Hin. simpl. apply Hgone in Hin as [Hk HS].
    by rewrite (Ekeep k HS). }
  assert (sync_closes l w' = sync_closes l wd) as Er.
  { pose proof (steps_done _ _ _ _ _
      (steps_forM (same (at_rest l)) _ _ (fun kv _ => retire_at_rest lib kv l)) H)
      as E. unfold same, at_rest in E. by injection E. }
  rewrite Er, <- Ep. split.
  - intros (id & st & Hst & HS & Hh). apply D1. exists (id, st).
    split; [by apply Hgone|done].
  - intros Hno. apply D0. intros ([k v] & Hin & Hh). apply Hno.
    apply Hgone in Hin as [Hk HS]. by exists k, v.
Qed.

Lemma step_closes a w w' l :
  recorded_once w ->
  step lib ro a w = Done tt w' ->
  (removes a w l -> sync_closes l w' = sync_closes l w + 1) /\
  (~ removes a w l -> sync_closes l w' = sync_closes l w).
Proof.
  intros Hinv H.
  assert ((forall S, a <> RecvConfig S) -> sync_closes l w' = sync_closes l w) as Hq.
  { intros Hne. refine (steps_done (same (sync_closes l)) _ _ _ _ _ H).
    destruct a as [S| | |n]; [by destruct (Hne S)|walk muted..]. }
  destruct a as [S| | |n];
    try (split; [by intros (? & ? & ? & ? & _)|intros _; by apply Hq]).
  unfold step, bind, gets in H. destruct (serving w) eqn:Hs.
  - destruct (Serve_config_closes S w w' l Hinv H) as [K1 K0]. split.
    + intros (S' & id & st & [= <-] & _ & Hst & HS & Hh). apply K1. eauto.
    + intros Hno. apply K0. intros (id & st & Hst & HS & Hh). apply Hno.
      by exists S, id, st.
  - injection H as <-. split; [|done].
    intros (? & ? & ? & _ & ? & _). congruence.
Qed.

Lemma forM_app {A} (l1 l2 : list A) (f : A -> M unit) w :
  forM (l1 ++ l2) f w = bind (forM l1 f) (fun _ => forM l2 f) w.
Proof.
  revert w. induction l1 as [|a l1 IH]; intros w; [done|].
  simpl. unfold bind. destruct (f a w) as [[] w0|w0]; [exact (IH w0)|done].
Qed.

Lemma run_snoc sched a w w' :
  run lib ro (sched ++ [a]) w = Done tt w' ->
  exists w0, run lib ro sched w = Done tt w0 /\ step lib ro a w0 = Done tt w'.
Proof.
  unfold run. rewrite forM_app. intros H.
  apply bind_inv in H as ([] & w0 & H0 & H). exists w0. split; [done|].
  simpl in H. apply bind_inv in H as ([] & w1 & H1 & H). by injection H as <-.
Qed.

Lemma step_extends a : steps extends (step lib ro a).
Proof. destruct a; walk growing. Qed.

Lemma closes_follow_removals sched l w :
  run lib ro sched boot = Done tt w ->
  (decommissioned_holding sched l -> sync_closes l w = 1) /\
  (~ decommissioned_holding sched l -> sync_closes l w = 0).
Proof.
  revert w. induction sched as [|a sched IH] using rev_ind; intros w H.
  - injection H as <-. split; [|done].
    intros (pre & a & post & E & _). by destruct pre.
  - destruct (run_snoc _ _ _ _ H) as (w0 & H0 & H1).
    destruct (IH w0 H0) as [I1 I0].
    pose proof (run_recorded lib ro sched boot tt w0 H0 boot_recorded) as Hinv0.
    pose proof (run_recorded lib ro _ boot tt w H boot_recorded) as Hinv.
    destruct (step_closes a w0 w l Hinv0 H1) as [K1 K0].
    assert (removes a w0 l -> decommissioned_holding (sched ++ [a]) l) as Hlast.
    { intros Hr. exists sched, a, []. split; [done|]. by rewrite H0. }
    assert (decommissioned_holding sched l ->
            decommissioned_holding (sched ++ [a]) l) as Hmono.
    { intros (pre & a' & post & -> & Hr). exists pre, a', (post ++ [a]).
      split; [|done]. by rewrite <- app_assoc. }
    assert (sync_closes l w0 <= sync_closes l w) as Hle.
    { destruct (steps_done _ _ _ _ _ (step_extends a) H1) as [t Ht].
      unfold sync_closes. rewrite Ht, count_app. lia. }
    pose proof (closed_once w Hinv l) as [Hb _]. split.
    + intros (pre & a' & post & E & Hr).
      destruct post as [|b post _] using rev_ind.
      * apply app_inj_tail in E as [<- <-]. rewrite H0 in Hr. simpl in Hr.
        rewrite (K1 Hr) in *. lia.
      * rewrite app_comm_cons, app_assoc in E. apply app_inj_tail in E as [-> <-].
        assert (sync_closes l w0 = 1) as E1
          by (apply I1; by exists pre, a', post). lia.
    + intros Hno.
      assert (sync_closes l w0 = 0) as E0
        by (apply I0; intros Hd; by apply Hno, Hmono).
      rewrite K0; [done|]. intros Hr. by apply Hno, Hlast.
Qed.

(** C2 (as amended). Over any schedule from the start of the proxy: a
    listener is started at most once; each start is matched by a stop
    watcher that is still pending or by one [Close] call that a stop watcher
    made, so that once the pool of goroutines is empty the stop watcher of
    every started listener has called [Close] on it exactly once. In a
    schedule that runs to its end the decommission path calls [Close] on a
    listener at most once, and it does so exactly when, at some step, the
    listener is recorded (as public or as upstream listener) in a runtime
    state that the step removes: that listener is closed by the
    decommission path once, and every other listener never. *)
Theorem listener_closed_by_watcher_once_and_by_decommission_at_most_once
    sched l :
  let o := run lib ro sched boot in
  let w := world_of o in
  starts l w <= 1 /\
  starts l w = watchers l w + watch_closes l w /\
  (goroutines w = [] -> watch_closes l w = starts l w) /\
  (returned o = true -> sync_closes l w <= 1) /\
  (returned o = true ->
   (decommissioned_holding sched l -> sync_closes l w = 1) /\
   (~ decommissioned_holding sched l -> sync_closes l w = 0)).
Proof.
  intros o w.
  destruct (listeners_closed_by_watchers lib ro sched w l eq_refl) as [H1 H2].
  split; [done|]. split; [done|]. split; [|split].
  - intros Hg. rewrite H2. unfold watchers. rewrite Hg. simpl. lia.
  - intros Hr. subst w o. destruct (run lib ro sched boot) as [[] w'|] eqn:E; [|done].
    apply (closed_once w' (run_recorded lib ro sched boot tt w' E boot_recorded) l).
  - intros Hr. subst w o. destruct (run lib ro sched boot) as [[] w'|] eqn:E; [|done].
    by apply closes_follow_removals.
Qed.

End Closes.

(** *** A pass that meets a nil public listener *)

Section Nil_listener.

Variable lib : Library.
Variable ro : RangeOrder.

(** What a pass that panics leaves undone for identifier [id] and service
    name [N]. *)
Definition undone (id N : string) (w : World)
  : option proxyState * nat * nat * option (option sid) :=
  (states w !! id, dels id w, svc_closes N w, registry w !! N).

Lemma runServiceProxy_undone id' cfg' id N :
  id' <> id -> ProxiedServiceName cfg' <> N ->
  steps (same (undone id N)) (runServiceProxy lib id' cfg').
Proof.
  intros Hid HN w. unfold same, undone.
  pose proof (runServiceProxy_others lib id' cfg' id ltac:(congruence) w) as E1.
  pose proof (runServiceProxy_dels lib id' cfg' id w) as E2.
  pose proof (runServiceProxy_svc_closes lib id' cfg' N w) as E3.
  unfold same in E1, E2, E3. rewrite E1, E2, E3. f_equal.
  destruct (runServiceProxy_registers lib id' cfg' N w) as [[E _]|(_ & _ & E & _)];
    [done|congruence].
Qed.

Lemma decommission_other kv id :
  kv.1 <> id ->
  steps (same (fun w => (states w !! id, dels id w))) (decommission lib ro kv).
Proof.
  intros Hne. walk ltac:(idtac;
    match goal with
    | |- steps (same _) (emit _) =>
        intros ?; unfold same, states, dels; simpl; rewrite ?count_snoc; simpl;
        rewrite ?bool_decide_eq_false_2 by done; rewrite ?Nat.add_0_r; reflexivity
    | |- steps (same _) (modify _) =>
        intros ?; unfold same, states, dels; simpl;
        first [reflexivity | by rewrite lookup_delete_ne]
    end).
Qed.

Lemma decommission_nil_listener id st w :
  listener st = None -> Listener_Close lib None = Panics ->
  decommission lib ro (id, st) w
  = Panic (with_trace (fun t => t ++ [CallListenerClose Decommission None])
             (with_trace (fun t => t ++ [Log (InfoListenerRemoved id)]) w)).
Proof.
  intros Hl Hp. unfold decommission, closeListener, bind. simpl.
  rewrite Hl. simpl. by rewrite Hp.
Qed.

Lemma decommission_loop_panics (kvs : list (string * proxyState)) id st w :
  NoDup kvs.*1 -> (id, st) ∈ kvs ->
  listener st = None -> Listener_Close lib None = Panics ->
  exists w', forM kvs (decommission lib ro) w = Panic w' /\
    states w' !! id = states w !! id /\ dels id w' = dels id w /\
    forall N, svc_closes N w' = svc_closes N w /\ registry w' !! N = registry w !! N.
Proof.
  intros Hnd Hin Hl Hp. revert w.
  induction kvs as [|kv kvs IH]; intros w; [by apply elem_of_nil in Hin|].
  inversion Hnd as [|?? Hk Hnd']; subst.
  assert (forall N, svc_closes N (world_of (decommission lib ro kv w))
                    = svc_closes N w /\
                    registry (world_of (decommission lib ro kv w)) !! N
                    = registry w !! N) as E2.
  { intros N. pose proof (decommission_registry lib ro kv N w) as E.
    unfold same in E. injection E as E1 _ E3. by rewrite E1, E3. }
  simpl. apply elem_of_cons in Hin as [<-|Hin].
  - unfold bind. rewrite decommission_nil_listener by done. eexists.
    split; [done|]. split; [done|]. split.
    + unfold dels. simpl. rewrite !count_snoc. simpl. lia.
    + intros N. split; [|done]. unfold svc_closes. simpl. rewrite !count_snoc.
      simpl. lia.
  - assert (kv.1 <> id) as Hne.
    { intros E. apply Hk. apply list_elem_of_fmap. by exists (id, st). }
    pose proof (decommission_other kv id Hne w) as E1.
    unfold same in E1. unfold bind.
    destruct (decommission lib ro kv w) as [[] w0|w0]; simpl in *.
    + destruct (IH Hnd' Hin w0) as (w' & H & Es & Ed & Er). exists w'.
      split; [done|]. injection E1 as E1a E1b.
      split; [congruence|]. split; [congruence|]. intros N.
      destruct (Er N) as [-> ->]. apply E2.
    + exists w0. split; [done|]. injection E1 as E1a E1b. done.
Qed.

(** A pass over a snapshot that lacks the identifier of a runtime state
    whose public listener is not recorded yet, with a collaborator whose
    [Close] dereferences its receiver: the pass panics; the runtime state is
    not deleted; and no handle that the snapshot does not refer to is closed
    or removed, because the loop over the handles is never reached. *)
Lemma nil_listener_ends_the_pass S w id st :
  serving w = true ->
  states w !! id = Some st -> listener st = None -> S !! id = None ->
  Listener_Close lib None = Panics ->
  returned (step lib ro (RecvConfig S) w) = false /\
  states (world_of (step lib ro (RecvConfig S) w)) !! id = Some st /\
  dels id (world_of (step lib ro (RecvConfig S) w)) = dels id w /\
  forall N, ~ references S N ->
    svc_closes N (world_of (step lib ro (RecvConfig S) w)) = svc_closes N w /\
    registry (world_of (step lib ro (RecvConfig S) w)) !! N = registry w !! N.
Proof.
  intros Hs Hst Hl HS Hp. rewrite step_RecvConfig by done.
  set (wl := with_trace (fun t => t ++ [Log DebugGotNewConfig]) w).
  set (prov := forM (range ro S) (fun kv => runServiceProxy lib kv.1 kv.2)).
  assert (forall N, ~ references S N -> undone id N (world_of (prov wl)) = undone id N w)
    as Hprov.
  { intros N HN. trans (undone id N wl).
    - apply (steps_forM (same (undone id N))). intros [id' cfg'] Hin.
      apply (elem_of_range ro) in Hin. apply runServiceProxy_undone; simpl.
      + intros ->. congruence.
      + intros E. apply HN. by exists id', cfg'.
    - unfold undone, dels, svc_closes. simpl. rewrite !count_snoc. simpl.
      by rewrite !Nat.add_0_r. }
  assert (states (world_of (prov wl)) !! id = Some st /\
          dels id (world_of (prov wl)) = dels id w) as [Hpst Hpd].
  { assert (same (fun w => (states w !! id, dels id w)) wl (world_of (prov wl))) as E.
    { apply (steps_forM (same (fun w => (states w !! id, dels id w)))).
      intros [id' cfg'] Hin. apply (elem_of_range ro) in Hin. intros w0.
      assert (id <> id') as Hne by (intros ->; congruence).
      pose proof (runServiceProxy_others lib id' cfg' id Hne w0) as E1.
      pose proof (runServiceProxy_dels lib id' cfg' id w0) as E2.
      unfold same in *. simpl. by rewrite E1, E2. }
    unfold same in E. injection E as E1 E2. split.
    - by rewrite E1.
    - rewrite E2. unfold dels. simpl. rewrite count_snoc. simpl. lia. }
  assert (exists w', Serve_config lib ro S w = Panic w' /\
            states w' !! id = Some st /\ dels id w' = dels id w /\
            forall N, ~ references S N ->
              svc_closes N w' = svc_closes N w /\
              registry w' !! N = registry w !! N) as (w' & -> & R1 & R2 & R3);
    [|done].
  unfold Serve_config. rewrite (bind_done _ _ w tt wl) by reflexivity.
  fold prov. destruct (prov wl) as [[] wp|wp] eqn:Ep; simpl in *.
  - rewrite (bind_done _ _ wl tt wp Ep).
    unfold removeNotPresent.
    set (gone := removedProxies ro (proxy wp) S).
    rewrite (bind_done _ _ wp gone wp) by reflexivity.
    destruct (decommission_loop_panics (range ro gone) id st wp)
      as (w' & H & Es & Ed & Er); [apply range_NoDup| |done..|].
    { apply (elem_of_range ro). unfold gone. rewrite removedProxies_lookup.
      rewrite decide_False; [done|]. rewrite HS. by intros []. }
    rewrite (bind_panic _ _ wp w' H). exists w'.
    split; [done|]. split; [congruence|]. split; [congruence|].
    intros N HN. destruct (Er N) as [-> ->].
    pose proof (Hprov N HN) as E. unfold undone in E. by injection E.
  - rewrite (bind_panic _ _ wl wp Ep). exists wp.
    split; [done|]. split; [done|]. split; [done|].
    intros N HN. pose proof (Hprov N HN) as E. unfold undone in E. by injection E.
Qed.

End Nil_listener.

(** In [come_and_go] the third step removes the runtime state of A,
    which records listener 0 as the listener of upstream u1. *)
Lemma come_and_go_removes_a_recorded_listener :
  decommissioned_holding consul in_order come_and_go 0.
Proof.
  exists [RecvConfig snapA; Sched 0], (RecvConfig ∅), [HostClose; Sched 0; Sched 0; Sched 0; Sched 0].
  split; [reflexivity|].
  exists ∅, "A", {| config := cfgA; listener := Some 1;
                    upstreams := {[ "0.0.0.0->u1" := 0 ]} |}.
  split; [reflexivity|]. split; [vm_compute; reflexivity|].
  split; [vm_compute; reflexivity|]. split; [reflexivity|].
  right. exists "0.0.0.0->u1". vm_compute. reflexivity.
Qed.

(** C1: A is provisioned and, before its public-listener goroutine has run,
    leaves the snapshot. The pass that should decommission A panics on the
    nil listener: A has been provisioned once and is decommissioned not
    once but never, and its runtime state is still there. *)
Theorem removed_instance_is_not_decommissioned :
  returned (step consul in_order (RecvConfig snapA) boot) = true /\
  puts "A" world_A = 1 /\
  returned (step consul in_order (RecvConfig ∅) world_A) = false /\
  dels "A" (world_of (step consul in_order (RecvConfig ∅) world_A)) = 0 /\
  config <$> states (world_of (step consul in_order (RecvConfig ∅) world_A)) !! "A"
  = Some cfgA.
Proof. vm_compute. repeat split. Qed.

(** C3: after the same two snapshots no instance of the latest snapshot
    refers to serviceX, and yet its handle has not been closed and is still
    in the registry: the pass panicked before the loop over the handles. *)
Theorem unreferenced_handle_is_left_open :
  registry world_A !! "serviceX" = Some (Some 0) /\
  returned (step consul in_order (RecvConfig ∅) world_A) = false /\
  svc_closes "serviceX" (world_of (step consul in_order (RecvConfig ∅) world_A)) = 0 /\
  registry (world_of (step consul in_order (RecvConfig ∅) world_A)) !! "serviceX"
  = Some (Some 0).
Proof. vm_compute. repeat split. Qed.

(** ** More about a pass, Close and the goroutines *)

(** Leaves of an observation that does not read the trace. *)
Ltac unchanged :=
  idtac;
  match goal with
  | |- steps (same _) (emit _) => intros ?; reflexivity
  | |- steps (same _) (modify _) => intros ?; reflexivity
  end.

Section Passes.

Variable lib : Library.
Variable ro : RangeOrder.

Lemma range_empty {A} : range ro (∅ : gmap string A) = [].
Proof.
  apply Permutation_nil_r. rewrite (range_perm ro). by rewrite map_to_list_empty.
Qed.

Lemma forM_unchanged {A} (l : list A) (f : A -> M unit) w :
  (forall a, a ∈ l -> f a w = Done tt w) -> forM l f w = Done tt w.
Proof.
  induction l as [|a l IH]; intros H; simpl; [done|].
  rewrite (bind_done _ _ w tt w) by (apply H; left).
  apply IH. intros b Hb. apply H. by right.
Qed.

(** *** The two differences *)

(** X3. [removedProxies] returns the runtime states whose identifier is not
    in the snapshot, and [removedServices] the handles whose service name no
    instance of the snapshot refers to; neither depends on the order in
    which the maps are ranged over. *)
Theorem removed_maps_are_differences (ro' : RangeOrder) p new :
  (forall k, removedProxies ro p new !! k
             = if decide (k ∈ dom new) then None else proxyStates p !! k) /\
  (forall N, removedServices ro p new !! N
             = if decide (references new N) then None else services p !! N) /\
  removedProxies ro p new = removedProxies ro' p new /\
  removedServices ro p new = removedServices ro' p new.
Proof.
  assert (forall r k, removedProxies r p new !! k
             = if decide (k ∈ dom new) then None else proxyStates p !! k) as HP.
  { intros r k. rewrite removedProxies_lookup.
    pose proof (elem_of_dom new k). repeat case_decide; tauto. }
  assert (forall r N, removedServices r p new !! N
             = if decide (references new N) then None else services p !! N) as HS.
  { intros r N. case_decide.
    - by apply removedServices_referenced.
    - by apply removedServices_unreferenced. }
  split; [apply HP|]. split; [apply HS|]. split; apply map_eq; intros k.
  - by rewrite !HP.
  - by rewrite !HS.
Qed.

(** *** A snapshot that asks for nothing new *)

(** X4. When the identifiers of the snapshot are those of the runtime
    states and every registered handle is referred to, the pass returns and
    changes nothing but the log: an instance whose configuration has
    changed under the same identifier is left as it was. *)
Theorem settled_snapshot_changes_nothing S w :
  serving w = true ->
  dom (states w) = dom S ->
  (forall N, is_Some (registry w !! N) -> references S N) ->
  step lib ro (RecvConfig S) w
  = Done tt (with_trace (fun t => t ++ [Log DebugGotNewConfig]) w).
Proof.
  intros Hs Hd Hr. rewrite step_RecvConfig by done. unfold Serve_config.
  set (w1 := with_trace (fun t => t ++ [Log DebugGotNewConfig]) w).
  rewrite (bind_done _ _ w tt w1) by reflexivity.
  rewrite (bind_done _ _ w1 tt w1).
  - unfold removeNotPresent, bind, gets.
    assert (removedProxies ro (proxy w1) S = ∅) as ->.
    { apply map_empty. intros k. rewrite removedProxies_lookup.
      case_decide as Hk; [done|]. apply not_elem_of_dom.
      change (k ∉ dom (states w)). rewrite Hd. by rewrite elem_of_dom. }
    rewrite range_empty. simpl.
    assert (removedServices ro (proxy w) S = ∅) as ->.
    { apply map_empty. intros N. destruct (decide (references S N)) as [H|H].
      - by apply removedServices_referenced.
      - rewrite removedServices_unreferenced by done.
        change (registry w !! N = None).
        destruct (registry w !! N) eqn:E; [|done]. destruct H. apply Hr. eauto. }
    by rewrite range_empty.
  - apply forM_unchanged. intros [id cfg] Hin. apply runServiceProxy_present.
    apply elem_of_range in Hin. change (is_Some (states w !! id)).
    apply elem_of_dom. rewrite Hd. apply elem_of_dom. eauto.
Qed.

(** *** Close and the registry *)

Lemma closeService_returns name svc w :
  Service_Close lib svc = Returns tt ->
  closeService lib name svc w
  = Done tt (with_trace (fun t => t ++ [CallServiceClose name svc]) w).
Proof. intros H. unfold closeService, bind. simpl. by rewrite H. Qed.

Lemma closeService_panics name svc w :
  Service_Close lib svc = Panics ->
  returned (closeService lib name svc w) = false.
Proof. intros H. unfold closeService, bind. simpl. by rewrite H. Qed.

(** The calls [Close] makes while it ranges over the registry. *)
Definition close_calls (l : list (string * option sid)) : list event :=
  (fun kv => CallServiceClose kv.1 kv.2) <$> l.

Lemma closing_handles l w :
  (forall kv, kv ∈ l -> Service_Close lib kv.2 = Returns tt) ->
  forM l (fun kv => closeService lib kv.1 kv.2) w
  = Done tt (with_trace (fun t => t ++ close_calls l) w).
Proof.
  revert w. induction l as [|kv l IH]; intros w H; simpl.
  - destruct w. unfold with_trace, ret. simpl. by rewrite app_nil_r.
  - rewrite (bind_done _ _ w tt _ (closeService_returns _ _ _ (H kv ltac:(left)))).
    rewrite IH by (intros kv' Hin; apply H; by right).
    unfold with_trace. simpl. by rewrite <- app_assoc.
Qed.

Lemma closing_handles_returned l w :
  returned (forM l (fun kv => closeService lib kv.1 kv.2) w) = true ->
  forall kv, kv ∈ l -> Service_Close lib kv.2 = Returns tt.
Proof.
  revert w. induction l as [|kv l IH]; intros w H kv' Hin.
  - by apply elem_of_nil in Hin.
  - simpl in H. destruct (Service_Close lib kv.2) as [[]|] eqn:E.
    + rewrite (bind_done _ _ w tt _ (closeService_returns _ _ _ E)) in H.
      apply elem_of_cons in Hin as [->|Hin]; [done|]. by eapply IH.
    + unfold bind in H. pose proof (closeService_panics kv.1 kv.2 w E) as Hp.
      destruct (closeService lib kv.1 kv.2 w); done.
Qed.

Lemma count_close_calls N l :
  NoDup l.*1 -> count (is_svc_close N) (close_calls l) = ind (N ∈ l.*1).
Proof.
  induction l as [|kv l IH]; intros Hnd.
  - rewrite ind_False; [done|]. apply not_elem_of_nil.
  - inversion Hnd as [|?? Hk Hnd']; subst. unfold close_calls in *.
    rewrite !fmap_cons. simpl. rewrite IH by done. rewrite ind_bool_decide.
    unfold ind. repeat case_decide; try lia; exfalso; set_solver.
Qed.

Definition is_listener_close (e : event) : bool :=
  match e with
  | CallListenerClose _ _ => true
  | _ => false
  end.

Lemma close_calls_no_listener l : count is_listener_close (close_calls l) = 0.
Proof.
  induction l as [|kv l IH]; [done|].
  unfold close_calls in *. rewrite fmap_cons. exact IH.
Qed.

Lemma Close_returned w :
  returned (Close lib ro w) = true ->
  stopChan (proxy w) = false /\
  forall N svc, registry w !! N = Some svc -> Service_Close lib svc = Returns tt.
Proof.
  intros H. destruct (stopChan (proxy w)) eqn:Hc.
  - unfold Close, bind, gets in H. by rewrite Hc in H.
  - split; [done|]. intros N svc HN. rewrite Close_open in H by done.
    apply (closing_handles_returned _ _ H (N, svc)). by apply elem_of_range.
Qed.

Lemma Close_done w :
  stopChan (proxy w) = false ->
  (forall N svc, registry w !! N = Some svc -> Service_Close lib svc = Returns tt) ->
  Close lib ro w
  = Done tt (with_trace (fun t => t ++ close_calls (range ro (registry w)))
               (stop_signalled w)).
Proof.
  intros Hc Hall. rewrite Close_open by done. apply closing_handles.
  intros [N svc] Hin. apply (Hall N). by apply elem_of_range in Hin.
Qed.

Lemma Close_result w w' :
  Close lib ro w = Done tt w' ->
  stopChan (proxy w') = true /\ registry w' = registry w /\
  states w' = states w /\ goroutines w' = goroutines w /\
  serving w' = serving w /\
  (forall N, svc_closes N w' = svc_closes N w + ind (is_Some (registry w !! N))) /\
  count is_listener_close (trace w') = count is_listener_close (trace w).
Proof.
  intros H. destruct (Close_returned w) as [Hc Hall]; [by rewrite H|].
  rewrite Close_done in H by done. injection H as <-.
  split; [done|]. split; [done|]. split; [done|]. split; [done|].
  split; [done|]. split.
  - intros N. unfold svc_closes. simpl. rewrite !count_app. simpl.
    rewrite count_close_calls by apply range_NoDup.
    rewrite Nat.add_0_r. f_equal. unfold ind.
    pose proof (elem_of_range_keys ro (registry w) N).
    repeat case_decide; tauto.
  - simpl. rewrite !count_app. simpl. rewrite close_calls_no_listener. lia.
Qed.

(** X5. [Close] returns exactly when the stop channel is open and the
    [Close] of every registered handle returns. It then has closed the
    channel and called [Close] once on every registered handle; the
    registry, the runtime states and the pool of goroutines are as they
    were: no entry is removed and no listener is closed by [Close] itself. *)
Theorem Close_closes_every_handle w :
  (returned (Close lib ro w) = true <->
     stopChan (proxy w) = false /\
     forall N svc, registry w !! N = Some svc -> Service_Close lib svc = Returns tt) /\
  (forall w', Close lib ro w = Done tt w' ->
     stopChan (proxy w') = true /\ registry w' = registry w /\
     states w' = states w /\ goroutines w' = goroutines w /\
     (forall N, svc_closes N w' = svc_closes N w + ind (is_Some (registry w !! N))) /\
     count is_listener_close (trace w') = count is_listener_close (trace w)).
Proof.
  split.
  - split; [apply Close_returned|]. intros [Hc Hall]. by rewrite Close_done.
  - intros w' H.
    destruct (Close_result w w' H) as (H1 & H2 & H3 & H4 & _ & H5 & H6). done.
Qed.

(** X6. [Close] leaves the handles in the registry, so a snapshot that
    Serve still receives after [Close], applied to its end, closes a second
    time every handle that no instance of the snapshot refers to. *)
Theorem handles_are_closed_again_after_Close S w w' :
  serving w = true ->
  run lib ro [HostClose; RecvConfig S] w = Done tt w' ->
  forall N, is_Some (registry w !! N) -> ~ references S N ->
    svc_closes N w' = svc_closes N w + 2.
Proof.
  intros Hs H N HN Hr. unfold run in H. cbn [forM] in H.
  apply bind_inv in H as ([] & w1 & H1 & H).
  apply bind_inv in H as ([] & w2 & H2 & H). injection H as <-.
  destruct (Close_result w w1 H1) as (_ & Er & _ & _ & Es & Ec & _).
  rewrite step_RecvConfig in H2 by congruence.
  destruct (Serve_config_done _ _ _ _ _ H2) as (_ & _ & _ & _ & C & _).
  rewrite C, Ec, Er. rewrite !ind_True by done. lia.
Qed.

(** *** The stop channel and the end of Serve *)



Lemma Close_serving : steps (same serving) (Close lib ro).
Proof. walk unchanged. Qed.





(** *** What provisioning a new instance records *)

(** The keys of the upstream listeners of a configuration, each with the
    address of the listener made for it when [n] listeners exist. *)
Definition keyed (ucs : list UpstreamConfig) (n : nat) : list (string * lid) :=
  zip (UpstreamConfig_String lib <$> ucs) (seq n (length ucs)).

Definition record_all (m : gmap string lid) (kls : list (string * lid))
  : gmap string lid :=
  foldl (fun m kl => <[kl.1 := kl.2]> m) m kls.

(** The two goroutines [startListener] launches for a listener. *)
Definition spawned (kl : string * lid) : list task :=
  [GoServe kl.1 kl.2; GoStopWatch kl.2].

Lemma startUpstream_pool id svc uc w w' :
  startUpstream lib id svc uc w = Done tt w' ->
  goroutines w'
  = goroutines w ++ spawned (UpstreamConfig_String lib uc, listeners_made w) /\
  registry w' = registry w.
Proof.
  unfold startUpstream, NewListener, write_upstream, put_state, bind, gets. simpl.
  destruct (proxyStates (proxy w) !! id) as [st|]; simpl; [|done].
  intros [= <-]. simpl. by rewrite <- app_assoc.
Qed.

Lemma upstream_loop id svc ucs w w' st :
  states w !! id = Some st ->
  forM ucs (startUpstream lib id svc) w = Done tt w' ->
  states w'
  = <[id := {| config := config st; listener := listener st;
               upstreams := record_all (upstreams st) (keyed ucs (listeners_made w)) |}]>
      (states w) /\
  listeners_made w' = listeners_made w + length ucs /\
  goroutines w' = goroutines w ++ flat_map spawned (keyed ucs (listeners_made w)) /\
  registry w' = registry w.
Proof.
  revert w st. induction ucs as [|uc ucs IH]; intros w st Hst H.
  - injection H as <-. simpl. rewrite app_nil_r. repeat split; [|lia].
    destruct st. simpl. symmetry. by apply insert_id.
  - simpl in H. apply bind_inv in H as ([] & w0 & H0 & H).
    destruct (startUpstream_done _ _ _ _ _ _ H0) as (st0 & Hst0 & Es & El & _).
    destruct (startUpstream_pool _ _ _ _ _ H0) as [Eg Er].
    assert (st0 = st) as -> by congruence.
    set (st1 := {| config := config st; listener := listener st;
                   upstreams := <[UpstreamConfig_String lib uc := listeners_made w]>
                                  (upstreams st) |}) in *.
    assert (states w0 !! id = Some st1) as Hst1 by (by rewrite Es, lookup_insert_eq).
    destruct (IH w0 st1 Hst1 H) as (Is & Il & Ig & Ir).
    assert (keyed (uc :: ucs) (listeners_made w)
            = (UpstreamConfig_String lib uc, listeners_made w)
                :: keyed ucs (listeners_made w0)) as Ek
      by (unfold keyed; rewrite El; reflexivity).
    rewrite Ek. repeat split.
    + rewrite Is, Es. by rewrite insert_insert_eq.
    + rewrite Il, El. simpl. lia.
    + rewrite Ig, Eg. simpl. by rewrite <- app_assoc.
    + by rewrite Ir.
Qed.

Lemma announce_keeps cfg svc :
  steps (same (fun w => (proxy w, goroutines w, listeners_made w)))
        (announce lib cfg svc).
Proof. walk unchanged. Qed.

Lemma resolve_done cfg w svc w1 :
  resolve lib cfg w = Done svc w1 ->
  registry w1 !! ProxiedServiceName cfg = Some svc /\
  states w1 = states w /\ listeners_made w1 = listeners_made w /\
  goroutines w1 = goroutines w /\
  (forall svc0, registry w !! ProxiedServiceName cfg = Some svc0 ->
                svc0 = svc /\ w1 = w).
Proof.
  unfold resolve, bind at 1, gets. fold (registry w).
  destruct (registry w !! ProxiedServiceName cfg) as [svc0|] eqn:Hf.
  - intros [= <- <-]. split; [done|]. split; [done|]. split; [done|].
    split; [done|]. by intros svc1 [= <-].
  - unfold bind at 1. rewrite createService_eq. intros H.
    apply bind_inv in H as ([] & wa & Ha & H). injection H as <- <-.
    pose proof (steps_done _ _ _ _ _ (announce_keeps cfg _) Ha) as E.
    unfold same in E. injection E as Ep Eg El.
    unfold registry, states. rewrite Ep, Eg, El.
    split; [unfold created; simpl; by rewrite lookup_insert_eq|].
    split; [done|]. split; [done|]. split; [done|]. done.
Qed.

Lemma record_all_lookup m kls k :
  k ∈ kls.*1 -> exists l, l ∈ kls.*2 /\ record_all m kls !! k = Some l.
Proof.
  revert m. induction kls as [|[k0 l0] kls IH]; intros m Hin.
  - by apply elem_of_nil in Hin.
  - unfold record_all. cbn [foldl]. fold (record_all (<[k0 := l0]> m) kls).
    destruct (decide (k ∈ kls.*1)) as [Hk|Hk].
    + destruct (IH (<[k0 := l0]> m) Hk) as (l & Hl & E). exists l.
      split; [|done]. rewrite fmap_cons. by right.
    + rewrite fmap_cons in Hin. apply elem_of_cons in Hin as [->|Hin]; [|done].
      exists l0. split; [rewrite fmap_cons; left|].
      assert (forall m', record_all m' kls !! k0 = m' !! k0) as ->.
      { clear IH. induction kls as [|[k1 l1] kls IH]; intros m'; [done|].
        unfold record_all. cbn [foldl]. fold (record_all (<[k1 := l1]> m') kls).
        rewrite fmap_cons in Hk. apply not_elem_of_cons in Hk as [Hne Hk].
        rewrite IH by done. by rewrite lookup_insert_ne. }
      by rewrite lookup_insert_eq.
Qed.

Lemma record_all_dom m kls k :
  is_Some (record_all m kls !! k) -> k ∈ kls.*1 \/ is_Some (m !! k).
Proof.
  revert m. induction kls as [|[k0 l0] kls IH]; intros m H; [by right|].
  unfold record_all in H. cbn [foldl] in H.
  destruct (IH _ H) as [Hk|Hk].
  - left. rewrite fmap_cons. by right.
  - destruct (decide (k = k0)) as [->|Hne].
    + left. rewrite fmap_cons. left.
    + rewrite lookup_insert_ne in Hk by done. by right.
Qed.

Lemma keyed_keys ucs n : (keyed ucs n).*1 = UpstreamConfig_String lib <$> ucs.
Proof. unfold keyed. apply fst_zip. by rewrite length_fmap, length_seq. Qed.

Lemma keyed_listeners ucs n : (keyed ucs n).*2 = seq n (length ucs).
Proof. unfold keyed. apply snd_zip. by rewrite length_fmap, length_seq. Qed.

(** X8. Provisioning an identifier that has no runtime state, when it
    returns: the runtime state of the identifier holds the configuration,
    no public listener yet, and under the key of each upstream the last
    listener made for that key; one listener has been made and started per
    upstream, in the order of the configuration, so two upstreams with one
    key leave a started listener that is recorded nowhere; the
    public-listener goroutine is pending with the handle registered for the
    service name, and every other runtime state is as it was. *)
Theorem new_instance_is_recorded id cfg w w' :
  states w !! id = None ->
  runServiceProxy lib id cfg w = Done tt w' ->
  exists svc ups,
    registry w' !! ProxiedServiceName cfg = Some svc /\
    states w' = <[id := {| config := cfg; listener := None; upstreams := ups |}]>
                  (states w) /\
    ups = record_all ∅ (keyed (Upstreams cfg) (listeners_made w)) /\
    (forall key, is_Some (ups !! key)
                 <-> exists uc, uc ∈ Upstreams cfg /\ UpstreamConfig_String lib uc = key) /\
    (forall key (l : lid), ups !! key = Some l ->
                   listeners_made w <= l < listeners_made w') /\
    listeners_made w' = listeners_made w + length (Upstreams cfg) /\
    goroutines w'
    = goroutines w ++ GoPublic id cfg svc
        :: flat_map spawned (keyed (Upstreams cfg) (listeners_made w)).
Proof.
  intros Hid H. rewrite runServiceProxy_absent in H by done.
  apply bind_inv in H as (svc & w1 & H1 & H).
  destruct (resolve_done _ _ _ _ H1) as (Hreg & Es1 & El1 & Eg1 & _).
  unfold launch in H. apply bind_inv in H as ([] & w2 & H2 & H).
  injection H2 as <-.
  set (w2 := with_goroutines (fun g => g ++ [GoPublic id cfg svc])
               (with_trace (fun t => t ++ [Go (GoPublic id cfg svc)]) w1)) in *.
  set (st := {| config := cfg; listener := None; upstreams := ∅ |}).
  assert (states w2 !! id = Some st) as Hst.
  { change (states w1 !! id = Some st). rewrite Es1. unfold states, entered. simpl.
    by rewrite lookup_insert_eq. }
  destruct (upstream_loop _ _ _ _ _ _ Hst H) as (Es & El & Eg & Er).
  change (listeners_made w2) with (listeners_made w1) in *.
  rewrite El1 in *. change (listeners_made (entered id cfg w)) with (listeners_made w) in *.
  set (ups := record_all ∅ (keyed (Upstreams cfg) (listeners_made w))) in *.
  exists svc, ups. split; [by rewrite Er|]. split.
  { rewrite Es. change (states w2) with (states w1). rewrite Es1.
    unfold states, entered. simpl. by rewrite insert_insert_eq. }
  split; [done|]. split.
  { intros key.
    assert (key ∈ UpstreamConfig_String lib <$> Upstreams cfg
            <-> exists uc, uc ∈ Upstreams cfg /\ UpstreamConfig_String lib uc = key) as <-.
    { rewrite list_elem_of_fmap. split; intros (uc & A & B); exists uc; done. }
    rewrite <- (keyed_keys _ (listeners_made w)). split.
    - intros Hk. destruct (record_all_dom _ _ _ Hk) as [?|Hn]; [done|].
      rewrite lookup_empty in Hn. by destruct Hn.
    - intros Hk. destruct (record_all_lookup ∅ _ _ Hk) as (l & _ & E).
      unfold ups. rewrite E. eauto. }
  split.
  { intros key l Hl. unfold ups in Hl.
    assert (key ∈ (keyed (Upstreams cfg) (listeners_made w)).*1) as Hk.
    { assert (is_Some (record_all ∅ (keyed (Upstreams cfg) (listeners_made w))
                         !! key)) as Hs by (exists l; exact Hl).
      destruct (record_all_dom _ _ _ Hs) as [?|Hn]; [done|].
      rewrite lookup_empty in Hn. by destruct Hn. }
    destruct (record_all_lookup ∅ _ _ Hk) as (l' & Hl' & E).
    pose proof (eq_trans (eq_sym E) Hl) as [= <-].
    rewrite keyed_listeners in Hl'. apply elem_of_seq in Hl'. lia. }
  split; [done|].
  rewrite Eg. change (goroutines w2) with (goroutines w1 ++ [GoPublic id cfg svc]).
  rewrite Eg1. change (goroutines (entered id cfg w)) with (goroutines w).
  by rewrite <- app_assoc.
Qed.

(** *** The public-listener goroutine *)


End Passes.

(** *** Where a runtime state comes from *)

(** [keeps I]: the property [I] of the world survives. *)
Definition keeps (I : World -> Prop) : relation World := fun w w' => I w -> I w'.

Global Instance keeps_preorder I : PreOrder (keeps I).
Proof.
  split; [intros w H; exact H|]. intros w1 w2 w3 H1 H2 H. apply H2, H1, H.
Qed.

(** The runtime state line 58 creates. *)
Definition fresh_state (cfg : Config) : proxyState :=
  {| config := cfg; listener := None; upstreams := ∅ |}.

(** The two writes to a runtime state that exists: lines 96 and 105. *)
Definition with_listener (l : lid) (st : proxyState) : proxyState :=
  {| config := config st; listener := Some l; upstreams := upstreams st |}.

Definition with_upstream (key : string) (l : lid) (st : proxyState) : proxyState :=
  {| config := config st; listener := listener st;
     upstreams := <[key := l]> (upstreams st) |}.

Section Origins.

Variable lib : Library.
Variable ro : RangeOrder.

(** A property of runtime states that survives the write of the public
    listener and the write of a listener under the key of an upstream of
    the state's configuration. *)
Variable φ : string -> proxyState -> Prop.
Hypothesis φ_listener : forall id st l, φ id st -> φ id (with_listener l st).
Hypothesis φ_upstream : forall id st uc l,
  φ id st -> uc ∈ Upstreams (config st) ->
  φ id (with_upstream (UpstreamConfig_String lib uc) l st).

Definition every_state (w : World) : Prop :=
  forall id st, states w !! id = Some st -> φ id st.

(** ... and the runtime state of [id], if there is one, has configuration
    [cfg]. *)
Definition provisioning (id : string) (cfg : Config) (w : World) : Prop :=
  every_state w /\ forall st, states w !! id = Some st -> config st = cfg.

Lemma write_listener_every_state id l :
  steps (keeps every_state) (write_listener id l).
Proof.
  intros w H. unfold write_listener, bind, gets, put_state.
  destruct (proxyStates (proxy w) !! id) as [st|] eqn:Hst; simpl; [|done].
  intros id' st'. unfold states. simpl.
  destruct (decide (id' = id)) as [->|Hne].
  - rewrite lookup_insert_eq. intros [= <-]. by apply (φ_listener id st l), H.
  - rewrite lookup_insert_ne by done. apply H.
Qed.

Lemma write_upstream_provisioning id cfg uc l :
  uc ∈ Upstreams cfg ->
  steps (keeps (provisioning id cfg))
        (write_upstream id (UpstreamConfig_String lib uc) l).
Proof.
  intros Huc w [H Hc]. unfold write_upstream, bind, gets, put_state.
  destruct (proxyStates (proxy w) !! id) as [st|] eqn:Hst; simpl; [|done].
  split.
  - intros id' st'. unfold states. simpl.
    destruct (decide (id' = id)) as [->|Hne].
    + rewrite lookup_insert_eq. intros [= <-].
      apply (φ_upstream id st uc l); [by apply H|]. by rewrite (Hc st Hst).
    + rewrite lookup_insert_ne by done. apply H.
  - intros st'. unfold states. simpl. rewrite lookup_insert_eq.
    intros [= <-]. simpl. by apply Hc.
Qed.

Lemma delete_every_state k :
  steps (keeps every_state)
    (modify (with_proxy (fun p => set_proxyStates (delete k (proxyStates p)) p))).
Proof.
  intros w H id st. unfold states. simpl.
  destruct (decide (id = k)) as [->|Hne].
  - by rewrite lookup_delete_eq.
  - rewrite lookup_delete_ne by done. apply H.
Qed.

Lemma entered_provisioning id cfg w :
  φ id (fresh_state cfg) -> every_state w -> provisioning id cfg (entered id cfg w).
Proof.
  intros HP H. split.
  - intros id' st. unfold states, entered. simpl.
    destruct (decide (id' = id)) as [->|Hne].
    + rewrite lookup_insert_eq. by intros [= <-].
    + rewrite lookup_insert_ne by done. apply H.
  - intros st. unfold states, entered. simpl. rewrite lookup_insert_eq.
    by intros [= <-].
Qed.

(** Leaves that leave the runtime states alone, and the writes. *)
Ltac settled :=
  idtac;
  match goal with
  | |- steps (keeps _) (write_listener _ _) => apply write_listener_every_state
  | |- steps (keeps every_state)
         (modify (with_proxy (fun p => set_proxyStates (delete _ _) _))) =>
      apply delete_every_state
  | |- steps (keeps _) (emit _) => intros ? H; exact H
  | |- steps (keeps _) (modify _) => intros ? H; exact H
  end.

Lemma after_entry_provisioning id cfg :
  steps (keeps (provisioning id cfg))
        (bind (resolve lib cfg) (launch lib id cfg)).
Proof.
  apply steps_bind; order; [walk settled|]. intros svc. unfold launch.
  apply steps_bind; order; [walk settled|]. intros _.
  apply steps_forM; order. intros uc Huc. unfold startUpstream.
  walk ltac:(first [by apply write_upstream_provisioning | settled]).
Qed.

Lemma runServiceProxy_every_state id cfg :
  φ id (fresh_state cfg) ->
  steps (keeps every_state) (runServiceProxy lib id cfg).
Proof.
  intros HP w H. destruct (states w !! id) as [st|] eqn:Hst.
  - rewrite runServiceProxy_present by (rewrite Hst; eauto). done.
  - rewrite runServiceProxy_absent by done.
    apply (after_entry_provisioning id cfg (entered id cfg w)).
    by apply entered_provisioning.
Qed.

Lemma step_every_state a :
  (forall S id cfg, a = RecvConfig S -> S !! id = Some cfg -> φ id (fresh_state cfg)) ->
  steps (keeps every_state) (step lib ro a).
Proof.
  intros HP. destruct a as [S| | |n].
  - unfold step. apply steps_bind; order; [walk settled|]. intros [|]; [|walk settled].
    unfold Serve_config. apply steps_bind; order; [walk settled|]. intros _.
    apply steps_bind; order; [|intros _; walk settled].
    apply steps_forM; order. intros [id cfg] Hin.
    apply runServiceProxy_every_state. apply (HP S); [done|].
    by apply elem_of_range in Hin.
  - walk settled.
  - walk settled.
  - walk settled.
Qed.

End Origins.

Section Provenance.

Variable lib : Library.
Variable ro : RangeOrder.

(** The keys of the recorded upstream listeners are keys of upstreams of
    the configuration. *)
Definition keys_configured (st : proxyState) : Prop :=
  forall key, is_Some (upstreams st !! key) ->
    exists uc, uc ∈ Upstreams (config st) /\ UpstreamConfig_String lib uc = key.

(** X10. In every execution from the start, whether it runs to its end or
    panics, the configuration of a runtime state is the one a received
    snapshot gave for its identifier, and every upstream listener it
    records is recorded under the key of an upstream of that
    configuration. *)
Theorem runtime_states_come_from_snapshots sched id st :
  states (world_of (run lib ro sched boot)) !! id = Some st ->
  (exists S, RecvConfig S ∈ sched /\ S !! id = Some (config st)) /\
  keys_configured st.
Proof.
  set (φ := fun id st =>
              (exists S, RecvConfig S ∈ sched /\ S !! id = Some (config st)) /\
              keys_configured st).
  assert (steps (keeps (every_state φ)) (run lib ro sched)) as H.
  { apply steps_forM; order. intros a Ha. apply (step_every_state lib ro φ).
    - intros id' st' l [H1 H2]. split; [done|]. exact H2.
    - intros id' st' uc l [H1 H2] Huc. split; [done|]. intros key Hkey.
      simpl in Hkey. destruct (decide (key = UpstreamConfig_String lib uc)) as [->|Hn].
      + by exists uc.
      + rewrite lookup_insert_ne in Hkey by done. by apply H2.
    - intros S id' cfg -> HS. split; [by exists S|].
      intros key [l Hl]. simpl in Hl. by rewrite lookup_empty in Hl. }
  intros Hst. apply (H boot); [|done].
  intros id' st' E.
  assert (states boot !! id' = None) as E' by apply lookup_empty. congruence.
Qed.

End Provenance.

(** *** Runs *)

(** Instance A again, now with a second upstream. *)
Definition snapA_changed : gmap string Config :=
  {[ "A" := cfg_for "serviceX" ["u1"; "u9"] ]}.

Lemma settled_snapshot_changes_nothing_witness :
  (serving world_A_listening = true /\
   dom (states world_A_listening) = dom snapA_changed /\
   (forall N, is_Some (registry world_A_listening !! N) ->
              references snapA_changed N)) /\
  step consul in_order (RecvConfig snapA_changed) world_A_listening
  = Done tt (with_trace (fun t => t ++ [Log DebugGotNewConfig]) world_A_listening).
Proof.
  assert (serving world_A_listening = true) as H0 by (vm_compute; reflexivity).
  assert (dom (states world_A_listening) = dom snapA_changed) as H1
    by (vm_compute; reflexivity).
  assert (forall N, is_Some (registry world_A_listening !! N) ->
                    references snapA_changed N) as H2.
  { assert (registry world_A_listening = {[ "serviceX" := Some 0 ]}) as ->
      by (vm_compute; reflexivity).
    intros N [svc HN]. apply lookup_singleton_Some in HN as [<- _].
    exists "A", (cfg_for "serviceX" ["u1"; "u9"]).
    split; [vm_compute; reflexivity|reflexivity]. }
  split; [exact (conj H0 (conj H1 H2))|].
  exact (settled_snapshot_changes_nothing consul in_order snapA_changed
           world_A_listening H0 H1 H2).
Defined.

(** The host stops the proxy while A is served, and an empty snapshot is
    still received. *)
Definition world_closed_then_empty : World :=
  world_of (run consul in_order [HostClose; RecvConfig ∅] world_A_listening).

Lemma handles_are_closed_again_after_Close_witness :
  (serving world_A_listening = true /\
   run consul in_order [HostClose; RecvConfig ∅] world_A_listening
   = Done tt world_closed_then_empty /\
   is_Some (registry world_A_listening !! "serviceX") /\
   ~ references ∅ "serviceX") /\
  svc_closes "serviceX" world_closed_then_empty
  = svc_closes "serviceX" world_A_listening + 2.
Proof.
  assert (serving world_A_listening = true) as H0 by (vm_compute; reflexivity).
  assert (run consul in_order [HostClose; RecvConfig ∅] world_A_listening
          = Done tt world_closed_then_empty) as H1 by (vm_compute; reflexivity).
  assert (is_Some (registry world_A_listening !! "serviceX")) as H2
    by (exists (Some 0); vm_compute; reflexivity).
  assert (~ references ∅ "serviceX") as H3
    by (intros (id & cfg & E & _); by rewrite lookup_empty in E).
  split; [exact (conj H0 (conj H1 (conj H2 H3)))|].
  exact (handles_are_closed_again_after_Close consul in_order ∅
           world_A_listening world_closed_then_empty H0 H1 "serviceX" H2 H3).
Defined.

Definition world_A_new : World := world_of (runServiceProxy consul "A" cfgA boot).

Lemma new_instance_is_recorded_witness :
  (states boot !! "A" = None /\
   runServiceProxy consul "A" cfgA boot = Done tt world_A_new) /\
  listeners_made world_A_new = listeners_made boot + length (Upstreams cfgA).
Proof.
  assert (states boot !! "A" = None) as H0 by reflexivity.
  assert (runServiceProxy consul "A" cfgA boot = Done tt world_A_new) as H1
    by (vm_compute; reflexivity).
  split; [exact (conj H0 H1)|].
  destruct (new_instance_is_recorded consul "A" cfgA boot world_A_new H0 H1)
    as (svc & ups & _ & _ & _ & _ & _ & El & _).
  exact El.
Defined.

Lemma runtime_states_come_from_snapshots_witness :
  states (world_of (run consul in_order A_then_B boot)) !! "B" = Some state_B /\
  keys_configured consul state_B.
Proof.
  assert (states (world_of (run consul in_order A_then_B boot)) !! "B"
          = Some state_B) as H by (vm_compute; reflexivity).
  split; [exact H|].
  exact (proj2 (runtime_states_come_from_snapshots consul in_order
                  A_then_B "B" state_B H)).
Defined.

(** ** The configuration watcher *)

(** [plcSetDefaults] and [ucSetDefaults]: a field that holds its type's
    zero value gets the default. *)
Definition plcSetDefaults (plc : PublicListenerConfig) : PublicListenerConfig :=
  {| BindAddress :=
       if decide (BindAddress plc = "") then "0.0.0.0" else BindAddress plc;
     BindPort := BindPort plc;
     LocalServiceAddress := LocalServiceAddress plc;
     LocalConnectTimeoutMs :=
       if decide (LocalConnectTimeoutMs plc = 0%N) then 1000%N
       else LocalConnectTimeoutMs plc;
     HandshakeTimeoutMs :=
       if decide (HandshakeTimeoutMs plc = 0%N) then 10000%N
       else HandshakeTimeoutMs plc |}.

Definition ucSetDefaults (uc : UpstreamConfig) : UpstreamConfig :=
  {| DestinationType :=
       if decide (DestinationType uc = "") then "service" else DestinationType uc;
     DestinationNamespace :=
       if decide (DestinationNamespace uc = "") then "default"
       else DestinationNamespace uc;
     DestinationName := DestinationName uc;
     LocalBindAddress :=
       if decide (LocalBindAddress uc = "") then "0.0.0.0" else LocalBindAddress uc;
     LocalBindPort := LocalBindPort uc |}.

(** What the handler reads of Consul's [api.CatalogNode]. An [api.Upstream]
    converts to a [proxy.UpstreamConfig] field by field, so the two are one
    record here. *)
Module api.

Record AgentServiceConnectProxyConfig := mkProxyConfig {
  DestinationServiceName : string;
  LocalServiceAddress : string;
  LocalServicePort : Z;
  Upstreams : list UpstreamConfig
}.

Record AgentService := mkAgentService {
  Kind : string;
  ID : string;
  Service : string;
  Port : N;
  Address : string;
  Proxy : option AgentServiceConnectProxyConfig
}.

Record CatalogNode := mkCatalogNode {
  Services : gmap string (option AgentService)
}.

End api.

(** The value a watch plan hands to its handler: a [*api.CatalogNode], nil
    or not, or a value of another type. *)
Inductive watch_val :=
| NodeVal (resp : option api.CatalogNode)
| OtherVal.

Inductive watcher_log :=
| WarnBadResponse
| WarnService (name : string).

(** What the handler does at its end: it sends a snapshot on the watcher's
    channel, returns without sending, or panics. *)
Inductive handled :=
| Sent (configs : gmap string Config)
| Dropped
| Crashed.

Section Watcher.

(** [api.ServiceKindConnectProxy] *)
Variable ServiceKindConnectProxy : string.
Variable ro : RangeOrder.

(** The body of the handler's loop: the configuration built for one proxy
    service. *)
Definition proxyConfig (svc : api.AgentService)
    (p : api.AgentServiceConnectProxyConfig) : Config :=
  {| ProxiedServiceName := api.DestinationServiceName p;
     ProxiedServiceNamespace := "default";
     PublicListener :=
       plcSetDefaults
         {| BindAddress := api.Address svc;
            BindPort := api.Port svc;
            LocalServiceAddress :=
              api.LocalServiceAddress p +:+ ":" +:+ pretty (api.LocalServicePort p);
            LocalConnectTimeoutMs := 0;
            HandshakeTimeoutMs := 0 |};
     Upstreams := ucSetDefaults <$> api.Upstreams p |}.

(** The loop over [resp.Services]: [None] is a nil dereference, of an entry
    of the map or of the [Proxy] field of a proxy service. *)
Fixpoint services_loop (l : list (string * option api.AgentService))
    (logs : list watcher_log) (configs : gmap string Config)
  : list watcher_log * option (gmap string Config) :=
  match l with
  | [] => (logs, Some configs)
  | (_, None) :: _ => (logs, None)
  | (_, Some svc) :: l' =>
      if decide (api.Kind svc = ServiceKindConnectProxy) then
        match api.Proxy svc with
        | None => (logs, None)
        | Some p =>
            services_loop l' (logs ++ [WarnService (api.Service svc)])
                          (<[api.ID svc := proxyConfig svc p]> configs)
        end
      else services_loop l' logs configs
  end.

Definition handler (blockVal : N) (val : watch_val) : list watcher_log * handled :=
  match val with
  | OtherVal => ([WarnBadResponse], Dropped)
  | NodeVal None => ([], Crashed)
  | NodeVal (Some resp) =>
      let r := services_loop (range ro (api.Services resp)) [] ∅ in
      (r.1, match r.2 with
            | Some configs => Sent configs
            | None => Crashed
            end)
  end.

(** *** Defaults *)

(** X11. [plcSetDefaults] and [ucSetDefaults] leave no defaulted field at its
    zero value, keep every field that was set and the fields they have no
    default for, and applying them a second time changes nothing. *)
Theorem defaults_fill_only_unset_fields plc uc :
  (BindAddress (plcSetDefaults plc) <> "" /\
   LocalConnectTimeoutMs (plcSetDefaults plc) <> 0%N /\
   HandshakeTimeoutMs (plcSetDefaults plc) <> 0%N /\
   DestinationType (ucSetDefaults uc) <> "" /\
   DestinationNamespace (ucSetDefaults uc) <> "" /\
   LocalBindAddress (ucSetDefaults uc) <> "") /\
  ((BindAddress plc <> "" -> BindAddress (plcSetDefaults plc) = BindAddress plc) /\
   (LocalConnectTimeoutMs plc <> 0%N ->
    LocalConnectTimeoutMs (plcSetDefaults plc) = LocalConnectTimeoutMs plc) /\
   (HandshakeTimeoutMs plc <> 0%N ->
    HandshakeTimeoutMs (plcSetDefaults plc) = HandshakeTimeoutMs plc) /\
   BindPort (plcSetDefaults plc) = BindPort plc /\
   LocalServiceAddress (plcSetDefaults plc) = LocalServiceAddress plc) /\
  ((DestinationType uc <> "" ->
    DestinationType (ucSetDefaults uc) = DestinationType uc) /\
   (DestinationNamespace uc <> "" ->
    DestinationNamespace (ucSetDefaults uc) = DestinationNamespace uc) /\
   (LocalBindAddress uc <> "" ->
    LocalBindAddress (ucSetDefaults uc) = LocalBindAddress uc) /\
   DestinationName (ucSetDefaults uc) = DestinationName uc /\
   LocalBindPort (ucSetDefaults uc) = LocalBindPort uc) /\
  plcSetDefaults (plcSetDefaults plc) = plcSetDefaults plc /\
  ucSetDefaults (ucSetDefaults uc) = ucSetDefaults uc.
Proof.
  destruct plc as [ba bp lsa lct hst], uc as [dt dn dname lba lbp].
  unfold plcSetDefaults, ucSetDefaults. simpl.
  repeat split; repeat case_decide; simpl; try congruence; try done;
    repeat f_equal; repeat case_decide; congruence.
Qed.

(** *** The handler *)

Definition faulty (kv : string * option api.AgentService) : Prop :=
  kv.2 = None \/
  exists svc, kv.2 = Some svc /\ api.Kind svc = ServiceKindConnectProxy /\
              api.Proxy svc = None.

Lemma services_loop_crash l logs c0 :
  (services_loop l logs c0).2 = None <-> exists kv, kv ∈ l /\ faulty kv.
Proof.
  revert logs c0. induction l as [|[k [svc|]] l IH]; intros logs c0; simpl.
  - split; [done|]. intros (kv & H%elem_of_nil & _). done.
  - destruct (decide (api.Kind svc = ServiceKindConnectProxy)) as [Hk|Hk].
    + destruct (api.Proxy svc) as [p|] eqn:Hp.
      * rewrite IH. split.
        -- intros (kv & Hin & Hf). exists kv. split; [by right|done].
        -- intros (kv & [->|Hin]%elem_of_cons & Hf); [|eauto].
           destruct Hf as [Hf|(svc' & [= <-] & _ & Hf)]; simpl in *; congruence.
      * split; [|done]. intros _. exists (k, Some svc). split; [left|].
        right. exists svc. done.
    + rewrite IH. split.
      * intros (kv & Hin & Hf). exists kv. split; [by right|done].
      * intros (kv & [->|Hin]%elem_of_cons & Hf); [|eauto].
        destruct Hf as [Hf|(svc' & [= <-] & Hk' & _)]; simpl in *; congruence.
  - split; [|done]. intros _. exists (k, None). split; [left|by left].
Qed.

Lemma services_loop_sent l logs c0 logs' c :
  services_loop l logs c0 = (logs', Some c) ->
  (forall id cfg, c !! id = Some cfg ->
     c0 !! id = Some cfg \/
     exists kv svc p, kv ∈ l /\ kv.2 = Some svc /\
       api.Kind svc = ServiceKindConnectProxy /\ api.Proxy svc = Some p /\
       api.ID svc = id /\ cfg = proxyConfig svc p) /\
  (forall id, is_Some (c0 !! id) -> is_Some (c !! id)) /\
  (forall kv svc, kv ∈ l -> kv.2 = Some svc ->
     api.Kind svc = ServiceKindConnectProxy -> is_Some (c !! api.ID svc)).
Proof.
  revert logs c0. induction l as [|[k [svc|]] l IH]; intros logs c0 H; simpl in H.
  - injection H as _ <-. repeat split; [by left|done|].
    intros kv svc Hin%elem_of_nil. done.
  - destruct (decide (api.Kind svc = ServiceKindConnectProxy)) as [Hk|Hk].
    + destruct (api.Proxy svc) as [p|] eqn:Hp; [|done].
      destruct (IH _ _ H) as (S1 & S2 & S3). repeat split.
      * intros id cfg Hc. destruct (S1 id cfg Hc) as [H0|(kv & s & q & Hin & Hr)].
        -- destruct (decide (id = api.ID svc)) as [->|Hne].
           ++ rewrite lookup_insert_eq in H0. injection H0 as <-. right.
              exists (k, Some svc), svc, p. repeat split; [left|done..].
           ++ rewrite lookup_insert_ne in H0 by done. by left.
        -- right. exists kv, s, q. split; [by right|done].
      * intros id Hid. apply S2. destruct (decide (id = api.ID svc)) as [->|Hne].
        -- rewrite lookup_insert_eq. eauto.
        -- by rewrite lookup_insert_ne.
      * intros kv s [->|Hin]%elem_of_cons Hs Hks; [|by eapply S3].
        simpl in Hs. injection Hs as <-. apply S2. rewrite lookup_insert_eq. eauto.
    + destruct (IH _ _ H) as (S1 & S2 & S3). repeat split; [|done|].
      * intros id cfg Hc. destruct (S1 id cfg Hc) as [H0|(kv & s & q & Hin & Hr)];
          [by left|]. right. exists kv, s, q. split; [by right|done].
      * intros kv s [->|Hin]%elem_of_cons Hs Hks; [|by eapply S3].
        simpl in Hs. injection Hs as <-. done.
  - done.
Qed.

Lemma handler_sent blockVal resp logs c :
  handler blockVal (NodeVal (Some resp)) = (logs, Sent c) ->
  services_loop (range ro (api.Services resp)) [] ∅ = (logs, Some c).
Proof.
  unfold handler.
  destruct (services_loop (range ro (api.Services resp)) [] ∅) as [lg [c'|]];
    simpl; [|done]. by intros [= -> ->].
Qed.

Lemma sent_snapshot blockVal resp logs c :
  handler blockVal (NodeVal (Some resp)) = (logs, Sent c) ->
  (forall id cfg, c !! id = Some cfg ->
     exists k svc p, api.Services resp !! k = Some (Some svc) /\
       api.Kind svc = ServiceKindConnectProxy /\ api.Proxy svc = Some p /\
       api.ID svc = id /\ cfg = proxyConfig svc p) /\
  (forall k svc, api.Services resp !! k = Some (Some svc) ->
     api.Kind svc = ServiceKindConnectProxy -> is_Some (c !! api.ID svc)).
Proof.
  intros H%handler_sent. destruct (services_loop_sent _ _ _ _ _ H) as (S1 & _ & S3).
  split.
  - intros id cfg Hc. destruct (S1 id cfg Hc) as [H0|([k v] & s & q & Hin & Hr)].
    + by rewrite lookup_empty in H0.
    + destruct Hr as (Hv & Hr). simpl in Hv. subst v.
      exists k, s, q. split; [by apply elem_of_range in Hin|done].
  - intros k svc Hk Hkind. apply (S3 (k, Some svc) svc); [|done..].
    by apply elem_of_range.
Qed.

(** X12. When the handler sends a snapshot, every entry of it is the
    configuration of a connect-proxy service of the response, under that
    service's ID; every connect-proxy service of the response has an entry;
    and when no two connect-proxy services share an ID, the entry of each is
    its own configuration, whatever the order the response is ranged over. *)
Theorem handler_sends_the_proxy_services blockVal resp logs c :
  handler blockVal (NodeVal (Some resp)) = (logs, Sent c) ->
  (forall id cfg, c !! id = Some cfg ->
     exists k svc p, api.Services resp !! k = Some (Some svc) /\
       api.Kind svc = ServiceKindConnectProxy /\ api.Proxy svc = Some p /\
       api.ID svc = id /\ cfg = proxyConfig svc p) /\
  (forall k svc, api.Services resp !! k = Some (Some svc) ->
     api.Kind svc = ServiceKindConnectProxy -> is_Some (c !! api.ID svc)) /\
  ((forall k1 k2 s1 s2,
      api.Services resp !! k1 = Some (Some s1) ->
      api.Services resp !! k2 = Some (Some s2) ->
      api.Kind s1 = ServiceKindConnectProxy ->
      api.Kind s2 = ServiceKindConnectProxy ->
      api.ID s1 = api.ID s2 -> s1 = s2) ->
   forall k svc p, api.Services resp !! k = Some (Some svc) ->
     api.Kind svc = ServiceKindConnectProxy -> api.Proxy svc = Some p ->
     c !! api.ID svc = Some (proxyConfig svc p)).
Proof.
  intros H. destruct (sent_snapshot _ _ _ _ H) as [Sound Complete].
  split; [done|]. split; [done|].
  intros Huniq k svc p Hk Hkind Hp.
  destruct (Complete k svc Hk Hkind) as [cfg Hc]. rewrite Hc. f_equal.
  destruct (Sound _ _ Hc) as (k' & s' & p' & Hk' & Hkind' & Hp' & Hid & ->).
  assert (s' = svc) as -> by (by eapply Huniq). congruence.
Qed.

(** X13. Every configuration the handler sends is fully populated: namespace
    "default", connect timeout 1000 ms and handshake timeout 10000 ms, a
    bind address that is not empty, and in each upstream a destination
    type, a destination namespace and a local bind address that are not
    empty. *)
Theorem handler_sends_populated_configs blockVal resp logs c id cfg :
  handler blockVal (NodeVal (Some resp)) = (logs, Sent c) ->
  c !! id = Some cfg ->
  ProxiedServiceNamespace cfg = "default" /\
  LocalConnectTimeoutMs (PublicListener cfg) = 1000%N /\
  HandshakeTimeoutMs (PublicListener cfg) = 10000%N /\
  BindAddress (PublicListener cfg) <> "" /\
  Forall (fun uc => DestinationType uc <> "" /\ DestinationNamespace uc <> "" /\
                    LocalBindAddress uc <> "")
         (Upstreams cfg).
Proof.
  intros H%handler_sent Hc.
  destruct (services_loop_sent _ _ _ _ _ H) as (S1 & _).
  destruct (S1 id cfg Hc) as [H0|(kv & s & q & _ & _ & _ & _ & _ & ->)];
    [by rewrite lookup_empty in H0|].
  unfold proxyConfig. simpl. repeat split.
  - by case_decide.
  - apply Forall_fmap, Forall_forall. intros uc _. simpl.
    repeat split; by case_decide.
Qed.

(** X14. The handler sends nothing in exactly these cases: on a value that
    is not a catalog node it logs one warning and returns; on a nil catalog
    node, a nil entry of the services map, or a connect-proxy service
    without proxy configuration it panics. On every other response it
    sends a snapshot. *)
Theorem handler_sends_unless_nil blockVal :
  handler blockVal OtherVal = ([WarnBadResponse], Dropped) /\
  (handler blockVal (NodeVal None)).2 = Crashed /\
  forall resp,
    ((handler blockVal (NodeVal (Some resp))).2 = Crashed <->
     exists k, api.Services resp !! k = Some None \/
       exists svc, api.Services resp !! k = Some (Some svc) /\
         api.Kind svc = ServiceKindConnectProxy /\ api.Proxy svc = None) /\
    ((handler blockVal (NodeVal (Some resp))).2 = Crashed \/
     exists c, (handler blockVal (NodeVal (Some resp))).2 = Sent c).
Proof.
  split; [done|]. split; [done|]. intros resp. unfold handler. simpl.
  pose proof (services_loop_crash (range ro (api.Services resp)) [] ∅) as Hc.
  destruct (services_loop (range ro (api.Services resp)) [] ∅) as [lg [c|]];
    simpl in *.
  - split; [|right; eauto]. split; [done|].
    intros (k & Hk). exfalso.
    assert (Some c = None) as E; [|done].
    apply Hc. destruct Hk as [Hk|(svc & Hk & Hkind & Hp)].
    + exists (k, None). split; [by apply elem_of_range|by left].
    + exists (k, Some svc). split; [by apply elem_of_range|].
      right. exists svc. done.
  - split; [|by left]. split; [|done]. intros _.
    destruct (proj1 Hc eq_refl) as ([k v] & Hin & Hf).
    apply elem_of_range in Hin. exists k.
    destruct Hf as [Hf|(svc & Hv & Hkind & Hp)]; simpl in *; subst v.
    + by left.
    + right. exists svc. done.
Qed.

End Watcher.

(** *** From the catalog to the runtime states *)

Section Catalog.

Variable lib : Library.
Variable ro : RangeOrder.
Variable ServiceKindConnectProxy : string.
Variable watcher_order : RangeOrder.

(** X15. The handler sends a snapshot for a response and Serve applies it
    to its end. Then the identifiers that have a runtime state are the IDs
    of the connect-proxy services of the response; a runtime state the pass
    has created holds the configuration the handler built for such a
    service; and every registered handle is registered under the
    destination service name of one of them. *)
Theorem runtime_states_follow_the_catalog blockVal resp logs c w w' :
  handler ServiceKindConnectProxy watcher_order blockVal (NodeVal (Some resp))
  = (logs, Sent c) ->
  serving w = true ->
  step lib ro (RecvConfig c) w = Done tt w' ->
  (forall id, is_Some (states w' !! id) <->
     exists k svc, api.Services resp !! k = Some (Some svc) /\
       api.Kind svc = ServiceKindConnectProxy /\ api.ID svc = id) /\
  (forall id st, states w !! id = None -> states w' !! id = Some st ->
     exists k svc p, api.Services resp !! k = Some (Some svc) /\
       api.Kind svc = ServiceKindConnectProxy /\ api.Proxy svc = Some p /\
       api.ID svc = id /\ config st = proxyConfig svc p) /\
  (forall N, is_Some (registry w' !! N) ->
     exists k svc p, api.Services resp !! k = Some (Some svc) /\
       api.Kind svc = ServiceKindConnectProxy /\ api.Proxy svc = Some p /\
       api.DestinationServiceName p = N).
Proof.
  intros H Hs Hstep. destruct (sent_snapshot _ _ _ _ _ _ H) as [Sound Complete].
  pose proof Hstep as Hpass. rewrite step_RecvConfig in Hpass by done.
  destruct (Serve_config_done _ _ _ _ _ Hpass) as (D & _ & _ & _ & _ & R & _).
  split; [|split].
  - intros id. rewrite <- elem_of_dom. rewrite D. rewrite elem_of_dom. split.
    + intros [cfg Hc].
      destruct (Sound _ _ Hc) as (k & svc & p & Hk & Hkind & _ & Hid & _).
      by exists k, svc.
    + intros (k & svc & Hk & Hkind & <-). by eapply Complete.
  - intros id st Hid Hst.
    set (φ := fun (id' : string) (st' : proxyState) =>
                id' = id -> c !! id = Some (config st')).
    assert (every_state φ w') as Hall.
    { pose proof (step_every_state lib ro φ) as Hk.
      specialize (Hk ltac:(by intros ???) ltac:(by intros ?????) (RecvConfig c)).
      specialize (Hk ltac:(by intros S id' cfg [= <-] HS ->) w).
      rewrite Hstep in Hk. apply Hk. intros id' st' E ->. congruence. }
    destruct (Sound _ _ (Hall id st Hst eq_refl))
      as (k & svc & p & Hk & Hkind & Hp & Hi & Hc).
    by exists k, svc, p.
  - intros N HN. destruct (R N HN) as (id & cfg & Hc & <-).
    destruct (Sound _ _ Hc) as (k & svc & p & Hk & Hkind & Hp & _ & ->).
    by exists k, svc, p.
Qed.

End Catalog.

(** *** A node with a service and its sidecar proxy *)

Definition web : api.AgentService :=
  {| api.Kind := ""; api.ID := "web"; api.Service := "web"; api.Port := 8080;
     api.Address := ""; api.Proxy := None |}.

Definition web_proxy : api.AgentService :=
  {| api.Kind := "connect-proxy"; api.ID := "web-sidecar-proxy";
     api.Service := "web-sidecar-proxy"; api.Port := 21000; api.Address := "";
     api.Proxy :=
       Some {| api.DestinationServiceName := "web";
               api.LocalServiceAddress := "127.0.0.1";
               api.LocalServicePort := 8080;
               api.Upstreams :=
                 [ {| DestinationType := ""; DestinationNamespace := "";
                      DestinationName := "db"; LocalBindAddress := "";
                      LocalBindPort := 9191 |} ] |} |}.

Definition node : api.CatalogNode :=
  {| api.Services := {[ "web" := Some web; "web-sidecar-proxy" := Some web_proxy ]} |}.

Definition web_proxy_config : Config :=
  {| ProxiedServiceName := "web"; ProxiedServiceNamespace := "default";
     PublicListener :=
       {| BindAddress := "0.0.0.0"; BindPort := 21000;
          LocalServiceAddress := "127.0.0.1:8080";
          LocalConnectTimeoutMs := 1000; HandshakeTimeoutMs := 10000 |};
     Upstreams :=
       [ {| DestinationType := "service"; DestinationNamespace := "default";
            DestinationName := "db"; LocalBindAddress := "0.0.0.0";
            LocalBindPort := 9191 |} ] |}.

Definition node_snapshot : gmap string Config :=
  {[ "web-sidecar-proxy" := web_proxy_config ]}.

Definition world_node : World :=
  world_of (step consul in_order (RecvConfig node_snapshot) boot).

Lemma handler_sends_the_proxy_services_witness :
  handler "connect-proxy" in_order 0 (NodeVal (Some node))
  = ([WarnService "web-sidecar-proxy"], Sent node_snapshot) /\
  is_Some (node_snapshot !! api.ID web_proxy).
Proof.
  assert (handler "connect-proxy" in_order 0 (NodeVal (Some node))
          = ([WarnService "web-sidecar-proxy"], Sent node_snapshot)) as H
    by (vm_compute; reflexivity).
  assert (api.Services node !! "web-sidecar-proxy" = Some (Some web_proxy)) as Hk
    by (vm_compute; reflexivity).
  split; [exact H|].
  exact (proj1 (proj2 (handler_sends_the_proxy_services "connect-proxy" in_order
                         0%N node _ _ H))
           "web-sidecar-proxy" web_proxy Hk eq_refl).
Defined.

Lemma handler_sends_populated_configs_witness :
  (handler "connect-proxy" in_order 0 (NodeVal (Some node))
   = ([WarnService "web-sidecar-proxy"], Sent node_snapshot) /\
   node_snapshot !! "web-sidecar-proxy" = Some web_proxy_config) /\
  LocalConnectTimeoutMs (PublicListener web_proxy_config) = 1000%N /\
  HandshakeTimeoutMs (PublicListener web_proxy_config) = 10000%N.
Proof.
  assert (handler "connect-proxy" in_order 0 (NodeVal (Some node))
          = ([WarnService "web-sidecar-proxy"], Sent node_snapshot)) as H
    by (vm_compute; reflexivity).
  assert (node_snapshot !! "web-sidecar-proxy" = Some web_proxy_config) as Hc
    by (vm_compute; reflexivity).
  split; [exact (conj H Hc)|].
  pose proof (handler_sends_populated_configs "connect-proxy" in_order 0%N node
                _ _ "web-sidecar-proxy" web_proxy_config H Hc) as T.
  exact (conj (proj1 (proj2 T)) (proj1 (proj2 (proj2 T)))).
Defined.

Lemma runtime_states_follow_the_catalog_witness :
  (handler "connect-proxy" in_order 0 (NodeVal (Some node))
   = ([WarnService "web-sidecar-proxy"], Sent node_snapshot) /\
   serving boot = true /\
   step consul in_order (RecvConfig node_snapshot) boot = Done tt world_node) /\
  (is_Some (states world_node !! "web-sidecar-proxy") <->
   exists k svc, api.Services node !! k = Some (Some svc) /\
     api.Kind svc = "connect-proxy" /\ api.ID svc = "web-sidecar-proxy").
Proof.
  assert (handler "connect-proxy" in_order 0 (NodeVal (Some node))
          = ([WarnService "web-sidecar-proxy"], Sent node_snapshot)) as H
    by (vm_compute; reflexivity).
  assert (serving boot = true) as H0 by reflexivity.
  assert (step consul in_order (RecvConfig node_snapshot) boot = Done tt world_node)
    as H1 by (vm_compute; reflexivity).
  split; [exact (conj H (conj H0 H1))|].
  exact (proj1 (runtime_states_follow_the_catalog consul in_order "connect-proxy"
                  in_order 0%N node _ _ boot world_node H H0 H1)
           "web-sidecar-proxy").
Defined.
